(** * sjtu::map — an AVL tree with parent links, embedded over an explicit heap

    The C++ container [sjtu::map<Key, T, Compare>] of [src/map.hpp] stores its
    elements in heap-allocated nodes linked by [left], [right] and [parent]
    pointers.  The embedding keeps that shape: a node store indexed by
    addresses, the map object's own fields [root] and [n], and every member
    function written as a state-passing computation that may return, throw one
    of the two exceptions of [exceptions.hpp], or get stuck (a null or dangling
    dereference, or a loop that does not end). *)

From Stdlib Require Import ZArith Lia.
From stdpp Require Import gmap list sorting.

Local Open Scope Z_scope.

(* [set_solver] clears hypotheses by name; the report of each miss is
   switched off. *)
Set Warnings "-clear-no-such-hyp".

(** Addresses of nodes, and the address of a map object (the [this] pointer
    that iterators remember as their [owner]). *)
Abbreviation addr := positive.
Abbreviation mapid := positive.

(** The two exception classes of [exceptions.hpp] that the container throws. *)
Inductive exn : Set := index_out_of_bound | invalid_iterator.

(** [size_t] arithmetic: [++n] and [--n] are taken modulo [2^64]. *)
Definition size_max : Z := 2 ^ 64.
Definition wrap (z : Z) : Z := z mod size_max.

(** The template parameter [Compare], held by the map as [comp]; and [T()],
    the value-initialised mapped value that [operator[]] inserts. *)
Class Compare (Key : Type) : Type := comp : Key → Key → bool.
Class Default (T : Type) : Type := T_default : T.

Section Map.

Context {Key T : Type} `{!Compare Key} `{!Default T}.

(** [struct Node]; [value] is the [pair<const Key, T>]. *)
Record Node : Type := mkNode {
  value : Key * T;
  left : option addr;
  right : option addr;
  parent : option addr;
  height : Z
}.

(** The node store together with the fields of the map object at hand. *)
Record state : Type := mkState {
  mem : gmap addr Node;
  root : option addr;
  n : Z
}.

Inductive outcome (A : Type) : Type :=
| Ok (a : A) (s : state)
| Throw (e : exn) (s : state)
| Stuck.
Arguments Ok {A} a s.
Arguments Throw {A} e s.
Arguments Stuck {A}.

Definition M (A : Type) : Type := state → outcome A.

Definition ret {A} (a : A) : M A := λ s, Ok a s.
Definition bind {A B} (c : M A) (k : A → M B) : M B :=
  λ s, match c s with
       | Ok a s' => k a s'
       | Throw e s' => Throw e s'
       | Stuck => Stuck
       end.
Definition throw {A} (e : exn) : M A := λ s, Throw e s.
Definition stuck {A} : M A := λ _, Stuck.

Notation "'let!' x ':=' c 'in' k" := (bind c (λ x, k))
  (at level 10, x name, c at level 100, k at level 200).
Notation "c ';;' k" := (bind c (λ _, k))
  (at level 100, k at level 200, right associativity).

(** ** Memory primitives *)

(** [*p]: reading through a null or dangling pointer is undefined. *)
Definition load (p : option addr) : M Node :=
  λ s, match p with
       | Some a => match mem s !! a with Some nd => Ok nd s | None => Stuck end
       | None => Stuck
       end.

Definition store (p : option addr) (f : Node → Node) : M unit :=
  λ s, match p with
       | Some a =>
           match mem s !! a with
           | Some nd => Ok tt (mkState (<[a := f nd]> (mem s)) (root s) (n s))
           | None => Stuck
           end
       | None => Stuck
       end.

Definition get_value (p : option addr) : M (Key * T) := let! nd := load p in ret (value nd).
Definition get_left (p : option addr) : M (option addr) := let! nd := load p in ret (left nd).
Definition get_right (p : option addr) : M (option addr) := let! nd := load p in ret (right nd).
Definition get_parent (p : option addr) : M (option addr) := let! nd := load p in ret (parent nd).
Definition get_height (p : option addr) : M Z := let! nd := load p in ret (height nd).

Definition set_value (p : option addr) (v : Key * T) : M unit :=
  store p (λ nd, mkNode v (left nd) (right nd) (parent nd) (height nd)).
Definition set_left (p : option addr) (v : option addr) : M unit :=
  store p (λ nd, mkNode (value nd) v (right nd) (parent nd) (height nd)).
Definition set_right (p : option addr) (v : option addr) : M unit :=
  store p (λ nd, mkNode (value nd) (left nd) v (parent nd) (height nd)).
Definition set_parent (p : option addr) (v : option addr) : M unit :=
  store p (λ nd, mkNode (value nd) (left nd) (right nd) v (height nd)).
Definition set_height (p : option addr) (v : Z) : M unit :=
  store p (λ nd, mkNode (value nd) (left nd) (right nd) (parent nd) v).

(** [new Node(v, p)]: a fresh address, fields as the constructor sets them. *)
Definition new_Node (v : Key * T) (p : option addr) : M (option addr) :=
  λ s, let a := fresh (dom (mem s)) in
       Ok (Some a) (mkState (<[a := mkNode v None None p 1]> (mem s)) (root s) (n s)).

(** [delete x] of a live node. *)
Definition delete_Node (p : option addr) : M unit :=
  λ s, match p with
       | Some a =>
           match mem s !! a with
           | Some _ => Ok tt (mkState (delete a (mem s)) (root s) (n s))
           | None => Stuck
           end
       | None => Stuck
       end.

Definition get_root : M (option addr) := λ s, Ok (root s) s.
Definition set_root (r : option addr) : M unit := λ s, Ok tt (mkState (mem s) r (n s)).
Definition get_n : M Z := λ s, Ok (n s) s.
Definition set_n (z : Z) : M unit := λ s, Ok tt (mkState (mem s) (root s) z).

(** [if (p) c]: run [c] only for a non-null pointer. *)
Definition when_ptr (p : option addr) (c : M unit) : M unit :=
  match p with Some _ => c | None => ret tt end.

(** ** Height bookkeeping (map.hpp 43-46).  [int] heights are integers here,
    with no bound: the embedding and the source agree as long as every
    height that is computed fits in an [int].  Cached heights that are the
    true heights of an AVL tree do; where a statement puts no such
    condition on the cached heights it asks for the bound itself. *)

Definition h (x : option addr) : M Z :=
  match x with
  | Some _ => let! nd := load x in ret (height nd)
  | None => ret 0
  end.

Definition max2 (a b : Z) : Z := if a >? b then a else b.

Definition upd (x : option addr) : M unit :=
  match x with
  | Some _ =>
      let! l := get_left x in
      let! r := get_right x in
      let! hl := h l in
      let! hr := h r in
      set_height x (1 + max2 hl hr)
  | None => ret tt
  end.

Definition bf (x : option addr) : M Z :=
  match x with
  | Some _ =>
      let! l := get_left x in
      let! r := get_right x in
      let! hl := h l in
      let! hr := h r in
      ret (hl - hr)
  | None => ret 0
  end.

(** ** Rotations and rebalancing (map.hpp 48-90) *)

Definition rotateRight (y : option addr) : M (option addr) :=
  let! x := get_left y in
  let! T2 := get_right x in
  set_right x y ;; set_parent y x ;;
  set_left y T2 ;; when_ptr T2 (set_parent T2 y) ;;
  upd y ;; upd x ;;
  let! yp := get_parent y in
  set_parent x yp ;;
  ret x.

Definition rotateLeft (x : option addr) : M (option addr) :=
  let! y := get_right x in
  let! T2 := get_left y in
  set_left y x ;; set_parent x y ;;
  set_right x T2 ;; when_ptr T2 (set_parent T2 x) ;;
  upd x ;; upd y ;;
  let! xp := get_parent x in
  set_parent y xp ;;
  ret y.

Definition rebalance (node : option addr) : M (option addr) :=
  upd node ;;
  let! b := bf node in
  if b >? 1 then
    let! nl := get_left node in
    let! bl := bf nl in
    (if bl <? 0 then
       let! nl := get_left node in
       let! r := rotateLeft nl in
       set_left node r ;;
       let! nl := get_left node in
       when_ptr nl (set_parent nl node)
     else ret tt) ;;
    let! newRoot := rotateRight node in
    let! nr := get_right newRoot in
    when_ptr nr (set_parent nr newRoot) ;;
    ret newRoot
  else if b <? -1 then
    let! nr := get_right node in
    let! br := bf nr in
    (if br >? 0 then
       let! nr := get_right node in
       let! r := rotateRight nr in
       set_right node r ;;
       let! nr := get_right node in
       when_ptr nr (set_parent nr node)
     else ret tt) ;;
    let! newRoot := rotateLeft node in
    let! nl := get_left newRoot in
    when_ptr nl (set_parent nl newRoot) ;;
    ret newRoot
  else ret node.

(** ** Walks (map.hpp 92-134).  Each [while] loop is a fuelled iteration;
    running out of fuel is [Stuck]. *)

Fixpoint minNode_loop (fuel : nat) (x : option addr) : M (option addr) :=
  match fuel with
  | O => stuck
  | S fuel =>
      let! l := get_left x in
      match l with
      | Some _ => minNode_loop fuel l
      | None => ret x
      end
  end.

Definition minNode (fuel : nat) (x : option addr) : M (option addr) :=
  match x with
  | None => ret None
  | Some _ => minNode_loop fuel x
  end.

Fixpoint maxNode_loop (fuel : nat) (x : option addr) : M (option addr) :=
  match fuel with
  | O => stuck
  | S fuel =>
      let! r := get_right x in
      match r with
      | Some _ => maxNode_loop fuel r
      | None => ret x
      end
  end.

Definition maxNode (fuel : nat) (x : option addr) : M (option addr) :=
  match x with
  | None => ret None
  | Some _ => maxNode_loop fuel x
  end.

(** [while (p && x == p->right) { x = p; p = p->parent; }] *)
Fixpoint successor_climb (fuel : nat) (x p : option addr) : M (option addr) :=
  match fuel with
  | O => stuck
  | S fuel =>
      match p with
      | None => ret p
      | Some _ =>
          let! pr := get_right p in
          if decide (x = pr) then
            let! pp := get_parent p in successor_climb fuel p pp
          else ret p
      end
  end.

Definition successor (fuel : nat) (x : option addr) : M (option addr) :=
  match x with
  | None => ret None
  | Some _ =>
      let! r := get_right x in
      match r with
      | Some _ => minNode_loop fuel r
      | None => let! p := get_parent x in successor_climb fuel x p
      end
  end.

(** [while (p && x == p->left) { x = p; p = p->parent; }] *)
Fixpoint predecessor_climb (fuel : nat) (x p : option addr) : M (option addr) :=
  match fuel with
  | O => stuck
  | S fuel =>
      match p with
      | None => ret p
      | Some _ =>
          let! pl := get_left p in
          if decide (x = pl) then
            let! pp := get_parent p in predecessor_climb fuel p pp
          else ret p
      end
  end.

Definition predecessor (fuel : nat) (x : option addr) : M (option addr) :=
  match x with
  | None => ret None
  | Some _ =>
      let! l := get_left x in
      match l with
      | Some _ => maxNode_loop fuel l
      | None => let! p := get_parent x in predecessor_climb fuel x p
      end
  end.

Fixpoint findNode_loop (fuel : nat) (key : Key) (cur : option addr) : M (option addr) :=
  match fuel with
  | O => stuck
  | S fuel =>
      match cur with
      | None => ret None
      | Some _ =>
          let! v := get_value cur in
          if comp key (fst v) then
            let! l := get_left cur in findNode_loop fuel key l
          else if comp (fst v) key then
            let! r := get_right cur in findNode_loop fuel key r
          else ret cur
      end
  end.

Definition findNode (fuel : nat) (key : Key) : M (option addr) :=
  let! cur := get_root in findNode_loop fuel key cur.

(** ** Insertion (map.hpp 136-156).  The out-parameters [inserted] and
    [*insertedPtr] are returned next to the new subtree root. *)

(** Lines 150-155, shared by the two recursive branches. *)
Definition insertNode_tail (node parent : option addr) : M (option addr) :=
  let! res := rebalance node in
  let! rl := get_left res in
  when_ptr rl (set_parent rl res) ;;
  let! rr := get_right res in
  when_ptr rr (set_parent rr res) ;;
  set_parent res parent ;;
  ret res.

Fixpoint insertNode (fuel : nat) (node parent : option addr) (val : Key * T)
  : M (option addr * bool * option addr) :=
  match fuel with
  | O => stuck
  | S fuel =>
      match node with
      | None =>
          let! nn := new_Node val parent in
          let! c := get_n in
          set_n (wrap (c + 1)) ;;
          ret (nn, true, nn)
      | Some _ =>
          let! v := get_value node in
          if comp (fst val) (fst v) then
            let! l := get_left node in
            let! out := insertNode fuel l node val in
            let '(l', inserted, ins) := out in
            set_left node l' ;;
            let! res := insertNode_tail node parent in
            ret (res, inserted, ins)
          else if comp (fst v) (fst val) then
            let! r := get_right node in
            let! out := insertNode fuel r node val in
            let '(r', inserted, ins) := out in
            set_right node r' ;;
            let! res := insertNode_tail node parent in
            ret (res, inserted, ins)
          else ret (node, false, node)
      end
  end.

(** ** Erasure by node pointer (map.hpp 159-196).  The reference parameter
    [erased] is threaded through: it comes in with the caller's value and
    goes out with the callee's. *)

(** Lines 188-195. *)
Definition eraseByNode_tail (node : option addr) : M (option addr) :=
  let! res := rebalance node in
  let! rl := get_left res in
  when_ptr rl (set_parent rl res) ;;
  let! rr := get_right res in
  when_ptr rr (set_parent rr res) ;;
  ret res.

Fixpoint eraseByNode (fuel : nat) (node target : option addr) (erased : bool)
  : M (option addr * bool) :=
  match fuel with
  | O => stuck
  | S fuel =>
      match node with
      | None => ret (None, erased)
      | Some _ =>
          if decide (node = target) then
            let! l := get_left node in
            let! r := get_right node in
            match l, r with
            | Some _, Some _ =>
                let! s := minNode fuel r in
                let! tmp := get_value s in
                set_value node tmp ;;
                let! r := get_right node in
                let! out := eraseByNode fuel r s false in
                let '(r', _) := out in
                set_right node r' ;;
                let! r := get_right node in
                when_ptr r (set_parent r node) ;;
                let! res := eraseByNode_tail node in
                ret (res, true)
            | _, _ =>
                let! c := get_n in
                set_n (wrap (c - 1)) ;;
                let child := match l with Some _ => l | None => r end in
                let! np := get_parent node in
                when_ptr child (set_parent child np) ;;
                delete_Node node ;;
                ret (child, true)
            end
          else
            let! tv := get_value target in
            let! v := get_value node in
            if comp (fst tv) (fst v) then
              let! l := get_left node in
              let! out := eraseByNode fuel l target erased in
              let '(l', erased) := out in
              set_left node l' ;;
              let! l := get_left node in
              when_ptr l (set_parent l node) ;;
              let! res := eraseByNode_tail node in
              ret (res, erased)
            else
              let! r := get_right node in
              let! out := eraseByNode fuel r target erased in
              let '(r', erased) := out in
              set_right node r' ;;
              let! r := get_right node in
              when_ptr r (set_parent r node) ;;
              let! res := eraseByNode_tail node in
              ret (res, erased)
      end
  end.

(** ** Teardown and deep copy (map.hpp 198-212) *)

Fixpoint destroy (fuel : nat) (x : option addr) : M unit :=
  match fuel with
  | O => stuck
  | S fuel =>
      match x with
      | None => ret tt
      | Some _ =>
          let! l := get_left x in
          destroy fuel l ;;
          let! r := get_right x in
          destroy fuel r ;;
          delete_Node x
      end
  end.

Fixpoint clone (fuel : nat) (x parent : option addr) : M (option addr) :=
  match fuel with
  | O => stuck
  | S fuel =>
      match x with
      | None => ret None
      | Some _ =>
          let! v := get_value x in
          let! y := new_Node v parent in
          let! hx := get_height x in
          set_height y hx ;;
          let! xl := get_left x in
          let! yl := clone fuel xl y in
          set_left y yl ;;
          let! xr := get_right x in
          let! yr := clone fuel xr y in
          set_right y yr ;;
          ret y
      end
  end.

(** ** Iterators (map.hpp 216-377).  [iterator] and [const_iterator] have the
    same two fields and the same method bodies; one record serves both.  The
    methods run in the state of the map their [owner] points to. *)

Record iterator : Type := mkIter { cur : option addr; owner : option mapid }.

(** Loops and recursions of the public interface get as much fuel as there
    are nodes in the store, plus one: a walk over pairwise distinct live nodes
    cannot be longer. *)
Definition with_fuel {A} (f : nat → M A) : M A := λ s, f (S (size (mem s))) s.

(** [++iter]; [iter++] differs only in returning the old iterator too. *)
Definition iter_pre_inc (it : iterator) : M iterator :=
  match owner it with
  | None => throw invalid_iterator
  | Some _ =>
      match cur it with
      | None => throw invalid_iterator
      | Some _ =>
          let! c := with_fuel (λ f, successor f (cur it)) in
          ret (mkIter c (owner it))
      end
  end.

Definition iter_post_inc (it : iterator) : M (iterator * iterator) :=
  match owner it with
  | None => throw invalid_iterator
  | Some _ =>
      match cur it with
      | None => throw invalid_iterator
      | Some _ =>
          let tmp := it in
          let! c := with_fuel (λ f, successor f (cur it)) in
          ret (tmp, mkIter c (owner it))
      end
  end.

(** [--iter] (map.hpp 269-279, 361-369). *)
Definition iter_pre_dec (it : iterator) : M iterator :=
  match owner it with
  | None => throw invalid_iterator
  | Some _ =>
      match cur it with
      | None =>
          let! r := get_root in
          match r with
          | None => throw invalid_iterator
          | Some _ =>
              let! c := with_fuel (λ f, maxNode f r) in
              ret (mkIter c (owner it))
          end
      | Some _ =>
          let! r := get_root in
          let! m := with_fuel (λ f, minNode f r) in
          if decide (cur it = m) then throw invalid_iterator
          else
            let! c := with_fuel (λ f, predecessor f (cur it)) in
            ret (mkIter c (owner it))
      end
  end.

(** [iter--] (map.hpp 251-264, 351-360): the old iterator and the new one. *)
Definition iter_post_dec (it : iterator) : M (iterator * iterator) :=
  match owner it with
  | None => throw invalid_iterator
  | Some _ =>
      let tmp := it in
      match cur it with
      | None =>
          let! r := get_root in
          match r with
          | None => throw invalid_iterator
          | Some _ =>
              let! c := with_fuel (λ f, maxNode f r) in
              ret (tmp, mkIter c (owner it))
          end
      | Some _ =>
          let! r := get_root in
          let! m := with_fuel (λ f, minNode f r) in
          if decide (cur it = m) then throw invalid_iterator
          else
            let! c := with_fuel (λ f, predecessor f (cur it)) in
            ret (tmp, mkIter c (owner it))
      end
  end.

(** [*iter] (map.hpp 284-287, 330-333). *)
Definition iter_deref (it : iterator) : M (Key * T) :=
  match owner it, cur it with
  | Some _, Some _ => get_value (cur it)
  | _, _ => throw invalid_iterator
  end.

(** [iter->] (map.hpp 304-308, 334-337), declared [noexcept]: the address of
    the node's [value], which is the node's own address here, or [nullptr]. *)
Definition iter_arrow (it : iterator) : M (option addr) :=
  match owner it, cur it with
  | Some _, Some _ => ret (cur it)
  | _, _ => ret None
  end.

Definition iter_eq (a b : iterator) : bool :=
  bool_decide (owner a = owner b) && bool_decide (cur a = cur b).

(** ** The public interface (map.hpp 382-536) *)

(** [map()] in a given store. *)
Definition map_new (m : gmap addr Node) : state := mkState m None 0.

Definition clear : M unit :=
  let! r := get_root in
  with_fuel (λ f, destroy f r) ;;
  set_root None ;;
  set_n 0.

(** Lines 385-390 and 399-404: what the copy constructor and the copy
    assignment do with [other]'s fields. *)
Definition copy_from (other_root : option addr) (other_n : Z) : M unit :=
  let! r := with_fuel (λ f, clone f other_root None) in
  set_root r ;;
  set_n other_n ;;
  let! r := get_root in
  match r with
  | Some _ =>
      let! rl := get_left r in
      when_ptr rl (set_parent rl r) ;;
      let! rr := get_right r in
      when_ptr rr (set_parent rr r)
  | None => ret tt
  end.

(** [map(const map &other)]: the new object starts from its default member
    initialisers, in the store [other] lives in. *)
Definition map_copy (other : state) : outcome unit :=
  copy_from (root other) (n other) (map_new (mem other)).

(** [operator=(const map &other)], run in the state of [*this]. *)
Definition map_assign (this other : mapid) (other_root : option addr) (other_n : Z) : M unit :=
  if decide (this = other) then ret tt
  else clear ;; copy_from other_root other_n.

(** [at], both overloads: the reference [x->value.second] is given as the
    node [x] it lives in. *)
Definition at_ (key : Key) : M (option addr) :=
  let! x := with_fuel (λ f, findNode f key) in
  match x with
  | None => throw index_out_of_bound
  | Some _ => ret x
  end.

(** [operator[]], the read-write overload. *)
Definition index (key : Key) : M (option addr) :=
  let! x := with_fuel (λ f, findNode f key) in
  match x with
  | Some _ => ret x
  | None =>
      let v := (key, T_default) in
      let! r := get_root in
      let! out := with_fuel (λ f, insertNode f r None v) in
      let '(r', inserted, ins) := out in
      set_root r' ;;
      let! r := get_root in
      when_ptr r (set_parent r None) ;;
      let! _ := load ins in
      ret ins
  end.

(** [operator[] const]. *)
Definition index_const (key : Key) : M (option addr) :=
  let! x := with_fuel (λ f, findNode f key) in
  match x with
  | None => throw index_out_of_bound
  | Some _ => ret x
  end.

Definition begin_ (this : mapid) : M iterator :=
  let! r := get_root in
  let! m := with_fuel (λ f, minNode f r) in
  ret (mkIter m (Some this)).

Definition cbegin (this : mapid) : M iterator := begin_ this.

Definition end_ (this : mapid) : M iterator := ret (mkIter None (Some this)).

Definition cend (this : mapid) : M iterator := end_ this.

Definition empty : M bool := let! c := get_n in ret (c =? 0).

Definition size_ : M Z := get_n.

Definition insert (this : mapid) (value : Key * T) : M (iterator * bool) :=
  let! r := get_root in
  let! out := with_fuel (λ f, insertNode f r None value) in
  let '(r', inserted, ins) := out in
  set_root r' ;;
  let! r := get_root in
  when_ptr r (set_parent r None) ;;
  ret (mkIter ins (Some this), inserted).

Definition erase (this : mapid) (pos : iterator) : M unit :=
  if decide (owner pos ≠ Some this ∨ cur pos = None) then throw invalid_iterator
  else
    let! r := get_root in
    let! out := with_fuel (λ f, eraseByNode f r (cur pos) false) in
    let '(r', erased) := out in
    set_root r' ;;
    let! r := get_root in
    when_ptr r (set_parent r None) ;;
    if erased then ret tt else throw invalid_iterator.

Definition count (key : Key) : M Z :=
  let! x := with_fuel (λ f, findNode f key) in
  ret (match x with Some _ => 1 | None => 0 end).

Definition find (this : mapid) (key : Key) : M iterator :=
  let! x := with_fuel (λ f, findNode f key) in
  ret (mkIter x (Some this)).

(** * Abstraction: the tree a store holds

    A [tree] names, for every node, its address, its payload and its cached
    height, with the children as subtrees.  [rep m par t] says that the store
    [m] holds exactly these nodes at these addresses, with child links and
    parent links as the tree prescribes, [par] being the parent link of the
    root node. *)

Inductive tree : Type :=
| Leaf
| Nd (a : addr) (l : tree) (kv : Key * T) (hc : Z) (r : tree).

Definition ptr (t : tree) : option addr :=
  match t with Leaf => None | Nd a _ _ _ _ => Some a end.

(** The cached height of the root, as [h] reads it. *)
Definition hgt (t : tree) : Z :=
  match t with Leaf => 0 | Nd _ _ _ hc _ => hc end.

(** In-order listings: addresses, payloads, keys. *)
Fixpoint nodes (t : tree) : list addr :=
  match t with Leaf => [] | Nd a l _ _ r => nodes l ++ a :: nodes r end.

Fixpoint elems (t : tree) : list (Key * T) :=
  match t with Leaf => [] | Nd _ l kv _ r => elems l ++ kv :: elems r end.

Definition keys (t : tree) : list Key := fst <$> elems t.

(** In-order listing of addresses with what is stored there. *)
Fixpoint cells (t : tree) : list (addr * (Key * T)) :=
  match t with Leaf => [] | Nd a l kv _ r => cells l ++ (a, kv) :: cells r end.

(** True height, as an integer and as a recursion depth. *)
Fixpoint ht (t : tree) : Z :=
  match t with Leaf => 0 | Nd _ l _ _ r => 1 + Z.max (ht l) (ht r) end.

Fixpoint depth (t : tree) : nat :=
  match t with Leaf => O | Nd _ l _ _ r => S (Nat.max (depth l) (depth r)) end.

Fixpoint rep (m : gmap addr Node) (par : option addr) (t : tree) : Prop :=
  match t with
  | Leaf => True
  | Nd a l kv hc r =>
      m !! a = Some (mkNode kv (ptr l) (ptr r) par hc)
      ∧ rep m (Some a) l ∧ rep m (Some a) r
  end.

(** No address occurs twice. *)
Definition uniq (t : tree) : Prop := NoDup (nodes t).

(** Invariant 4: every cached height is the true height. *)
Fixpoint hok (t : tree) : Prop :=
  match t with
  | Leaf => True
  | Nd _ l _ hc r => hc = 1 + Z.max (ht l) (ht r) ∧ hok l ∧ hok r
  end.

(** Invariant 3: at every node the heights of the two subtrees differ by at
    most one. *)
Fixpoint balanced (t : tree) : Prop :=
  match t with
  | Leaf => True
  | Nd _ l _ _ r => -1 ≤ ht l - ht r ≤ 1 ∧ balanced l ∧ balanced r
  end.

(** Invariants 1 and 2: the in-order keys ascend strictly under [comp]. *)
Definition lt (x y : Key) : Prop := comp x y = true.
Definition equiv_key (x y : Key) : Prop := comp x y = false ∧ comp y x = false.
Definition ordered (t : tree) : Prop := StronglySorted lt (keys t).

(** What the store holds for the map object of a state: some tree rooted at
    [root], whose root has no parent, with all six invariants of the data
    model. *)
Record tree_of (s : state) (t : tree) : Prop := mkTreeOf {
  to_root : root s = ptr t;
  to_rep : rep (mem s) None t;
  to_uniq : uniq t;
  to_hok : hok t;
  to_bal : balanced t;
  to_ord : ordered t
}.

Definition counted (s : state) (t : tree) : Prop :=
  n s = Z.of_nat (length (nodes t)) ∧ n s < size_max.

(** ** The operations on trees that the pointer code carries out *)

Definition t_upd (t : tree) : tree :=
  match t with
  | Leaf => Leaf
  | Nd a l kv _ r => Nd a l kv (1 + max2 (hgt l) (hgt r)) r
  end.

Definition t_bf (t : tree) : Z :=
  match t with Leaf => 0 | Nd _ l _ _ r => hgt l - hgt r end.

Definition t_rotateRight (t : tree) : tree :=
  match t with
  | Nd y (Nd x A kx hx B) ky hy C => t_upd (Nd x A kx hx (t_upd (Nd y B ky hy C)))
  | _ => t
  end.

Definition t_rotateLeft (t : tree) : tree :=
  match t with
  | Nd x A kx hx (Nd y B ky hy C) => t_upd (Nd y (t_upd (Nd x A kx hx B)) ky hy C)
  | _ => t
  end.

Definition t_rebalance (t : tree) : tree :=
  match t_upd t with
  | Leaf => Leaf
  | Nd a l kv hc r =>
      let b := hgt l - hgt r in
      if b >? 1 then
        t_rotateRight (Nd a (if t_bf l <? 0 then t_rotateLeft l else l) kv hc r)
      else if b <? -1 then
        t_rotateLeft (Nd a l kv hc (if t_bf r >? 0 then t_rotateRight r else r))
      else Nd a l kv hc r
  end.

Fixpoint t_insert (na : addr) (val : Key * T) (t : tree) : tree * bool * option addr :=
  match t with
  | Leaf => (Nd na Leaf val 1 Leaf, true, Some na)
  | Nd a l kv hc r =>
      if comp (fst val) (fst kv) then
        let '(l', b, p) := t_insert na val l in
        (t_rebalance (Nd a l' kv hc r), b, p)
      else if comp (fst kv) (fst val) then
        let '(r', b, p) := t_insert na val r in
        (t_rebalance (Nd a l kv hc r'), b, p)
      else (t, false, Some a)
  end.

(** The leftmost and the rightmost cell. *)
Fixpoint t_min (t : tree) : option (addr * (Key * T)) :=
  match t with
  | Leaf => None
  | Nd a Leaf kv _ _ => Some (a, kv)
  | Nd _ l _ _ _ => t_min l
  end.

Fixpoint t_max (t : tree) : option (addr * (Key * T)) :=
  match t with
  | Leaf => None
  | Nd a _ kv _ Leaf => Some (a, kv)
  | Nd _ _ _ _ r => t_max r
  end.

(** [t_erase ta tk erased t]: erase the node at address [ta], whose key is
    [tk], from [t].  Next to the new tree and the [erased] flag, the address
    of the node that was freed, if one was. *)
Fixpoint t_erase (ta : addr) (tk : Key) (erased : bool) (t : tree)
  : tree * bool * option addr :=
  match t with
  | Leaf => (Leaf, erased, None)
  | Nd a l kv hc r =>
      if decide (a = ta) then
        match l, r with
        | Nd _ _ _ _ _, Nd _ _ _ _ _ =>
            match t_min r with
            | Some (sa, skv) =>
                let '(r', _, f) := t_erase sa (fst skv) false r in
                (t_rebalance (Nd a l skv hc r'), true, f)
            | None => (t, erased, None)
            end
        | Nd _ _ _ _ _, Leaf => (l, true, Some a)
        | Leaf, _ => (r, true, Some a)
        end
      else if comp tk (fst kv) then
        let '(l', e, f) := t_erase ta tk erased l in
        (t_rebalance (Nd a l' kv hc r), e, f)
      else
        let '(r', e, f) := t_erase ta tk erased r in
        (t_rebalance (Nd a l kv hc r'), e, f)
  end.

(** The descent of [findNode]. *)
Fixpoint t_find (key : Key) (t : tree) : option addr :=
  match t with
  | Leaf => None
  | Nd a l kv _ r =>
      if comp key (fst kv) then t_find key l
      else if comp (fst kv) key then t_find key r
      else Some a
  end.

(** Two trees that differ in their addresses only. *)
Fixpoint same_shape (t u : tree) : Prop :=
  match t, u with
  | Leaf, Leaf => True
  | Nd _ l kv hc r, Nd _ l' kv' hc' r' =>
      kv = kv' ∧ hc = hc' ∧ same_shape l l' ∧ same_shape r r'
  | _, _ => False
  end.

(** Two address lists without a common element, and a store that changes on
    the listed addresses only. *)
Definition disj (l k : list addr) : Prop := ∀ x, x ∈ l → x ∉ k.

Definition frame (S : list addr) (m m' : gmap addr Node) : Prop :=
  ∀ a, a ∉ S → m' !! a = m !! a.

End Map.

Arguments Node : clear implicits.
Arguments state : clear implicits.
Arguments outcome : clear implicits.
Arguments M : clear implicits.
Arguments tree : clear implicits.
Arguments Ok {Key T A} a s.
Arguments Throw {Key T A} e s.
Arguments Stuck {Key T A}.

(** * Further definitions used by the proofs and the statements *)

(** The key of a cell of the in-order listing. *)
Definition ckey {Key T : Type} (c : addr * (Key * T)) : Key := fst (snd c).

(** What the container asks of [Compare]: a strict order.  (The equivalence
    of keys, neither before the other, is then reflexive and symmetric; where
    a proof needs it to be transitive too, it says so.) *)
Class CompOrder (Key : Type) `{!Compare Key} : Prop := {
  comp_irrefl : ∀ x : Key, comp x x = false;
  comp_trans : ∀ x y z : Key, comp x y = true → comp y z = true → comp x z = true
}.

(** The subtree rooted at a given address. *)
Fixpoint subtree_at {Key T : Type} (x : addr) (t : tree Key T) : option (tree Key T) :=
  match t with
  | Leaf => None
  | Nd a l _ _ r =>
      if decide (a = x) then Some t
      else match subtree_at x l with
           | Some s => Some s
           | None => subtree_at x r
           end
  end.

Definition is_leaf {Key T : Type} (t : tree Key T) : bool :=
  match t with Leaf => true | Nd _ _ _ _ _ => false end.

(** A store that keeps every live node of another as it is. *)
Definition extends {Key T : Type} (m m' : gmap addr (Node Key T)) : Prop :=
  ∀ a, is_Some (m !! a) → m' !! a = m !! a.

(** How many parent links lie between the leftmost node and the root. *)
Fixpoint lspine {Key T : Type} (t : tree Key T) : nat :=
  match t with
  | Leaf => O
  | Nd _ Leaf _ _ _ => O
  | Nd _ l _ _ _ => S (lspine l)
  end.

(** An element with a key equivalent to [k] is stored in the tree. *)
Definition has_key {Key T : Type} `{!Compare Key} (k : Key) (t : tree Key T) : Prop :=
  ∃ kv, kv ∈ elems t ∧ equiv_key k (fst kv).

(** The full requirement of C++ on [Compare], a strict weak order: being
    incomparable is transitive.  Stated as co-transitivity of [comp]. *)
Class CompWeakOrder (Key : Type) `{!Compare Key} : Prop :=
  comp_cotrans : ∀ x y z : Key, comp x y = true → comp x z = true ∨ comp z y = true.

(** The states of a map object [this] after a sequence of [insert] and
    [erase] calls that starts from [map()]; a call that throws is part of the
    sequence as well. *)
Inductive reachable {Key T : Type} `{!Compare Key} `{!Default T} (this : mapid)
  : state Key T → Prop :=
  | reach_new m : reachable this (map_new m)
  | reach_insert s val res s' :
      reachable this s → insert this val s = Ok res s' → reachable this s'
  | reach_erase s pos s' :
      reachable this s → erase this pos s = Ok tt s' → reachable this s'
  | reach_erase_throw s pos e s' :
      reachable this s → erase this pos s = Throw e s' → reachable this s'.

(** ** A concrete instance: keys and values in [Z], compared by [<] *)

#[export] Instance Z_compare : Compare Z := Z.ltb.
#[export] Instance Z_default : Default Z := 0.

(** The object the examples are about. *)
Definition obj : mapid := 1%positive.

(** The map [{1 ↦ 10}]. *)
Definition one_tree : tree Z Z := Nd 1%positive Leaf (1, 10) 1 Leaf.
Definition one_state : state Z Z :=
  mkState (<[1%positive := mkNode (1, 10) None None None 1]> ∅) (Some 1%positive) 1.

(** The map after [insert (2, 20)], [insert (1, 10)], [insert (3, 30)] on the
    empty map: the root holds key 2 and has two children. *)
Definition three_root : Node Z Z :=
  mkNode (2, 20) (Some 2%positive) (Some 3%positive) None 2.
Definition three_tree : tree Z Z :=
  Nd 1%positive (Nd 2%positive Leaf (1, 10) 1 Leaf) (2, 20) 2
                (Nd 3%positive Leaf (3, 30) 1 Leaf).
Definition three_mem : gmap addr (Node Z Z) :=
  <[1%positive := three_root]>
  (<[2%positive := mkNode (1, 10) None None (Some 1%positive) 1]>
  (<[3%positive := mkNode (3, 30) None None (Some 1%positive) 1]> ∅)).
Definition three_state : state Z Z := mkState three_mem (Some 1%positive) 3.

(** How many parent links lie between the rightmost node and the root. *)
Fixpoint rspine {Key T : Type} (t : tree Key T) : nat :=
  match t with
  | Leaf => O
  | Nd _ _ _ _ Leaf => O
  | Nd _ _ _ _ r => S (rspine r)
  end.

(** [operator!=] of both iterator classes (map.hpp 296-298, 372-374). *)
Definition iter_ne (a b : iterator) : bool := negb (iter_eq a b).

(** [~map()] (map.hpp 411). *)
Definition map_destroy {Key T : Type} : M Key T unit := clear.

(** The range of [int], the type of [Node::height]. *)
Definition int_min : Z := - 2 ^ 31.
Definition int_max : Z := 2 ^ 31 - 1.
Definition in_int (z : Z) : Prop := int_min ≤ z ≤ int_max.

(** The three-element map in a store that also holds a node of some other
    object, at address 4. *)
Definition stray_state : state Z Z :=
  mkState (<[4%positive := mkNode (7, 70) None None None 1]> three_mem) (Some 1%positive) 3.


(** Two objects in one store: the map [{9 ↦ 90}], whose node is at address
    5, next to the nodes of the three-element map. *)
Definition lone_tree : tree Z Z := Nd 5%positive Leaf (9, 90) 1 Leaf.
Definition pair_state : state Z Z :=
  mkState (<[5%positive := mkNode (9, 90) None None None 1]> three_mem) (Some 5%positive) 1.

(** * Proofs *)

(** ** Disjointness of address lists, in a form that rewrites to atoms *)

Lemma disj_app_l l1 l2 k : disj (l1 ++ l2) k ↔ disj l1 k ∧ disj l2 k.
Proof. unfold disj. set_solver. Qed.
Lemma disj_cons_l a l k : disj (a :: l) k ↔ (a ∉ k) ∧ disj l k.
Proof. unfold disj. set_solver. Qed.
Lemma disj_app_r l k1 k2 : disj l (k1 ++ k2) ↔ disj l k1 ∧ disj l k2.
Proof. unfold disj. set_solver. Qed.
Lemma disj_cons_r a l k : disj l (a :: k) ↔ (a ∉ l) ∧ disj l k.
Proof. unfold disj. set_solver. Qed.
Lemma disj_nil_l k : disj [] k ↔ True.
Proof. unfold disj. set_solver. Qed.
Lemma disj_nil_r l : disj l [] ↔ True.
Proof. unfold disj. set_solver. Qed.
Lemma NoDup_app_disj (l k : list addr) : NoDup (l ++ k) ↔ NoDup l ∧ NoDup k ∧ disj l k.
Proof. rewrite NoDup_app. unfold disj. tauto. Qed.
Lemma NoDup_nil_True : NoDup (@nil addr) ↔ True.
Proof. split; [done|]. intros _. constructor. Qed.
Lemma notin_nil_True (a : addr) : a ∉ @nil addr ↔ True.
Proof. set_solver. Qed.
Lemma notin_app (a : addr) (l k : list addr) : a ∉ l ++ k ↔ (a ∉ l) ∧ (a ∉ k).
Proof. set_solver. Qed.
Lemma notin_cons (a b : addr) (l : list addr) : a ∉ b :: l ↔ a ≠ b ∧ a ∉ l.
Proof. set_solver. Qed.
Lemma ne_of_notin (c z : addr) (l : list addr) : c ∉ l → z ∈ l → c ≠ z.
Proof. intros H1 H2 ->. done. Qed.

Create Rewrite HintDb uniq_db.
Hint Rewrite disj_app_l disj_cons_l disj_app_r disj_cons_r disj_nil_l disj_nil_r
  NoDup_app_disj (@NoDup_cons addr) NoDup_nil_True notin_nil_True notin_app notin_cons : uniq_db.

Ltac uniq_norm :=
  unfold uniq in *; cbn [nodes] in *; autorewrite with uniq_db in *; destruct_and?.

Ltac ne_solve :=
  first
    [ congruence
    | eapply ne_of_notin; [ | eassumption ]; assumption
    | apply not_eq_sym; eapply ne_of_notin; [ | eassumption ]; assumption ].

Ltac heap_lookup :=
  repeat match goal with
    | |- context [ (<[?a := _]> _) !! ?a ] => rewrite lookup_insert_eq
    | |- context [ (<[?a := _]> _) !! ?b ] =>
        rewrite (lookup_insert_ne _ a b) by ne_solve
    | H : ?m !! ?a = Some _ |- context [ ?m !! ?a ] => rewrite H
    end.

(** ** Symbolic execution of the pointer code *)

Arguments bind {_ _ _ _} c k s /.
Arguments ret {_ _ _} a s /.
Arguments throw {_ _ _} e s /.
Arguments stuck {_ _ _} s /.
Arguments load {_ _} !p s /.
Arguments store {_ _} !p f s /.
Arguments delete_Node {_ _} !p s /.
Arguments new_Node {_ _} v p s /.
Arguments get_value {_ _} p s /.
Arguments get_left {_ _} p s /.
Arguments get_right {_ _} p s /.
Arguments get_parent {_ _} p s /.
Arguments get_height {_ _} p s /.
Arguments set_value {_ _} p v s /.
Arguments set_left {_ _} p v s /.
Arguments set_right {_ _} p v s /.
Arguments set_parent {_ _} p v s /.
Arguments set_height {_ _} p v s /.
Arguments get_root {_ _} s /.
Arguments set_root {_ _} r s /.
Arguments get_n {_ _} s /.
Arguments set_n {_ _} z s /.
Arguments when_ptr {_ _} !p c s /.
Arguments h {_ _} !x s /.
Arguments upd {_ _} !x s /.
Arguments bf {_ _} !x s /.

Ltac mrun := repeat (progress (cbn; heap_lookup)).

Section Basics.

Context {Key T : Type}.
Implicit Types (m : gmap addr (Node Key T)) (t l r : tree Key T).

Lemma max2_max a b : max2 a b = Z.max a b.
Proof. unfold max2. destruct (Z.gtb_spec a b); lia. Qed.

Lemma hgt_ht t : hok t → hgt t = ht t.
Proof. destruct t; simpl; [done | tauto]. Qed.

Lemma ht_nonneg t : 0 ≤ ht t.
Proof. induction t; simpl; lia. Qed.

Lemma uniq_Nd a l kv hc r :
  uniq (Nd a l kv hc r) ↔
  uniq l ∧ uniq r ∧ (a ∉ nodes l) ∧ (a ∉ nodes r) ∧ (∀ x, x ∈ nodes l → x ∉ nodes r).
Proof.
  unfold uniq. simpl. rewrite NoDup_app, NoDup_cons. set_solver.
Qed.

(** A store that agrees with [m] on the nodes of [t] holds [t] as well. *)
Lemma rep_frame m m' par t :
  rep m par t → (∀ a, a ∈ nodes t → m' !! a = m !! a) → rep m' par t.
Proof.
  revert par. induction t as [|a l IHl kv hc r IHr]; simpl; [done|].
  intros par (Ha & Hl & Hr) Hm. split_and!.
  - rewrite Hm by set_solver. done.
  - apply IHl; [done|]. intros; apply Hm; set_solver.
  - apply IHr; [done|]. intros; apply Hm; set_solver.
Qed.

Lemma rep_ptr_lookup m par t a :
  rep m par t → ptr t = Some a →
  ∃ l kv hc r, t = Nd a l kv hc r ∧ m !! a = Some (mkNode kv (ptr l) (ptr r) par hc).
Proof.
  destruct t; simpl; [done|]. intros (H & _) [= ->]. eauto 10.
Qed.

(** Re-pointing the parent link of the root of a subtree. *)
Lemma rep_set_parent m par par' a l kv hc r :
  rep m par (Nd a l kv hc r) → uniq (Nd a l kv hc r) →
  rep (<[a := mkNode kv (ptr l) (ptr r) par' hc]> m) par' (Nd a l kv hc r).
Proof.
  intros (Ha & Hl & Hr) (Ul & Ur & Hal & Har & Hlr)%uniq_Nd. simpl. split_and!.
  - by rewrite lookup_insert_eq.
  - eapply rep_frame; [done|]. intros b Hb. rewrite lookup_insert_ne; [done|set_solver].
  - eapply rep_frame; [done|]. intros b Hb. rewrite lookup_insert_ne; [done|set_solver].
Qed.

End Basics.

Ltac solve_frame :=
  let a := fresh "a" in let Ha := fresh "Ha" in
  intros a Ha; autorewrite with uniq_db in Ha; destruct_and?;
  repeat (rewrite lookup_insert_ne by ne_solve); try done.

Ltac solve_rep_atom :=
  first
    [ done
    | heap_lookup; done
    | eapply rep_frame; [eassumption|];
      let a := fresh "a" in let Ha := fresh "Ha" in
      intros a Ha; repeat (rewrite lookup_insert_ne by ne_solve); done ].

Ltac solve_rep :=
  cbn [rep t_upd ptr hgt t_rotateRight t_rotateLeft]; split_and?; solve_rep_atom.

Section Rotations.

Context {Key T : Type}.
Implicit Types (m : gmap addr (Node Key T)) (t l r A B C : tree Key T).

(** ** The rotations and [rebalance] carry out their tree counterparts *)

Lemma rotateRight_sim m par rt c y x A kx hx B ky hy C :
  let t := Nd y (Nd x A kx hx B) ky hy C in
  rep m par t → uniq t →
  ∃ m' par',
    rotateRight (Some y) (mkState m rt c) = Ok (Some x) (mkState m' rt c)
    ∧ rep m' par' (t_rotateRight t) ∧ frame (nodes t) m m'.
Proof.
  intros t Hrep Hu. subst t. unfold rotateRight.
  destruct A as [|a Al ka ha Ar], B as [|b Bl kb hb Br], C as [|c' Cl kc hc Cr];
    simpl in Hrep; destruct_and?; uniq_norm.
  all: mrun.
  all: (eexists _, _; split; [reflexivity|]; split; [solve_rep | solve_frame]).
Qed.

Lemma rotateLeft_sim m par rt c y x A kx hx B ky hy C :
  let t := Nd x A kx hx (Nd y B ky hy C) in
  rep m par t → uniq t →
  ∃ m' par',
    rotateLeft (Some x) (mkState m rt c) = Ok (Some y) (mkState m' rt c)
    ∧ rep m' par' (t_rotateLeft t) ∧ frame (nodes t) m m'.
Proof.
  intros t Hrep Hu. subst t. unfold rotateLeft.
  destruct A as [|a Al ka ha Ar], B as [|b Bl kb hb Br], C as [|c' Cl kc hc Cr];
    simpl in Hrep; destruct_and?; uniq_norm.
  all: mrun.
  all: (eexists _, _; split; [reflexivity|]; split; [solve_rep | solve_frame]).
Qed.

End Rotations.

Lemma disj_notin (l k : list addr) z : disj l k → z ∈ l → z ∉ k.
Proof. unfold disj. auto. Qed.
Lemma disj_notin' (l k : list addr) z : disj l k → z ∈ k → z ∉ l.
Proof. unfold disj. intros H Hk Hl. by apply (H z). Qed.

Lemma disj_sym (l k : list addr) : disj l k → disj k l.
Proof. unfold disj. intros H x Hk Hl. by apply (H x). Qed.

Ltac notin_solve :=
  autorewrite with uniq_db; split_and?;
  first [ done | ne_solve
        | eapply disj_notin; [ | eassumption ]; first [ assumption | apply disj_sym; assumption ]
        | eapply disj_notin'; [ | eassumption ]; first [ assumption | apply disj_sym; assumption ] ].

(** Lookups in a store reached by writes and by framed calls. *)
Ltac heap_step :=
  match goal with
  | |- context [ (<[?a := _]> _) !! ?a ] => rewrite lookup_insert_eq
  | |- context [ (<[?a := _]> _) !! ?b ] =>
      rewrite (lookup_insert_ne _ a b) by ne_solve
  | H : ?m !! ?a = Some _ |- context [ ?m !! ?a ] => rewrite H
  | H : frame ?S ?m1 ?m2 |- context [ ?m2 !! ?z ] => rewrite (H z) by notin_solve
  end.

Ltac mrun2 := repeat (progress (cbn; repeat heap_step)).

Ltac solve_rep2 :=
  repeat match goal with
    | |- rep _ _ (Nd _ _ _ _ _) => cbn [rep ptr]; split_and?
    | |- rep _ _ Leaf => exact I
    | |- True => exact I
    | |- _ ∧ _ => split
    | |- _ !! _ = Some _ => repeat heap_step; done
    | H : rep ?m0 _ ?t |- rep _ _ ?t =>
        eapply rep_frame; [exact H|];
        let z := fresh "z" in let Hz := fresh "Hz" in
        intros z Hz; repeat heap_step; done
    end.

Arguments t_rotateRight : simpl never.
Arguments t_rotateLeft : simpl never.
Arguments t_upd : simpl never.

Ltac decide_if :=
  match goal with
  | |- context [if ?b then _ else _] =>
      lazymatch b with
      | Z.gtb _ _ =>
          first
            [ replace b with true by (symmetry; apply Z.gtb_lt; simpl in *; lia)
            | replace b with false
                by (symmetry; rewrite Z.gtb_ltb; apply Z.ltb_ge; simpl in *; lia) ]
      | Z.ltb _ _ =>
          first
            [ replace b with true by (symmetry; apply Z.ltb_lt; simpl in *; lia)
            | replace b with false by (symmetry; apply Z.ltb_ge; simpl in *; lia) ]
      end
  end.

Ltac mrun3 := repeat (progress (cbn; repeat heap_step; repeat decide_if)).

Ltac solve_uniq :=
  unfold uniq; cbn [nodes]; autorewrite with uniq_db; split_and?;
  first [ done | ne_solve | apply disj_sym; done ].

Ltac solve_frame2 :=
  let z := fresh "z" in let Hz := fresh "Hz" in
  intros z Hz; cbn [nodes] in Hz; autorewrite with uniq_db in Hz; destruct_and?;
  repeat heap_step; done.

Ltac finish_sim :=
  eexists _, _; split; [reflexivity|]; split; [solve_rep2 | solve_frame2].

Section Rebalance.

Context {Key T : Type}.
Implicit Types (m : gmap addr (Node Key T)) (t l r A B C : tree Key T).

Lemma ptr_in_nodes t a : ptr t = Some a → a ∈ nodes t.
Proof. destruct t; simpl; [done|]. intros [= ->]. set_solver. Qed.

Lemma hok_hgt_nonneg t : hok t → 0 ≤ hgt t.
Proof. intros H. rewrite hgt_ht by done. apply ht_nonneg. Qed.

Ltac use_rotL par :=
  match goal with
  | |- context [rotateLeft (Some ?x) (mkState ?m1 ?rt ?c)] =>
    match goal with
    | |- context [t_rotateLeft (Nd x ?A ?kx ?hx (Nd ?y ?B ?ky ?hy ?C))] =>
      let m2 := fresh "m" in
      let par2 := fresh "par" in
      let Hrun := fresh "Hrun" in
      let Hrep := fresh "Hrep" in
      let Hfr := fresh "Hfr" in
      destruct (rotateLeft_sim m1 par rt c y x A kx hx B ky hy C)
        as (m2 & par2 & Hrun & Hrep & Hfr);
      [ solve_rep2 | solve_uniq
      | rewrite Hrun; unfold t_rotateLeft, t_upd in Hrep |- *;
        cbn [rep nodes ptr hgt] in Hrep, Hfr; destruct_and? ]
    end
  end.

Ltac use_rotR par :=
  match goal with
  | |- context [rotateRight (Some ?y) (mkState ?m1 ?rt ?c)] =>
    match goal with
    | |- context [t_rotateRight (Nd y (Nd ?x ?A ?kx ?hx ?B) ?ky ?hy ?C)] =>
      let m2 := fresh "m" in
      let par2 := fresh "par" in
      let Hrun := fresh "Hrun" in
      let Hrep := fresh "Hrep" in
      let Hfr := fresh "Hfr" in
      destruct (rotateRight_sim m1 par rt c y x A kx hx B ky hy C)
        as (m2 & par2 & Hrun & Hrep & Hfr);
      [ solve_rep2 | solve_uniq
      | rewrite Hrun; unfold t_rotateRight, t_upd in Hrep |- *;
        cbn [rep nodes ptr hgt] in Hrep, Hfr; destruct_and? ]
    end
  end.

Lemma rebalance_sim m par rt c a l kv hc r :
  let t := Nd a l kv hc r in
  rep m par t → uniq t → hok l → hok r →
  ∃ m' par',
    rebalance (Some a) (mkState m rt c) = Ok (ptr (t_rebalance t)) (mkState m' rt c)
    ∧ rep m' par' (t_rebalance t) ∧ frame (nodes t) m m'.
Proof.
  intros t Hrep Hu Hl Hr. subst t. unfold rebalance, t_rebalance, t_upd.
  pose proof (hok_hgt_nonneg _ Hl) as Hl0. pose proof (hok_hgt_nonneg _ Hr) as Hr0.
  cbn [hgt].
  destruct (Z.gtb_spec (hgt l - hgt r) 1) as [E1|E1].
  - (* left heavy *)
    destruct l as [|x A kx hx B]; [simpl in *; lia|].
    simpl in Hl. destruct Hl as (Hhx & HA & HB).
    pose proof (hok_hgt_nonneg _ HA) as HA0. pose proof (hok_hgt_nonneg _ HB) as HB0.
    unfold t_bf.
    destruct (Z.ltb_spec (hgt A - hgt B) 0) as [E2|E2].
    + destruct B as [|z B1 kz hz B2]; [simpl in *; lia|].
      destruct r as [|y C ky hy D], A as [|a1 A1 ka1 ha1 A2];
        cbn [rep ptr] in Hrep; destruct_and?; uniq_norm; mrun2.
      all: mrun3.
      all: use_rotL (Some a); mrun2.
      all: use_rotR par; mrun2; finish_sim.
    + destruct r as [|y C ky hy D], A as [|a1 A1 ka1 ha1 A2], B as [|z B1 kz hz B2];
        cbn [rep ptr] in Hrep; destruct_and?; uniq_norm; mrun2.
      all: try (exfalso; simpl in *; lia).
      all: mrun3.
      all: use_rotR par; mrun2; finish_sim.
  - destruct (Z.ltb_spec (hgt l - hgt r) (-1)) as [E3|E3].
    + (* right heavy *)
      destruct r as [|y C ky hy D]; [simpl in *; lia|].
      simpl in Hr. destruct Hr as (Hhy & HC & HD).
      pose proof (hok_hgt_nonneg _ HC) as HC0. pose proof (hok_hgt_nonneg _ HD) as HD0.
      unfold t_bf.
      destruct (Z.gtb_spec (hgt C - hgt D) 0) as [E4|E4].
      * destruct C as [|z C1 kz hz C2]; [simpl in *; lia|].
        destruct l as [|x A kx hx B], D as [|d1 D1 kd1 hd1 D2];
          cbn [rep ptr] in Hrep; destruct_and?; uniq_norm; mrun2.
        all: try (exfalso; simpl in *; lia).
        all: mrun3.
        all: use_rotR (Some a); mrun2.
        all: use_rotL par; mrun2; finish_sim.
      * destruct l as [|x A kx hx B], C as [|z C1 kz hz C2], D as [|d1 D1 kd1 hd1 D2];
          cbn [rep ptr] in Hrep; destruct_and?; uniq_norm; mrun2.
        all: try (exfalso; simpl in *; lia).
        all: mrun3.
        all: use_rotL par; mrun2; finish_sim.
    + destruct l as [|x A kx hx B], r as [|y C ky hy D];
        cbn [rep ptr] in Hrep; destruct_and?; uniq_norm; mrun3; finish_sim.
Qed.

End Rebalance.

(** ** What rebalancing does to the listings and to the height invariants *)

Ltac hok_facts :=
  repeat match goal with
    | H : hok (Nd _ _ _ _ _) |- _ => cbn [hok] in H
    | H : balanced (Nd _ _ _ _ _) |- _ => cbn [balanced] in H
    end;
  destruct_and?;
  repeat match goal with
    | H : hok ?t |- _ =>
        is_var t;
        lazymatch goal with
        | _ : hgt t = ht t |- _ => fail
        | _ => pose proof (hgt_ht t H); pose proof (ht_nonneg t)
        end
    end.

Ltac destruct_if :=
  match goal with
  | |- context [if ?b then _ else _] =>
      lazymatch b with
      | Z.gtb ?x ?y => destruct (Z.gtb_spec x y)
      | Z.ltb ?x ?y => destruct (Z.ltb_spec x y)
      end
  end.

Section RebalancePure.

Context {Key T : Type}.
Implicit Types (t l r : tree Key T).

Lemma cells_t_upd t : cells (t_upd t) = cells t.
Proof. by destruct t. Qed.

Lemma cells_t_rotateRight t : cells (t_rotateRight t) = cells t.
Proof.
  destruct t as [|y [|x A kx hx B] ky hy C]; try done.
  unfold t_rotateRight, t_upd. simpl. by rewrite <- !app_assoc.
Qed.

Lemma cells_t_rotateLeft t : cells (t_rotateLeft t) = cells t.
Proof.
  destruct t as [|x A kx hx [|y B ky hy C]]; try done.
  unfold t_rotateLeft, t_upd. simpl. by rewrite <- !app_assoc.
Qed.

Lemma cells_t_rebalance t : cells (t_rebalance t) = cells t.
Proof.
  destruct t as [|a l kv hc r]; [done|].
  unfold t_rebalance, t_upd.
  repeat case_match; rewrite ?cells_t_rotateRight, ?cells_t_rotateLeft; simpl;
    rewrite ?cells_t_rotateRight, ?cells_t_rotateLeft; done.
Qed.

Lemma nodes_cells t : nodes t = fst <$> cells t.
Proof.
  induction t as [|a l IHl kv hc r IHr]; [done|].
  simpl. rewrite fmap_app. simpl. by rewrite IHl, IHr.
Qed.

Lemma elems_cells t : elems t = snd <$> cells t.
Proof.
  induction t as [|a l IHl kv hc r IHr]; [done|].
  simpl. rewrite fmap_app. simpl. by rewrite IHl, IHr.
Qed.

Lemma nodes_t_rebalance t : nodes (t_rebalance t) = nodes t.
Proof. by rewrite !nodes_cells, cells_t_rebalance. Qed.

Lemma elems_t_rebalance t : elems (t_rebalance t) = elems t.
Proof. by rewrite !elems_cells, cells_t_rebalance. Qed.

Lemma hok_t_rebalance a l kv hc r :
  hok l → hok r → hok (t_rebalance (Nd a l kv hc r)).
Proof.
  intros Hl Hr. unfold t_rebalance, t_upd, t_bf. cbn [hgt].
  destruct_if.
  - destruct l as [|x A kx hx B]; [hok_facts; simpl in *; lia|].
    destruct_if.
    + destruct B as [|z B1 kz hz B2]; [hok_facts; simpl in *; lia|].
      hok_facts. unfold t_rotateRight, t_rotateLeft, t_upd. simpl.
      rewrite !max2_max. split_and?; try done; lia.
    + hok_facts. unfold t_rotateRight, t_upd. simpl.
      rewrite !max2_max. split_and?; try done; lia.
  - destruct_if.
    + destruct r as [|y C ky hy D]; [hok_facts; simpl in *; lia|].
      destruct_if.
      * destruct C as [|z C1 kz hz C2]; [hok_facts; simpl in *; lia|].
        hok_facts. unfold t_rotateRight, t_rotateLeft, t_upd. simpl.
        rewrite !max2_max. split_and?; try done; lia.
      * hok_facts. unfold t_rotateLeft, t_upd. simpl.
        rewrite !max2_max. split_and?; try done; lia.
    + hok_facts. simpl. rewrite !max2_max. split_and?; try done; lia.
Qed.

(** With subtrees that are balanced and whose heights differ by at most two,
    rebalancing yields a balanced tree, as high as the taller subtree or one
    higher; with subtrees that differ by at most one it changes nothing but
    the cached height. *)
Lemma balanced_t_rebalance a l kv hc r :
  hok l → hok r → balanced l → balanced r → -2 ≤ ht l - ht r ≤ 2 →
  let t' := t_rebalance (Nd a l kv hc r) in
  balanced t'
  ∧ Z.max (ht l) (ht r) ≤ ht t' ≤ 1 + Z.max (ht l) (ht r)
  ∧ (-1 ≤ ht l - ht r ≤ 1 → ht t' = 1 + Z.max (ht l) (ht r)).
Proof.
  intros Hl Hr Bl Br Hd. unfold t_rebalance, t_upd, t_bf. cbn [hgt].
  destruct_if.
  - destruct l as [|x A kx hx B]; [hok_facts; simpl in *; lia|].
    destruct_if.
    + destruct B as [|z B1 kz hz B2]; [hok_facts; simpl in *; lia|].
      hok_facts. unfold t_rotateRight, t_rotateLeft, t_upd. simpl in *.
      split_and?; try done; lia.
    + hok_facts. unfold t_rotateRight, t_upd. simpl in *.
      split_and?; try done; lia.
  - destruct_if.
    + destruct r as [|y C ky hy D]; [hok_facts; simpl in *; lia|].
      destruct_if.
      * destruct C as [|z C1 kz hz C2]; [hok_facts; simpl in *; lia|].
        hok_facts. unfold t_rotateRight, t_rotateLeft, t_upd. simpl in *.
        split_and?; try done; lia.
      * hok_facts. unfold t_rotateLeft, t_upd. simpl in *.
        split_and?; try done; lia.
    + hok_facts. simpl in *. split_and?; try done; lia.
Qed.

(** On a tree that satisfies both height invariants rebalancing is the
    identity. *)
Lemma t_rebalance_id t : hok t → balanced t → t_rebalance t = t.
Proof.
  destruct t as [|a l kv hc r]; [done|]. intros Hh Hb.
  unfold t_rebalance, t_upd. cbn [hgt]. hok_facts. rewrite max2_max.
  repeat destruct_if; try lia. f_equal. lia.
Qed.

End RebalancePure.

(** ** Order: searching and inserting on trees *)

Section OrderPure.

Context {Key T : Type} `{!Compare Key} `{!CompOrder Key}.
Implicit Types (t l r : tree Key T) (c : addr * (Key * T)) (k : Key).

Lemma comp_asym (x y : Key) : comp x y = true → comp y x = false.
Proof.
  intros H. destruct (comp y x) eqn:E; [|done].
  rewrite <- (comp_irrefl x). symmetry. by eapply comp_trans.
Qed.

Lemma equiv_key_refl k : equiv_key k k.
Proof. split; apply comp_irrefl. Qed.

Lemma ordered_cells t :
  ordered t ↔ StronglySorted (λ c d, lt (ckey c) (ckey d)) (cells t).
Proof.
  unfold ordered, keys. rewrite elems_cells. rewrite <- list_fmap_compose.
  induction (cells t) as [|c cs IH]; simpl.
  - split; constructor.
  - rewrite !StronglySorted_cons, IH, Forall_fmap. done.
Qed.

Lemma ordered_Nd a l kv hc r :
  ordered (Nd a l kv hc r) ↔
  ordered l ∧ ordered r
  ∧ Forall (λ c, lt (ckey c) (fst kv)) (cells l)
  ∧ Forall (λ c, lt (fst kv) (ckey c)) (cells r).
Proof.
  rewrite !ordered_cells. simpl.
  rewrite StronglySorted_app, StronglySorted_cons, !Forall_forall.
  split.
  - intros (H1 & H2 & H3 & H4). split_and!; try done.
    intros c Hc. apply (H1 c (a, kv)); [done|set_solver].
  - intros (H1 & H2 & H3 & H4). split_and!; try done.
    intros c d Hc [->|Hd]%elem_of_cons; [by apply H3|].
    eapply comp_trans; [by apply H3|]. by apply (H4 d).
Qed.

Lemma in_cells_nodes t a kv : (a, kv) ∈ cells t → a ∈ nodes t.
Proof. rewrite nodes_cells. intros H. apply list_elem_of_fmap. by exists (a, kv). Qed.

(** [t_find] returns a cell whose key is equivalent to the key sought, and
    none only if there is none. *)
Lemma t_find_Some k t a :
  t_find k t = Some a → ∃ kv, (a, kv) ∈ cells t ∧ equiv_key k (fst kv).
Proof.
  induction t as [|b l IHl kv hc r IHr]; simpl; [done|].
  destruct (comp k (fst kv)) eqn:E1; [|destruct (comp (fst kv) k) eqn:E2].
  - intros (kv' & ? & ?)%IHl. exists kv'. set_solver.
  - intros (kv' & ? & ?)%IHr. exists kv'. set_solver.
  - intros [= ->]. exists kv. split; [set_solver|done].
Qed.

Lemma t_find_None k t :
  ordered t → t_find k t = None → ∀ c, c ∈ cells t → ¬ equiv_key k (ckey c).
Proof.
  induction t as [|b l IHl kv hc r IHr]; simpl; [set_solver|].
  intros (Ol & Or & Hl & Hr)%ordered_Nd.
  rewrite Forall_forall in Hl, Hr.
  destruct (comp k (fst kv)) eqn:E1; [|destruct (comp (fst kv) k) eqn:E2]; [| |done].
  - intros Hf c [Hc|[->|Hc]%elem_of_cons]%elem_of_app [Q1 Q2].
    + by eapply IHl.
    + unfold ckey in *; simpl in *. congruence.
    + specialize (Hr c Hc). unfold lt in Hr.
      rewrite (comp_trans _ _ _ E1 Hr) in Q1. done.
  - intros Hf c [Hc|[->|Hc]%elem_of_cons]%elem_of_app [Q1 Q2].
    + specialize (Hl c Hc). unfold lt in Hl.
      rewrite (comp_trans _ _ _ Hl E2) in Q2. done.
    + unfold ckey in *; simpl in *. congruence.
    + by eapply IHr.
Qed.

(** Searching for the key of a cell finds that very cell. *)
Lemma t_find_cell t a kv :
  ordered t → uniq t → (a, kv) ∈ cells t → t_find (fst kv) t = Some a.
Proof.
  induction t as [|b l IHl kv' hc r IHr]; simpl; [set_solver|].
  intros (Ol & Or & Hl & Hr)%ordered_Nd (Ul & Ur & Hbl & Hbr & Hlr)%uniq_Nd.
  rewrite Forall_forall in Hl, Hr.
  intros [Hc|[Hc|Hc]%elem_of_cons]%elem_of_app.
  - pose proof (Hl _ Hc) as Hlt. unfold lt, ckey in Hlt. simpl in Hlt.
    rewrite Hlt. by apply IHl.
  - injection Hc as -> ->. by rewrite comp_irrefl.
  - pose proof (Hr _ Hc) as Hlt. unfold lt, ckey in Hlt. simpl in Hlt.
    rewrite (comp_asym _ _ Hlt), Hlt. by apply IHr.
Qed.

(** [t_insert] follows the descent of [t_find]. *)
Lemma t_insert_find na val t :
  match t_find (fst val) t with
  | Some a => ∃ t', t_insert na val t = (t', false, Some a)
  | None => ∃ t', t_insert na val t = (t', true, Some na)
  end.
Proof.
  induction t as [|b l IHl kv hc r IHr]; simpl; [eauto|].
  destruct (comp (fst val) (fst kv)) eqn:E1; [|destruct (comp (fst kv) (fst val)) eqn:E2].
  - destruct (t_find (fst val) l); destruct IHl as (l' & ->); eauto.
  - destruct (t_find (fst val) r); destruct IHr as (r' & ->); eauto.
  - eauto.
Qed.

(** Where a new cell goes: between the cells with smaller keys and the
    cells with greater keys. *)
Lemma t_insert_cells na val t t' p :
  ordered t → t_insert na val t = (t', true, p) →
  ∃ pre post,
    cells t = pre ++ post ∧ cells t' = pre ++ (na, val) :: post
    ∧ Forall (λ c, lt (ckey c) (fst val)) pre
    ∧ Forall (λ c, lt (fst val) (ckey c)) post.
Proof.
  revert t' p. induction t as [|b l IHl kv hc r IHr]; simpl; intros t' p.
  - intros _ [= <- _]. exists [], []. split_and!; try done; constructor.
  - intros (Ol & Or & Hl & Hr)%ordered_Nd.
    destruct (comp (fst val) (fst kv)) eqn:E1; [|destruct (comp (fst kv) (fst val)) eqn:E2];
      [| |done].
    + destruct (t_insert na val l) as [[l' b'] p'] eqn:El. intros [= <- -> <-].
      destruct (IHl _ _ Ol eq_refl) as (pre & post & H1 & H2 & H3 & H4).
      exists pre, (post ++ (b, kv) :: cells r).
      rewrite cells_t_rebalance. simpl. rewrite H1, H2, <- !app_assoc. split_and!; try done.
      rewrite Forall_app, Forall_cons. split_and!; try done.
      eapply Forall_impl; [exact Hr|]. intros c Hc. eapply comp_trans; [exact E1|exact Hc].
    + destruct (t_insert na val r) as [[r' b'] p'] eqn:Er. intros [= <- -> <-].
      destruct (IHr _ _ Or eq_refl) as (pre & post & H1 & H2 & H3 & H4).
      exists (cells l ++ (b, kv) :: pre), post.
      rewrite cells_t_rebalance. simpl. rewrite H1, H2, <- !app_assoc. split_and!; try done.
      rewrite Forall_app, Forall_cons. split_and!; try done.
      eapply Forall_impl; [exact Hl|]. intros c Hc. eapply comp_trans; [exact Hc|exact E2].
Qed.

Lemma t_insert_cells_found na val t t' p :
  t_insert na val t = (t', false, p) → cells t' = cells t.
Proof.
  revert t' p. induction t as [|b l IHl kv hc r IHr]; simpl; intros t' p; [done|].
  destruct (comp (fst val) (fst kv)) eqn:E1; [|destruct (comp (fst kv) (fst val)) eqn:E2].
  - destruct (t_insert na val l) as [[l' b'] p'] eqn:El. intros [= <- -> <-].
    rewrite cells_t_rebalance. simpl. by rewrite (IHl _ _ eq_refl).
  - destruct (t_insert na val r) as [[r' b'] p'] eqn:Er. intros [= <- -> <-].
    rewrite cells_t_rebalance. simpl. by rewrite (IHr _ _ eq_refl).
  - by intros [= <- _].
Qed.

Lemma ordered_insert_cells (pre post : list (addr * (Key * T))) c :
  StronglySorted (λ c d, lt (ckey c) (ckey d)) (pre ++ post) →
  Forall (λ d, lt (ckey d) (ckey c)) pre →
  Forall (λ d, lt (ckey c) (ckey d)) post →
  StronglySorted (λ c d, lt (ckey c) (ckey d)) (pre ++ c :: post).
Proof.
  rewrite !StronglySorted_app, StronglySorted_cons, !Forall_forall.
  intros (H1 & H2 & H3) Hpre Hpost. split_and!; try done.
  intros x y Hx [->|Hy]%elem_of_cons; [by apply Hpre|by apply H1].
Qed.

Lemma t_insert_ordered na val t :
  ordered t → ordered (t_insert na val t).1.1.
Proof.
  intros Ho. destruct (t_insert na val t) as [[t' [|]] p] eqn:E; simpl.
  - destruct (t_insert_cells _ _ _ _ _ Ho E) as (pre & post & H1 & H2 & H3 & H4).
    apply ordered_cells. rewrite H2. apply ordered_insert_cells; try done.
    rewrite <- H1. by apply ordered_cells.
  - apply ordered_cells. rewrite (t_insert_cells_found _ _ _ _ _ E). by apply ordered_cells.
Qed.

End OrderPure.

(** ** Heights: inserting keeps both height invariants *)

Section InsertHeights.

Context {Key T : Type} `{!Compare Key}.
Implicit Types (t l r : tree Key T).

Lemma t_insert_hok na val t : hok t → hok (t_insert na val t).1.1.
Proof.
  induction t as [|b l IHl kv hc r IHr]; simpl.
  - intros _. split_and!; done.
  - intros (Hc & Hl & Hr). repeat case_match; simpl in *; subst.
    + apply hok_t_rebalance; [|done]. by apply IHl.
    + apply hok_t_rebalance; [done|]. by apply IHr.
    + done.
Qed.

Lemma t_insert_avl na val t :
  hok t → balanced t →
  let t' := (t_insert na val t).1.1 in
  hok t' ∧ balanced t' ∧ ht t ≤ ht t' ≤ ht t + 1.
Proof.
  induction t as [|b l IHl kv hc r IHr]; simpl.
  - intros _ _. split_and!; try done; lia.
  - intros (Hc & Hl & Hr) (Hd & Bl & Br).
    destruct (comp (fst val) (fst kv)); [|destruct (comp (fst kv) (fst val))].
    + destruct (IHl Hl Bl) as (Hl' & Bl' & Hh).
      destruct (t_insert na val l) as [[l' b'] p']. simpl in *.
      destruct (balanced_t_rebalance b l' kv hc r) as (B & H1 & H2); try done; [lia|].
      split_and!; [by apply hok_t_rebalance|done| |].
      * destruct (decide (ht l' - ht r ≤ 1)); [rewrite H2; lia|lia].
      * lia.
    + destruct (IHr Hr Br) as (Hr' & Br' & Hh).
      destruct (t_insert na val r) as [[r' b'] p']. simpl in *.
      destruct (balanced_t_rebalance b l kv hc r') as (B & H1 & H2); try done; [lia|].
      split_and!; [by apply hok_t_rebalance|done| |].
      * destruct (decide (-1 ≤ ht l - ht r')); [rewrite H2; lia|lia].
      * lia.
    + simpl. split_and!; try done; lia.
Qed.

(** Inserting a key that is there leaves the tree as it is. *)
Lemma t_insert_found_id na val t a :
  hok t → balanced t → t_find (fst val) t = Some a →
  t_insert na val t = (t, false, Some a).
Proof.
  induction t as [|b l IHl kv hc r IHr]; simpl; [done|].
  intros (Hc & Hl & Hr) (Hd & Bl & Br).
  destruct (comp (fst val) (fst kv)); [|destruct (comp (fst kv) (fst val))].
  - intros Hf. rewrite (IHl Hl Bl Hf). by rewrite t_rebalance_id.
  - intros Hf. rewrite (IHr Hr Br Hf). by rewrite t_rebalance_id.
  - by intros [= ->].
Qed.

End InsertHeights.

(** ** The read-only walks *)

Section Walks.

Context {Key T : Type} `{!Compare Key}.
Implicit Types (m : gmap addr (Node Key T)) (t l r : tree Key T).

Lemma rep_dom m par t a : rep m par t → a ∈ nodes t → is_Some (m !! a).
Proof.
  revert par. induction t as [|b l IHl kv hc r IHr]; simpl; [set_solver|].
  intros par (Hb & Hl & Hr) [H|[->|H]%elem_of_cons]%elem_of_app; eauto.
Qed.

Lemma rep_cell m par t a kv :
  rep m par t → (a, kv) ∈ cells t → ∃ nd, m !! a = Some nd ∧ value nd = kv.
Proof.
  revert par. induction t as [|b l IHl kv' hc r IHr]; simpl; [set_solver|].
  intros par (Hb & Hl & Hr) [H|[H|H]%elem_of_cons]%elem_of_app; eauto.
  injection H as -> ->. eauto.
Qed.

Lemma findNode_loop_sim k fuel t m par rt c :
  rep m par t → (depth t < fuel)%nat →
  findNode_loop fuel k (ptr t) (mkState m rt c) = Ok (t_find k t) (mkState m rt c).
Proof.
  revert fuel par. induction t as [|b l IHl kv hc r IHr]; intros [|fuel] par; simpl;
    try lia; [done|].
  intros (Hb & Hl & Hr) Hf. rewrite Hb. simpl.
  destruct (comp k (fst kv)); [|destruct (comp (fst kv) k)]; mrun.
  - eapply IHl; [done|lia].
  - eapply IHr; [done|lia].
  - done.
Qed.

Lemma t_min_Nd a l kv hc r : ∃ c, t_min (Nd a l kv hc r) = Some c.
Proof.
  revert a kv hc r. induction l as [|b ll IH kv' hc' lr _]; intros; [simpl; eauto|].
  change (∃ c, t_min (Nd b ll kv' hc' lr) = Some c). apply IH.
Qed.

Lemma t_max_Nd a l kv hc r : ∃ c, t_max (Nd a l kv hc r) = Some c.
Proof.
  revert a kv hc l. induction r as [|b rl _ kv' hc' rr IH]; intros.
  - simpl. destruct l; eauto.
  - change (∃ c, t_max (Nd b rl kv' hc' rr) = Some c). apply IH.
Qed.

Lemma minNode_loop_sim fuel a l kv hc r m par rt c :
  rep m par (Nd a l kv hc r) → (depth (Nd a l kv hc r) ≤ fuel)%nat →
  minNode_loop fuel (Some a) (mkState m rt c)
  = Ok (fst <$> t_min (Nd a l kv hc r)) (mkState m rt c).
Proof.
  revert fuel a kv hc r par. induction l as [|b ll IH kv' hc' lr _];
    intros [|fuel] a kv hc r par; simpl; try lia.
  - intros (Ha & _) _. by rewrite Ha.
  - intros (Ha & Hl & _) Hf. rewrite Ha. simpl.
    eapply (IH fuel b kv' hc' lr); [done|simpl; lia].
Qed.

Lemma maxNode_loop_sim fuel a l kv hc r m par rt c :
  rep m par (Nd a l kv hc r) → (depth (Nd a l kv hc r) ≤ fuel)%nat →
  maxNode_loop fuel (Some a) (mkState m rt c)
  = Ok (fst <$> t_max (Nd a l kv hc r)) (mkState m rt c).
Proof.
  revert fuel a kv hc l par. induction r as [|b rl _ kv' hc' rr IH];
    intros [|fuel] a kv hc l par; simpl; try lia.
  - intros (Ha & _) _. rewrite Ha. by destruct l.
  - intros (Ha & _ & Hr) Hf. rewrite Ha. simpl.
    replace (match l with Leaf | _ => t_max (Nd b rl kv' hc' rr) end)
      with (t_max (Nd b rl kv' hc' rr)) by (by destruct l).
    eapply (IH fuel b kv' hc' rl); [done|simpl; lia].
Qed.

(** The leftmost cell heads the in-order listing, the rightmost ends it. *)
Lemma t_min_cells t c : t_min t = Some c → ∃ rest, cells t = c :: rest.
Proof.
  induction t as [|a l IHl kv hc r _]; simpl; [done|].
  destruct l as [|b ll kv' hc' lr].
  - intros [= <-]. eauto.
  - intros (rest & ->)%IHl. simpl. eauto.
Qed.

Lemma t_max_cells t c : t_max t = Some c → ∃ rest, cells t = rest ++ [c].
Proof.
  induction t as [|a l _ kv hc r IHr]; simpl; [done|].
  destruct r as [|b rl kv' hc' rr].
  - intros [= <-]. eauto.
  - intros (rest & ->)%IHr. exists (cells l ++ (a, kv) :: rest).
    by rewrite <- app_assoc.
Qed.

End Walks.

(** ** Insertion *)

Section InsertSim.

Context {Key T : Type} `{!Compare Key}.
Implicit Types (m : gmap addr (Node Key T)) (t l r : tree Key T).

Lemma t_rebalance_Nd a l kv hc r :
  ∃ a' l' kv' hc' r', t_rebalance (Nd a l kv hc r) = Nd a' l' kv' hc' r'.
Proof.
  pose proof (nodes_t_rebalance (Nd a l kv hc r)) as H.
  destruct (t_rebalance (Nd a l kv hc r)); [|eauto 10].
  simpl in H. destruct (nodes l); done.
Qed.

Lemma insertNode_tail_sim m par0 par rt c a l kv hc r :
  let t := Nd a l kv hc r in
  rep m par0 t → uniq t → hok l → hok r →
  ∃ m',
    insertNode_tail (Some a) par (mkState m rt c)
    = Ok (ptr (t_rebalance t)) (mkState m' rt c)
    ∧ rep m' par (t_rebalance t) ∧ frame (nodes t) m m'.
Proof.
  intros t Hrep Hu Hl Hr. subst t. unfold insertNode_tail.
  destruct (rebalance_sim m par0 rt c a l kv hc r Hrep Hu Hl Hr)
    as (m1 & par1 & Hrun & Hrep1 & Hfr1).
  cbn [bind]. rewrite Hrun. clear Hrun.
  pose proof (nodes_t_rebalance (Nd a l kv hc r)) as Hn.
  assert (uniq (t_rebalance (Nd a l kv hc r))) as Hu1 by (unfold uniq; by rewrite Hn).
  rewrite <- Hn in *. clear Hn Hrep Hu.
  destruct (t_rebalance_Nd a l kv hc r) as (a' & l' & kv' & hc' & r' & E).
  rewrite E in *. clear E.
  destruct l' as [|x A kx hx B], r' as [|y C ky hy D];
    cbn [rep ptr] in Hrep1; destruct_and?; uniq_norm; mrun2;
    (eexists; split; [reflexivity|]; split; [solve_rep2 | solve_frame2]).
Qed.

Lemma t_insert_nodes_incl na val t t' b p :
  t_insert na val t = (t', b, p) → ∀ x, x ∈ nodes t' → x = na ∨ x ∈ nodes t.
Proof.
  revert t' b p. induction t as [|a l IHl kv hc r IHr]; simpl; intros t' b p.
  - intros [= <- _ _]. set_solver.
  - destruct (comp (fst val) (fst kv)); [|destruct (comp (fst kv) (fst val))].
    + destruct (t_insert na val l) as [[l' b'] p'] eqn:El. intros [= <- _ _] x.
      rewrite nodes_t_rebalance. simpl. specialize (IHl _ _ _ eq_refl x). set_solver.
    + destruct (t_insert na val r) as [[r' b'] p'] eqn:Er. intros [= <- _ _] x.
      rewrite nodes_t_rebalance. simpl. specialize (IHr _ _ _ eq_refl x). set_solver.
    + intros [= <- _ _]. set_solver.
Qed.

Lemma t_insert_uniq na val t t' b p :
  uniq t → na ∉ nodes t → t_insert na val t = (t', b, p) → uniq t'.
Proof.
  revert t' b p. induction t as [|a l IHl kv hc r IHr]; simpl; intros t' b p.
  - intros _ _ [= <- _ _]. unfold uniq. simpl. apply NoDup_singleton.
  - intros (Ul & Ur & Hal & Har & Hlr)%uniq_Nd Hna.
    destruct (comp (fst val) (fst kv)); [|destruct (comp (fst kv) (fst val))].
    + destruct (t_insert na val l) as [[l' b'] p'] eqn:El. intros [= <- _ _].
      unfold uniq. rewrite nodes_t_rebalance. apply uniq_Nd.
      pose proof (t_insert_nodes_incl _ _ _ _ _ _ El) as Hi.
      split_and!; try done.
      * eapply IHl; [done|set_solver|done].
      * intros [->|?]%Hi; set_solver.
      * intros x [->|?]%Hi; set_solver.
    + destruct (t_insert na val r) as [[r' b'] p'] eqn:Er. intros [= <- _ _].
      unfold uniq. rewrite nodes_t_rebalance. apply uniq_Nd.
      pose proof (t_insert_nodes_incl _ _ _ _ _ _ Er) as Hi.
      split_and!; try done.
      * eapply IHr; [done|set_solver|done].
      * intros [->|?]%Hi; set_solver.
      * intros x Hx [->|?]%Hi; set_solver.
    + intros [= <- _ _]. by apply uniq_Nd.
Qed.

Lemma fresh_not_in_nodes m par t : rep m par t → fresh (dom m) ∉ nodes t.
Proof.
  intros Hrep Hin. apply (rep_dom _ _ _ _ Hrep) in Hin.
  apply elem_of_dom in Hin. by apply is_fresh in Hin.
Qed.

Lemma insertNode_sim val t : ∀ fuel m par rt c t' b p,
  rep m par t → uniq t → hok t → (depth t < fuel)%nat →
  t_insert (fresh (dom m)) val t = (t', b, p) →
  ∃ m',
    insertNode fuel (ptr t) par val (mkState m rt c)
    = Ok (ptr t', b, p) (mkState m' rt (if b then wrap (c + 1) else c))
    ∧ rep m' par t' ∧ frame (fresh (dom m) :: nodes t) m m'.
Proof.
  induction t as [|a l IHl kv hc r IHr]; intros [|fuel] m par rt c t' b p;
    simpl; try lia.
  - intros _ _ _ _ [= <- <- <-]. eexists. split; [reflexivity|].
    split; [solve_rep2|solve_frame2].
  - intros Hrep Hu (Hc & Hl & Hr) Hf Hins.
    pose proof (fresh_not_in_nodes m par (Nd a l kv hc r) Hrep) as Hna.
    set (na := fresh (dom m)) in *.
    destruct Hrep as (Ha & Rl & Rr). rewrite Ha. cbn.
    pose proof Hu as (Ul & Ur & Hal & Har & Hlr)%uniq_Nd.
    simpl in Hna. apply notin_app in Hna as (Hnl & (Hnea & Hnr)%notin_cons).
    destruct (comp (fst val) (fst kv)); [|destruct (comp (fst kv) (fst val))].
    + destruct (t_insert na val l) as [[l' b'] p'] eqn:El.
      injection Hins as <- <- <-.
      destruct (IHl fuel m (Some a) rt c l' b' p' Rl Ul Hl) as (m1 & Hrun & Rl' & Hfr1);
        [lia|done|].
      cbn. rewrite Ha. cbn. rewrite Hrun. cbn.
      pose proof (t_insert_nodes_incl _ _ _ _ _ _ El) as Hi.
      assert (a ∉ nodes l') as Hal' by (intros [->|?]%Hi; done).
      assert (disj (nodes l') (nodes r)) as Hlr'.
      { intros x [->|?]%Hi; [done|by apply Hlr]. }
      assert (uniq l') as Ul' by (exact (t_insert_uniq na val l _ _ _ Ul Hnl El)).
      assert (hok l') as Hl'.
      { pose proof (t_insert_hok na val l Hl) as H. by rewrite El in H. }
      rewrite (Hfr1 a) by (apply notin_cons; split; [by apply not_eq_sym|done]).
      rewrite Ha. cbn.
      assert (uniq (Nd a l' kv hc r)) as Hu'.
      { apply uniq_Nd. split_and!; first [done | exact Hlr']. }
      match goal with
      | |- context [insertNode_tail (Some a) par (mkState ?m2 _ _)] =>
          assert (rep m2 par (Nd a l' kv hc r)) as Hrep2;
          [| destruct (insertNode_tail_sim m2 par par rt (if b' then wrap (c + 1) else c)
                      a l' kv hc r Hrep2 Hu' Hl' Hr) as (m3 & Hrun3 & R3 & Hfr3) ]
      end.
      { cbn [rep]. split_and!.
        - apply lookup_insert_eq.
        - eapply rep_frame; [exact Rl'|]. intros z Hz.
          rewrite lookup_insert_ne; [done|]. intros ->. done.
        - eapply rep_frame; [exact Rr|]. intros z Hz.
          rewrite lookup_insert_ne by (intros ->; done).
          apply Hfr1. apply notin_cons. split; [intros ->; done|].
          intros Hzl. by apply (Hlr z). }
      rewrite Hrun3. eexists. split; [reflexivity|]. split; [done|].
      intros z Hz. apply notin_cons in Hz as (Hz1 & Hz2). simpl in Hz2.
      apply notin_app in Hz2 as (Hzl & (Hza & Hzr)%notin_cons).
      rewrite Hfr3.
      2: { simpl. apply notin_app. split; [|by apply notin_cons].
           intros [->|?]%Hi; done. }
      rewrite lookup_insert_ne by done.
      apply Hfr1. by apply notin_cons.
    + destruct (t_insert na val r) as [[r' b'] p'] eqn:Er.
      injection Hins as <- <- <-.
      destruct (IHr fuel m (Some a) rt c r' b' p' Rr Ur Hr) as (m1 & Hrun & Rr' & Hfr1);
        [lia|done|].
      cbn. rewrite Ha. cbn. rewrite Hrun. cbn.
      pose proof (t_insert_nodes_incl _ _ _ _ _ _ Er) as Hi.
      assert (a ∉ nodes r') as Har' by (intros [->|?]%Hi; done).
      assert (disj (nodes l) (nodes r')) as Hlr'.
      { intros x Hx [->|?]%Hi; [done|by apply (Hlr x)]. }
      assert (uniq r') as Ur' by (exact (t_insert_uniq na val r _ _ _ Ur Hnr Er)).
      assert (hok r') as Hr'.
      { pose proof (t_insert_hok na val r Hr) as H. by rewrite Er in H. }
      rewrite (Hfr1 a) by (apply notin_cons; split; [by apply not_eq_sym|done]).
      rewrite Ha. cbn.
      assert (uniq (Nd a l kv hc r')) as Hu'.
      { apply uniq_Nd. split_and!; first [done | exact Hlr']. }
      match goal with
      | |- context [insertNode_tail (Some a) par (mkState ?m2 _ _)] =>
          assert (rep m2 par (Nd a l kv hc r')) as Hrep2;
          [| destruct (insertNode_tail_sim m2 par par rt (if b' then wrap (c + 1) else c)
                      a l kv hc r' Hrep2 Hu' Hl Hr') as (m3 & Hrun3 & R3 & Hfr3) ]
      end.
      { cbn [rep]. split_and!.
        - apply lookup_insert_eq.
        - eapply rep_frame; [exact Rl|]. intros z Hz.
          rewrite lookup_insert_ne by (intros ->; done).
          apply Hfr1. apply notin_cons. split; [intros ->; done|].
          by apply Hlr.
        - eapply rep_frame; [exact Rr'|]. intros z Hz.
          rewrite lookup_insert_ne; [done|]. intros ->. done. }
      rewrite Hrun3. eexists. split; [reflexivity|]. split; [done|].
      intros z Hz. apply notin_cons in Hz as (Hz1 & Hz2). simpl in Hz2.
      apply notin_app in Hz2 as (Hzl & (Hza & Hzr)%notin_cons).
      rewrite Hfr3.
      2: { simpl. apply notin_app. split; [done|]. apply notin_cons. split; [done|].
           intros [->|?]%Hi; done. }
      rewrite lookup_insert_ne by done.
      apply Hfr1. by apply notin_cons.
    + injection Hins as <- <- <-. eexists. split; [reflexivity|].
      split; [by cbn [rep]|]. by intros z Hz.
Qed.

End InsertSim.

(** ** Erasure *)

Section Frames.

Context {Key T : Type}.
Implicit Types (m : gmap addr (Node Key T)) (t l r : tree Key T) (S : list addr).

Lemma frame_refl S m : frame S m m.
Proof. by intros a _. Qed.

Lemma frame_weaken S S' m m' : frame S m m' → S ⊆ S' → frame S' m m'.
Proof. intros H Hs a Ha. apply H. set_solver. Qed.

Lemma frame_trans S m1 m2 m3 : frame S m1 m2 → frame S m2 m3 → frame S m1 m3.
Proof. intros H1 H2 a Ha. rewrite H2, H1; done. Qed.

Lemma frame_insert S m a nd : a ∈ S → frame S m (<[a := nd]> m).
Proof. intros Ha b Hb. rewrite lookup_insert_ne; [done|]. intros ->. done. Qed.

Lemma frame_delete S m a : a ∈ S → frame S m (delete a m).
Proof. intros Ha b Hb. rewrite lookup_delete_ne; [done|]. intros ->. done. Qed.

Lemma rep_frame_disj S m m' par t :
  rep m par t → frame S m m' → disj S (nodes t) → rep m' par t.
Proof.
  intros Hr Hf Hd. eapply rep_frame; [exact Hr|].
  intros a Ha. apply Hf. intros Hs. by apply (Hd a).
Qed.

(** [if (p) p->parent = q] on the root of a subtree. *)
Lemma set_parent_sim m par0 par t rt c :
  rep m par0 t → uniq t →
  ∃ m',
    when_ptr (ptr t) (set_parent (ptr t) par) (mkState m rt c) = Ok tt (mkState m' rt c)
    ∧ rep m' par t ∧ frame (nodes t) m m' ∧ dom m' = dom m.
Proof.
  destruct t as [|a l kv hc r]; intros Hrep Hu.
  - exists m. split_and!; try done.
  - pose proof Hrep as (Ha & _). cbn. rewrite Ha. cbn.
    eexists. split; [reflexivity|]. split; [|split].
    + by apply rep_set_parent with (par := par0).
    + apply frame_insert. set_solver.
    + apply dom_insert_lookup_L. eauto.
Qed.

End Frames.

Section ErasePure.

Context {Key T : Type} `{!Compare Key}.
Implicit Types (m : gmap addr (Node Key T)) (t l r : tree Key T).

Lemma t_min_in a l kv hc r c : t_min (Nd a l kv hc r) = Some c → c ∈ cells (Nd a l kv hc r).
Proof. intros (rest & ->)%t_min_cells. set_solver. Qed.

(** What erasing does to the set of addresses. *)
Lemma t_erase_nodes ta tk e t t' e' f :
  t_erase ta tk e t = (t', e', f) →
  match f with
  | Some fa => nodes t ≡ₚ fa :: nodes t'
  | None => nodes t' = nodes t
  end.
Proof.
  revert ta tk e t' e' f. induction t as [|a l IHl kv hc r IHr]; simpl; intros ta tk e t' e' f.
  - by intros [= <- _ <-].
  - destruct (decide (a = ta)) as [->|Hne].
    + destruct l as [|x A kx hx B], r as [|y C ky hy D].
      * by intros [= <- _ <-].
      * intros [= <- _ <-]. done.
      * intros [= <- _ <-]. apply (Permutation_app_comm _ [ta]).
      * destruct (t_min (Nd y C ky hy D)) as [[sa skv]|] eqn:Emin; [|by intros [= <- _ <-]].
        destruct (t_erase sa (fst skv) false (Nd y C ky hy D)) as [[r' e2] f2] eqn:Er.
        intros [= <- _ <-]. specialize (IHr _ _ _ _ _ _ Er).
        rewrite nodes_t_rebalance. destruct f2 as [fa|].
        -- cbn [nodes] in *. rewrite IHr.
           rewrite <- !Permutation_middle. by rewrite Permutation_swap.
        -- cbn [nodes] in *. by rewrite IHr.
    + destruct (comp tk (fst kv)).
      * destruct (t_erase ta tk e l) as [[l' e2] f2] eqn:El.
        intros [= <- _ <-]. specialize (IHl _ _ _ _ _ _ El).
        rewrite nodes_t_rebalance. destruct f2 as [fa|]; cbn [nodes].
        -- by rewrite IHl.
        -- by rewrite IHl.
      * destruct (t_erase ta tk e r) as [[r' e2] f2] eqn:Er.
        intros [= <- _ <-]. specialize (IHr _ _ _ _ _ _ Er).
        rewrite nodes_t_rebalance. destruct f2 as [fa|]; cbn [nodes].
        -- rewrite IHr. rewrite <- !Permutation_middle. by rewrite Permutation_swap.
        -- by rewrite IHr.
Qed.

Lemma t_erase_nodes_incl ta tk e t t' e' f :
  t_erase ta tk e t = (t', e', f) → ∀ x, x ∈ nodes t' → x ∈ nodes t.
Proof.
  intros H%t_erase_nodes x Hx. destruct f as [fa|].
  - rewrite H. set_solver.
  - by rewrite <- H.
Qed.

Lemma t_erase_uniq ta tk e t t' e' f :
  uniq t → t_erase ta tk e t = (t', e', f) →
  uniq t' ∧ ∀ fa, f = Some fa → fa ∈ nodes t ∧ fa ∉ nodes t'.
Proof.
  unfold uniq. intros Hu H%t_erase_nodes. destruct f as [fa|].
  - rewrite H in Hu. apply NoDup_cons in Hu as (? & ?). split; [done|].
    intros ? [= <-]. split; [|done]. rewrite H. set_solver.
  - rewrite H. split; [done|]. done.
Qed.

Lemma t_erase_hok ta tk e t : hok t → hok (t_erase ta tk e t).1.1.
Proof.
  revert ta tk e. induction t as [|a l IHl kv hc r IHr]; simpl; intros ta tk e; [done|].
  intros (Hc & Hl & Hr).
  destruct (decide (a = ta)) as [->|Hne].
  - destruct l as [|x A kx hx B], r as [|y C ky hy D]; try done.
    destruct (t_min (Nd y C ky hy D)) as [[sa skv]|] eqn:Emin; [|done].
    specialize (IHr sa (fst skv) false Hr).
    destruct (t_erase sa (fst skv) false (Nd y C ky hy D)) as [[r' e2] f2] eqn:Er.
    simpl. by apply hok_t_rebalance.
  - destruct (comp tk (fst kv)).
    + specialize (IHl ta tk e Hl).
      destruct (t_erase ta tk e l) as [[l' e2] f2]. simpl. by apply hok_t_rebalance.
    + specialize (IHr ta tk e Hr).
      destruct (t_erase ta tk e r) as [[r' e2] f2]. simpl. by apply hok_t_rebalance.
Qed.

End ErasePure.

Section EraseSim.

Context {Key T : Type} `{!Compare Key}.
Implicit Types (m : gmap addr (Node Key T)) (t l r : tree Key T).

Lemma eraseByNode_tail_sim m par0 rt c a l kv hc r :
  let t := Nd a l kv hc r in
  rep m par0 t → uniq t → hok l → hok r →
  ∃ m' par',
    eraseByNode_tail (Some a) (mkState m rt c)
    = Ok (ptr (t_rebalance t)) (mkState m' rt c)
    ∧ rep m' par' (t_rebalance t) ∧ frame (nodes t) m m'.
Proof.
  intros t Hrep Hu Hl Hr. subst t. unfold eraseByNode_tail.
  destruct (rebalance_sim m par0 rt c a l kv hc r Hrep Hu Hl Hr)
    as (m1 & par1 & Hrun & Hrep1 & Hfr1).
  cbn [bind]. rewrite Hrun. clear Hrun.
  pose proof (nodes_t_rebalance (Nd a l kv hc r)) as Hn.
  assert (uniq (t_rebalance (Nd a l kv hc r))) as Hu1 by (unfold uniq; by rewrite Hn).
  rewrite <- Hn in *. clear Hn Hrep Hu.
  destruct (t_rebalance_Nd a l kv hc r) as (a' & l' & kv' & hc' & r' & E).
  rewrite E in *. clear E.
  destruct l' as [|x A kx hx B], r' as [|y C ky hy D];
    cbn [rep ptr] in Hrep1; destruct_and?; uniq_norm; mrun2;
    (eexists _, _; split; [reflexivity|]; split; [solve_rep2 | solve_frame2]).
Qed.

(** The way back up after the recursive call went right: lines 185-195,
    and 177-195 in the two-children case. *)
Lemma erase_up_right m par par2 rt c a l kv hc r0 r' (e : bool) :
  m !! a = Some (mkNode kv (ptr l) (ptr r0) par hc) →
  rep m (Some a) l → rep m par2 r' →
  uniq (Nd a l kv hc r') → hok l → hok r' →
  ∃ m' par',
    bind (set_right (Some a) (ptr r')) (λ _,
      bind (get_right (Some a)) (λ q,
        bind (when_ptr q (set_parent q (Some a))) (λ _,
          bind (eraseByNode_tail (Some a)) (λ res, ret (res, e)))))
      (mkState m rt c)
    = Ok (ptr (t_rebalance (Nd a l kv hc r')), e) (mkState m' rt c)
    ∧ rep m' par' (t_rebalance (Nd a l kv hc r'))
    ∧ frame (nodes (Nd a l kv hc r')) m m'.
Proof.
  intros Ha Rl Rr Hu Hl Hr.
  pose proof Hu as (Ul & Ur & Hal & Har & Hlr)%uniq_Nd.
  cbn. rewrite Ha. cbn. rewrite lookup_insert_eq. cbn.
  set (m1 := <[a := _]> m).
  assert (frame (nodes (Nd a l kv hc r')) m m1) as F1 by (apply frame_insert; set_solver).
  destruct (set_parent_sim m1 par2 (Some a) r' rt c) as (m2 & Hrun2 & Rr2 & F2 & _);
    [|done|].
  { eapply rep_frame; [exact Rr|]. intros z Hz. subst m1.
    rewrite lookup_insert_ne; [done|]. by intros ->. }
  rewrite Hrun2.
  assert (rep m2 par (Nd a l kv hc r')) as R2.
  { cbn [rep]. split_and!; [| |done].
    - rewrite F2 by done. subst m1. by rewrite lookup_insert_eq.
    - eapply rep_frame; [exact Rl|]. intros z Hz.
      rewrite F2 by (by apply Hlr). subst m1.
      rewrite lookup_insert_ne; [done|]. by intros ->. }
  destruct (eraseByNode_tail_sim m2 par rt c a l kv hc r' R2 Hu Hl Hr)
    as (m3 & par3 & Hrun3 & R3 & F3).
  rewrite Hrun3. exists m3, par3. split; [done|]. split; [done|].
  eapply frame_trans; [|exact F3]. eapply frame_trans; [exact F1|].
  eapply frame_weaken; [exact F2|]. set_solver.
Qed.

Lemma erase_up_left m par par2 rt c a l0 l' kv hc r (e : bool) :
  m !! a = Some (mkNode kv (ptr l0) (ptr r) par hc) →
  rep m par2 l' → rep m (Some a) r →
  uniq (Nd a l' kv hc r) → hok l' → hok r →
  ∃ m' par',
    bind (set_left (Some a) (ptr l')) (λ _,
      bind (get_left (Some a)) (λ q,
        bind (when_ptr q (set_parent q (Some a))) (λ _,
          bind (eraseByNode_tail (Some a)) (λ res, ret (res, e)))))
      (mkState m rt c)
    = Ok (ptr (t_rebalance (Nd a l' kv hc r)), e) (mkState m' rt c)
    ∧ rep m' par' (t_rebalance (Nd a l' kv hc r))
    ∧ frame (nodes (Nd a l' kv hc r)) m m'.
Proof.
  intros Ha Rl Rr Hu Hl Hr.
  pose proof Hu as (Ul & Ur & Hal & Har & Hlr)%uniq_Nd.
  cbn. rewrite Ha. cbn. rewrite lookup_insert_eq. cbn.
  set (m1 := <[a := _]> m).
  assert (frame (nodes (Nd a l' kv hc r)) m m1) as F1 by (apply frame_insert; set_solver).
  destruct (set_parent_sim m1 par2 (Some a) l' rt c) as (m2 & Hrun2 & Rl2 & F2 & _);
    [|done|].
  { eapply rep_frame; [exact Rl|]. intros z Hz. subst m1.
    rewrite lookup_insert_ne; [done|]. by intros ->. }
  rewrite Hrun2.
  assert (rep m2 par (Nd a l' kv hc r)) as R2.
  { cbn [rep]. split_and!; [|done|].
    - rewrite F2 by done. subst m1. by rewrite lookup_insert_eq.
    - eapply rep_frame; [exact Rr|]. intros z Hz.
      rewrite F2 by (intros Hzl; by apply (Hlr z)). subst m1.
      rewrite lookup_insert_ne; [done|]. by intros ->. }
  destruct (eraseByNode_tail_sim m2 par rt c a l' kv hc r R2 Hu Hl Hr)
    as (m3 & par3 & Hrun3 & R3 & F3).
  rewrite Hrun3. exists m3, par3. split; [done|]. split; [done|].
  eapply frame_trans; [|exact F3]. eapply frame_trans; [exact F1|].
  eapply frame_weaken; [exact F2|]. set_solver.
Qed.

Lemma eraseByNode_sim t : ∀ fuel m par rt c ta tnd e t' e' f,
  rep m par t → uniq t → hok t → (depth t < fuel)%nat →
  m !! ta = Some tnd →
  t_erase ta (fst (value tnd)) e t = (t', e', f) →
  ∃ m' par',
    eraseByNode fuel (ptr t) (Some ta) e (mkState m rt c)
    = Ok (ptr t', e')
         (mkState m' rt (match f with Some _ => wrap (c - 1) | None => c end))
    ∧ rep m' par' t' ∧ frame (nodes t) m m'
    ∧ (∀ fa, f = Some fa → m' !! fa = None).
Proof.
  induction t as [|a l IHl kv hc r IHr]; intros [|fuel] m par rt c ta tnd e t' e' f;
    simpl; try lia.
  - intros _ _ _ _ _ [= <- <- <-]. exists m, par. split_and!; first [done | apply frame_refl].
  - intros Hrep Hu (Hc & Hl & Hr) Hf Hta Hte.
    destruct Hrep as (Ha & Rl & Rr).
    pose proof Hu as (Ul & Ur & Hal & Har & Hlr)%uniq_Nd.
    destruct (decide (a = ta)) as [->|Hne].
    + rewrite decide_True by done. cbn. rewrite Ha. cbn.
      destruct l as [|x A kx hx B], r as [|y C ky hy D].
      * (* no child *)
        injection Hte as <- <- <-. repeat (progress (cbn; rewrite ?Ha)).
        exists (delete ta m), par. split; [done|]. split; [done|split].
        -- apply frame_delete. set_solver.
        -- intros fa [= <-]. apply lookup_delete_eq.
      * (* right child only *)
        injection Hte as <- <- <-. repeat (progress (cbn; rewrite ?Ha)).
        destruct (set_parent_sim m (Some ta) par (Nd y C ky hy D) rt (wrap (c - 1)))
          as (m1 & Hrun1 & R1 & F1 & _); [done|done|].
        cbn in Hrun1. rewrite Hrun1. cbn.
        rewrite F1 by done. repeat (progress (cbn; rewrite ?Ha)).
        exists (delete ta m1), par. split; [done|]. split; [|split].
        -- refine (rep_frame m1 _ par (Nd y C ky hy D) R1 _). intros z Hz.
           rewrite lookup_delete_ne; [done|]. by intros ->.
        -- eapply frame_trans; [eapply frame_weaken; [exact F1|set_solver]|].
           apply frame_delete. set_solver.
        -- intros fa [= <-]. apply lookup_delete_eq.
      * (* left child only *)
        injection Hte as <- <- <-. repeat (progress (cbn; rewrite ?Ha)).
        destruct (set_parent_sim m (Some ta) par (Nd x A kx hx B) rt (wrap (c - 1)))
          as (m1 & Hrun1 & R1 & F1 & _); [done|done|].
        cbn in Hrun1. rewrite Hrun1. cbn.
        rewrite F1 by done. repeat (progress (cbn; rewrite ?Ha)).
        exists (delete ta m1), par. split; [done|]. split; [|split].
        -- refine (rep_frame m1 _ par (Nd x A kx hx B) R1 _). intros z Hz.
           rewrite lookup_delete_ne; [done|]. by intros ->.
        -- eapply frame_trans; [eapply frame_weaken; [exact F1|set_solver]|].
           apply frame_delete. set_solver.
        -- intros fa [= <-]. apply lookup_delete_eq.
      * (* two children *)
        destruct (t_min_Nd y C ky hy D) as ([sa skv] & Emin).
        rewrite Emin in Hte.
        destruct (t_erase sa (fst skv) false (Nd y C ky hy D)) as [[r' e2] f2] eqn:Er.
        injection Hte as <- <- <-.
        pose proof (t_min_in _ _ _ _ _ _ Emin) as Hsin.
        destruct (rep_cell _ _ _ _ _ Rr Hsin) as (snd & Hs & Hsv).
        assert (sa ∈ nodes (Nd y C ky hy D)) as Hsr by (by eapply in_cells_nodes).
        assert (sa ≠ ta) as Hsa by (intros ->; done).
        repeat (progress (cbn; rewrite ?Ha)).
        rewrite (minNode_loop_sim fuel y C ky hy D m (Some ta) rt c Rr) by (simpl in *; lia).
        rewrite Emin. cbn. rewrite Hs. cbn. rewrite Ha. cbn.
        rewrite lookup_insert_eq. cbn.
        set (m1 := <[ta := _]> m).
        assert (rep m1 (Some ta) (Nd y C ky hy D)) as Rr1.
        { refine (rep_frame m _ _ _ Rr _). intros z Hz. subst m1.
          rewrite lookup_insert_ne; [done|]. by intros ->. }
        assert (m1 !! sa = Some snd) as Hs1.
        { subst m1. rewrite lookup_insert_ne; done. }
        destruct (IHr fuel m1 (Some ta) rt c sa snd false r' e2 f2 Rr1 Ur Hr)
          as (m2 & par2 & Hrun2 & R2 & F2 & Hfree2);
          [simpl in *; lia | exact Hs1 | by rewrite Hsv |].
        change (ptr (Nd y C ky hy D)) with (Some y) in Hrun2. rewrite Hrun2.
        destruct (t_erase_uniq _ _ _ _ _ _ _ Ur Er) as (Ur' & Hfa).
        pose proof (t_erase_nodes_incl _ _ _ _ _ _ _ Er) as Hi.
        assert (hok r') as Hr'.
        { pose proof (t_erase_hok sa (fst skv) false _ Hr) as H. by rewrite Er in H. }
        assert (uniq (Nd ta (Nd x A kx hx B) skv hc r')) as Hu'.
        { apply uniq_Nd. split_and!; try done.
          - intros Hin. by apply Har, Hi.
          - intros z Hz Hz'. by apply (Hlr z), Hi. }
        assert (m2 !! ta = Some (mkNode skv (Some x) (Some y) par hc)) as Ha2.
        { rewrite F2 by done. subst m1. rewrite lookup_insert_eq. by rewrite Hsv. }
        assert (rep m2 (Some ta) (Nd x A kx hx B)) as Rl2.
        { refine (rep_frame m _ _ _ Rl _). intros z Hz.
          rewrite F2 by (by apply Hlr). subst m1.
          rewrite lookup_insert_ne; [done|]. by intros ->. }
        destruct (erase_up_right m2 par par2 rt
                    (match f2 with Some _ => wrap (c - 1) | None => c end)
                    ta (Nd x A kx hx B) skv hc (Nd y C ky hy D) r' true
                    Ha2 Rl2 R2 Hu' Hl Hr') as (m3 & par3 & Hrun3 & R3 & F3).
        exists m3, par3. split; [exact Hrun3|]. split; [exact R3|]. split.
        -- eapply frame_trans; [|eapply frame_weaken; [exact F3|]].
           ++ eapply frame_trans; [apply frame_insert|eapply frame_weaken; [exact F2|]];
                set_solver.
           ++ intros z. simpl. rewrite !elem_of_app, !elem_of_cons.
              intros [?|[?|?%Hi]]; simpl in *; set_solver.
        -- intros fa Hf2. destruct (Hfa fa Hf2) as (Hfr & Hfr').
           rewrite F3; [by apply Hfree2|].
           assert (fa ∉ nodes (Nd x A kx hx B)) as Hfl by (intros Hz; by apply (Hlr fa)).
           change (fa ∉ nodes (Nd x A kx hx B) ++ ta :: nodes r').
           apply notin_app. split; [done|]. apply notin_cons. split; [|done].
           intros ->. done.
    + rewrite decide_False by congruence. cbn. rewrite Hta. cbn. rewrite Ha. cbn.
      destruct (comp (fst (value tnd)) (fst kv)).
      * destruct (t_erase ta (fst (value tnd)) e l) as [[l' e2] f2] eqn:El.
        injection Hte as <- <- <-.
        cbn. rewrite Ha. cbn.
        destruct (IHl fuel m (Some a) rt c ta tnd e l' e2 f2 Rl Ul Hl)
          as (m2 & par2 & Hrun2 & R2 & F2 & Hfree2); [lia | done | done |].
        rewrite Hrun2.
        destruct (t_erase_uniq _ _ _ _ _ _ _ Ul El) as (Ul' & Hfa).
        pose proof (t_erase_nodes_incl _ _ _ _ _ _ _ El) as Hi.
        assert (hok l') as Hl'.
        { pose proof (t_erase_hok ta (fst (value tnd)) e _ Hl) as H. by rewrite El in H. }
        assert (uniq (Nd a l' kv hc r)) as Hu'.
        { apply uniq_Nd. split_and!; try done.
          - intros Hin. by apply Hal, Hi.
          - intros z Hz. by apply Hlr, Hi. }
        assert (m2 !! a = Some (mkNode kv (ptr l) (ptr r) par hc)) as Ha2.
        { by rewrite F2. }
        assert (rep m2 (Some a) r) as Rr2.
        { refine (rep_frame m _ _ _ Rr _). intros z Hz.
          apply F2. intros Hzl. by apply (Hlr z). }
        destruct (erase_up_left m2 par par2 rt
                    (match f2 with Some _ => wrap (c - 1) | None => c end)
                    a l l' kv hc r e2 Ha2 R2 Rr2 Hu' Hl' Hr)
          as (m3 & par3 & Hrun3 & R3 & F3).
        exists m3, par3. split; [exact Hrun3|]. split; [exact R3|]. split.
        -- eapply frame_trans; [eapply frame_weaken; [exact F2|set_solver]|].
           eapply frame_weaken; [exact F3|].
           intros z. simpl. rewrite !elem_of_app, !elem_of_cons.
           intros [?%Hi|[?|?]]; set_solver.
        -- intros fa Hf2. destruct (Hfa fa Hf2) as (Hfr & Hfr').
           rewrite F3; [by apply Hfree2|].
           simpl. apply notin_app. split; [done|]. apply notin_cons. split.
           ++ intros ->. done.
           ++ by apply Hlr.
      * destruct (t_erase ta (fst (value tnd)) e r) as [[r' e2] f2] eqn:Er.
        injection Hte as <- <- <-.
        cbn. rewrite Ha. cbn.
        destruct (IHr fuel m (Some a) rt c ta tnd e r' e2 f2 Rr Ur Hr)
          as (m2 & par2 & Hrun2 & R2 & F2 & Hfree2); [lia | done | done |].
        rewrite Hrun2.
        destruct (t_erase_uniq _ _ _ _ _ _ _ Ur Er) as (Ur' & Hfa).
        pose proof (t_erase_nodes_incl _ _ _ _ _ _ _ Er) as Hi.
        assert (hok r') as Hr'.
        { pose proof (t_erase_hok ta (fst (value tnd)) e _ Hr) as H. by rewrite Er in H. }
        assert (uniq (Nd a l kv hc r')) as Hu'.
        { apply uniq_Nd. split_and!; try done.
          - intros Hin. by apply Har, Hi.
          - intros z Hz Hz'. by apply (Hlr z), Hi. }
        assert (m2 !! a = Some (mkNode kv (ptr l) (ptr r) par hc)) as Ha2.
        { by rewrite F2. }
        assert (rep m2 (Some a) l) as Rl2.
        { refine (rep_frame m _ _ _ Rl _). intros z Hz.
          apply F2. by apply Hlr. }
        destruct (erase_up_right m2 par par2 rt
                    (match f2 with Some _ => wrap (c - 1) | None => c end)
                    a l kv hc r r' e2 Ha2 Rl2 R2 Hu' Hl Hr')
          as (m3 & par3 & Hrun3 & R3 & F3).
        exists m3, par3. split; [exact Hrun3|]. split; [exact R3|]. split.
        -- eapply frame_trans; [eapply frame_weaken; [exact F2|set_solver]|].
           eapply frame_weaken; [exact F3|].
           intros z. simpl. rewrite !elem_of_app, !elem_of_cons.
           intros [?|[?|?%Hi]]; set_solver.
        -- intros fa Hf2. destruct (Hfa fa Hf2) as (Hfr & Hfr').
           rewrite F3; [by apply Hfree2|].
           simpl. apply notin_app. split; [|apply notin_cons; split; [|done]].
           ++ intros Hz. by apply (Hlr fa).
           ++ intros ->. done.
Qed.

End EraseSim.

(** ** Erasing keeps the height invariants *)

Section EraseHeights.

Context {Key T : Type} `{!Compare Key}.
Implicit Types (t l r : tree Key T).

Lemma t_erase_avl ta tk e t :
  hok t → balanced t →
  hok (t_erase ta tk e t).1.1 ∧ balanced (t_erase ta tk e t).1.1
  ∧ ht t - 1 ≤ ht (t_erase ta tk e t).1.1 ≤ ht t.
Proof.
  intros Hh Hb. split; [by apply t_erase_hok|]. revert ta tk e Hh Hb.
  induction t as [|a l IHl kv hc r IHr]; simpl; intros ta tk e.
  - intros _ _. split; [done|lia].
  - intros (Hc & Hl & Hr) (Hd & Bl & Br).
    destruct (decide (a = ta)) as [->|Hne].
    + destruct l as [|x A kx hx B], r as [|y C ky hy D].
      * simpl. split; [done|lia].
      * cbn [fst]. split; [done|].
        pose proof (ht_nonneg C). pose proof (ht_nonneg D). simpl in *. lia.
      * cbn [fst]. split; [done|].
        pose proof (ht_nonneg A). pose proof (ht_nonneg B). simpl in *. lia.
      * destruct (t_min_Nd y C ky hy D) as ([sa skv] & ->).
        specialize (IHr sa (fst skv) false Hr Br).
        pose proof (t_erase_hok sa (fst skv) false _ Hr) as Hr'.
        destruct (t_erase sa (fst skv) false (Nd y C ky hy D)) as [[r' e2] f2].
        cbn [fst] in *. destruct IHr as (Br' & Hh').
        destruct (balanced_t_rebalance ta (Nd x A kx hx B) skv hc r')
          as (B' & H1 & H2); try done; [lia|].
        split; [done|].
        destruct (decide (-1 ≤ ht (Nd x A kx hx B) - ht r' ≤ 1)) as [Hin|Hout];
          [rewrite (H2 Hin)|]; lia.
    + destruct (comp tk (fst kv)).
      * specialize (IHl ta tk e Hl Bl).
        pose proof (t_erase_hok ta tk e _ Hl) as Hl'.
        destruct (t_erase ta tk e l) as [[l' e2] f2].
        cbn [fst] in *. destruct IHl as (Bl' & Hh').
        destruct (balanced_t_rebalance a l' kv hc r) as (B' & H1 & H2); try done; [lia|].
        split; [done|].
        destruct (decide (-1 ≤ ht l' - ht r ≤ 1)) as [Hin|Hout];
          [rewrite (H2 Hin)|]; lia.
      * specialize (IHr ta tk e Hr Br).
        pose proof (t_erase_hok ta tk e _ Hr) as Hr'.
        destruct (t_erase ta tk e r) as [[r' e2] f2].
        cbn [fst] in *. destruct IHr as (Br' & Hh').
        destruct (balanced_t_rebalance a l kv hc r') as (B' & H1 & H2); try done; [lia|].
        split; [done|].
        destruct (decide (-1 ≤ ht l - ht r' ≤ 1)) as [Hin|Hout];
          [rewrite (H2 Hin)|]; lia.
Qed.

(** Erasing an address that is not in the tree erases nothing. *)
Lemma t_erase_notin ta tk e t :
  ta ∉ nodes t → (t_erase ta tk e t).1.2 = e ∧ (t_erase ta tk e t).2 = None.
Proof.
  induction t as [|a l IHl kv hc r IHr]; simpl; [done|].
  rewrite notin_app, notin_cons. intros (Hl & Hne & Hr).
  rewrite decide_False by done.
  destruct (comp tk (fst kv)).
  - specialize (IHl Hl). by destruct (t_erase ta tk e l) as [[l' e2] f2].
  - specialize (IHr Hr). by destruct (t_erase ta tk e r) as [[r' e2] f2].
Qed.

End EraseHeights.

(** ** Erasing a node of the tree: what happens to the in-order listing *)

Section SubtreeAt.

Context {Key T : Type}.
Implicit Types (t l r s : tree Key T).

Lemma subtree_at_root x t s : subtree_at x t = Some s → ∃ l kv hc r, s = Nd x l kv hc r.
Proof.
  induction t as [|a l IHl kv hc r IHr]; simpl; [done|].
  destruct (decide (a = x)) as [->|]; [intros [= <-]; eauto|].
  destruct (subtree_at x l); [intros [= <-]; eauto|]. done.
Qed.

Lemma subtree_at_cells x t s :
  subtree_at x t = Some s → ∃ pre post, cells t = pre ++ cells s ++ post.
Proof.
  induction t as [|a l IHl kv hc r IHr]; simpl; [done|].
  destruct (decide (a = x)) as [->|].
  { intros [= <-]. exists [], []. simpl. by rewrite app_nil_r. }
  destruct (subtree_at x l) as [s'|].
  - intros [= <-]. destruct (IHl eq_refl) as (pre & post & ->).
    exists pre, (post ++ (a, kv) :: cells r). by rewrite <- !app_assoc.
  - intros (pre & post & ->)%IHr.
    exists (cells l ++ (a, kv) :: pre), post. by rewrite <- !app_assoc.
Qed.

Lemma in_nodes_subtree x t : x ∈ nodes t → is_Some (subtree_at x t).
Proof.
  induction t as [|a l IHl kv hc r IHr]; simpl; [set_solver|].
  destruct (decide (a = x)) as [->|]; [eauto|].
  intros [H|[H|H]%elem_of_cons]%elem_of_app; [|done|].
  - destruct (IHl H) as (s & ->). eauto.
  - destruct (subtree_at x l); eauto.
Qed.

Lemma subtree_at_notin x t : x ∉ nodes t → subtree_at x t = None.
Proof.
  intros H. destruct (subtree_at x t) as [s|] eqn:E; [|done].
  destruct (subtree_at_root _ _ _ E) as (l & kv & hc & r & ->).
  destruct (subtree_at_cells _ _ _ E) as (pre & post & Hc).
  exfalso. apply H. rewrite nodes_cells, Hc. simpl.
  rewrite !fmap_app. simpl. set_solver.
Qed.

Lemma t_min_subtree t sa skv :
  uniq t → t_min t = Some (sa, skv) →
  ∃ hs sr, subtree_at sa t = Some (Nd sa Leaf skv hs sr).
Proof.
  induction t as [|a l IHl kv hc r _]; [done|].
  intros (Ul & Ur & Hal & Har & Hlr)%uniq_Nd.
  destruct l as [|b ll kv' hc' lr].
  - simpl. intros [= -> ->]. rewrite decide_True by done. eauto.
  - intros Hm. change (t_min (Nd b ll kv' hc' lr) = Some (sa, skv)) in Hm.
    destruct (IHl Ul Hm) as (hs & sr & E).
    assert (sa ∈ nodes (Nd b ll kv' hc' lr)) as Hin.
    { eapply in_cells_nodes. eapply t_min_in. exact Hm. }
    remember (Nd b ll kv' hc' lr) as L eqn:EL. simpl.
    rewrite decide_False by (intros ->; done).
    rewrite E. eauto.
Qed.

(** In a tree without repeated addresses, the cell at a given address
    determines its place in the listing. *)
Lemma cells_head_unique (L : list (addr * (Key * T))) c pre post rest :
  NoDup (fst <$> L) → L = c :: rest → L = pre ++ c :: post → pre = [] ∧ rest = post.
Proof.
  intros Hnd E1 E2. destruct pre as [|d pre].
  - simpl in E2. rewrite E1 in E2. by injection E2.
  - exfalso. rewrite E1 in E2. simpl in E2. injection E2 as <- E2.
    rewrite E1, E2 in Hnd. simpl in Hnd. apply NoDup_cons in Hnd as (Hn & _).
    apply Hn. rewrite fmap_app. simpl. set_solver.
Qed.

End SubtreeAt.

Ltac norm_app := repeat (progress (rewrite <- ?app_assoc; cbn [app])).

Section EraseOrder.

Context {Key T : Type} `{!Compare Key} `{!CompOrder Key}.
Implicit Types (t l r s : tree Key T).

Lemma subtree_at_in x t l kv hc r :
  subtree_at x t = Some (Nd x l kv hc r) → (x, kv) ∈ cells t.
Proof.
  intros (pre & post & ->)%subtree_at_cells. simpl. set_solver.
Qed.

(** Erasing the node at [ta]: with at most one child the cell disappears
    and that node is freed; with two children the cell takes over the payload
    of the next cell, the leftmost of the right subtree, whose node is freed. *)
Lemma t_erase_at t : ∀ ta l kv hc r e,
  ordered t → uniq t → subtree_at ta t = Some (Nd ta l kv hc r) →
  ∃ t' pre post,
    cells t = pre ++ cells l ++ (ta, kv) :: cells r ++ post
    ∧ if is_leaf l || is_leaf r then
        t_erase ta (fst kv) e t = (t', true, Some ta)
        ∧ cells t' = pre ++ cells l ++ cells r ++ post
      else
        ∃ sa skv rest,
          t_min r = Some (sa, skv) ∧ cells r = (sa, skv) :: rest
          ∧ t_erase ta (fst kv) e t = (t', true, Some sa)
          ∧ cells t' = pre ++ cells l ++ (ta, skv) :: rest ++ post.
Proof.
  induction t as [|a L IHL kvr hcr R IHR]; intros ta l kv hc r e; [done|].
  intros (OL & OR & HL & HR)%ordered_Nd Hu.
  pose proof Hu as (UL & UR & HaL & HaR & HLR)%uniq_Nd.
  rewrite Forall_forall in HL, HR.
  cbn [subtree_at t_erase]. destruct (decide (a = ta)) as [->|Hne].
  - intros [= -> -> -> ->]. 
    destruct l as [|x A kx hx B], r as [|y C ky hy D]; cbn [is_leaf orb].
    + exists Leaf, [], []. done.
    + exists (Nd y C ky hy D), [], []. simpl. by rewrite !app_nil_r.
    + exists (Nd x A kx hx B), [], []. simpl. by rewrite !app_nil_r.
    + destruct (t_min_Nd y C ky hy D) as ([sa skv] & Emin).
      destruct (t_min_subtree _ _ _ UR Emin) as (hs & sr & Esub).
      destruct (IHR sa Leaf skv hs sr false OR UR Esub)
        as (r' & pre' & post' & Hc & Her & Hc').
      destruct (t_min_cells _ _ Emin) as (rest & Hrest).
      simpl in Hc. simpl in Hc'.
      destruct (cells_head_unique (cells (Nd y C ky hy D)) (sa, skv) pre' (cells sr ++ post') rest) as (-> & ->);
        [by rewrite <- nodes_cells|exact Hrest|exact Hc|].
      rewrite Emin, Her.
      exists (t_rebalance (Nd ta (Nd x A kx hx B) skv hc r')), [], [].
      split; [simpl; by rewrite !app_nil_r|].
      exists sa, skv, (cells sr ++ post'). split_and!; try done.
      rewrite cells_t_rebalance. simpl. rewrite Hc'. by rewrite !app_nil_r.
  - destruct (subtree_at ta L) as [s|] eqn:EL.
    + intros [= ->].
      destruct (IHL ta l kv hc r e OL UL EL) as (l' & pre & post & Hc & Hrest).
      pose proof (HL _ (subtree_at_in _ _ _ _ _ _ EL)) as Hlt.
      unfold lt, ckey in Hlt. simpl in Hlt. rewrite Hlt.
      destruct (is_leaf l || is_leaf r).
      * destruct Hrest as (-> & Hc').
        exists (t_rebalance (Nd a l' kvr hcr R)), pre, (post ++ (a, kvr) :: cells R).
        split; [cbn [cells]; rewrite Hc; by norm_app|].
        split; [done|]. rewrite cells_t_rebalance. cbn [cells]. rewrite Hc'. by norm_app.
      * destruct Hrest as (sa & skv & rest & Hm & Hr & -> & Hc').
        exists (t_rebalance (Nd a l' kvr hcr R)), pre, (post ++ (a, kvr) :: cells R).
        split; [cbn [cells]; rewrite Hc; by norm_app|].
        exists sa, skv, rest. split_and!; try done.
        rewrite cells_t_rebalance. cbn [cells]. rewrite Hc'. by norm_app.
    + intros ER.
      destruct (IHR ta l kv hc r e OR UR ER) as (r' & pre & post & Hc & Hrest).
      pose proof (HR _ (subtree_at_in _ _ _ _ _ _ ER)) as Hlt.
      unfold lt, ckey in Hlt. simpl in Hlt.
      rewrite (comp_asym _ _ Hlt).
      destruct (is_leaf l || is_leaf r).
      * destruct Hrest as (-> & Hc').
        exists (t_rebalance (Nd a L kvr hcr r')), (cells L ++ (a, kvr) :: pre), post.
        split; [cbn [cells]; rewrite Hc; by norm_app|].
        split; [done|]. rewrite cells_t_rebalance. cbn [cells]. rewrite Hc'. by norm_app.
      * destruct Hrest as (sa & skv & rest & Hm & Hr & -> & Hc').
        exists (t_rebalance (Nd a L kvr hcr r')), (cells L ++ (a, kvr) :: pre), post.
        split; [cbn [cells]; rewrite Hc; by norm_app|].
        exists sa, skv, rest. split_and!; try done.
        rewrite cells_t_rebalance. cbn [cells]. rewrite Hc'. by norm_app.
Qed.

End EraseOrder.

(** ** Fuel: a tree in the store is no deeper than the store is large *)

Section Fuel.

Context {Key T : Type}.
Implicit Types (m : gmap addr (Node Key T)) (t l r : tree Key T).

Lemma depth_le_nodes t : (depth t ≤ length (nodes t))%nat.
Proof.
  induction t as [|a l IHl kv hc r IHr]; simpl; [lia|].
  rewrite length_app. simpl. lia.
Qed.

Lemma nodes_le_size m par t : rep m par t → uniq t → (length (nodes t) ≤ size m)%nat.
Proof.
  intros Hrep Hu. rewrite <- size_dom.
  rewrite <- (size_list_to_set (C := gset addr) (nodes t)) by exact Hu.
  apply subseteq_size. intros a Ha. apply elem_of_list_to_set in Ha.
  apply elem_of_dom. by eapply rep_dom.
Qed.

Lemma depth_lt_fuel m par t : rep m par t → uniq t → (depth t < S (size m))%nat.
Proof.
  intros Hrep Hu. pose proof (depth_le_nodes t). pose proof (nodes_le_size _ _ _ Hrep Hu). lia.
Qed.

End Fuel.

(** ** Teardown *)

Section Destroy.

Context {Key T : Type}.
Implicit Types (m : gmap addr (Node Key T)) (t l r : tree Key T).

Lemma destroy_sim t : ∀ fuel m par rt c,
  rep m par t → uniq t → (depth t < fuel)%nat →
  ∃ m',
    destroy fuel (ptr t) (mkState m rt c) = Ok tt (mkState m' rt c)
    ∧ frame (nodes t) m m' ∧ ∀ a, a ∈ nodes t → m' !! a = None.
Proof.
  induction t as [|a l IHl kv hc r IHr]; intros [|fuel] m par rt c; simpl; try lia.
  - intros _ _ _. exists m. split; [done|]. split; [apply frame_refl|set_solver].
  - intros (Ha & Rl & Rr) (Ul & Ur & Hal & Har & Hlr)%uniq_Nd Hf.
    rewrite Ha. cbn.
    destruct (IHl fuel m (Some a) rt c Rl Ul) as (m1 & Hrun1 & F1 & G1); [lia|].
    rewrite Hrun1. cbn. rewrite (F1 a) by done. rewrite Ha. cbn.
    assert (rep m1 (Some a) r) as Rr1.
    { refine (rep_frame m _ _ _ Rr _). intros z Hz. apply F1.
      intros Hzl. by apply (Hlr z). }
    destruct (IHr fuel m1 (Some a) rt c Rr1 Ur) as (m2 & Hrun2 & F2 & G2); [lia|].
    rewrite Hrun2. cbn. rewrite (F2 a) by done. rewrite (F1 a) by done. rewrite Ha. cbn.
    exists (delete a m2). split; [done|]. split.
    + eapply frame_trans; [eapply frame_weaken; [exact F1|set_solver]|].
      eapply frame_trans; [eapply frame_weaken; [exact F2|set_solver]|].
      apply frame_delete. set_solver.
    + intros z [Hz|[->|Hz]%elem_of_cons]%elem_of_app.
      * rewrite lookup_delete_ne by (intros ->; done).
        rewrite F2 by (by apply Hlr). by apply G1.
      * apply lookup_delete_eq.
      * rewrite lookup_delete_ne by (intros ->; done). by apply G2.
Qed.

End Destroy.

(** ** Deep copy *)

Section Clone.

Context {Key T : Type}.
Implicit Types (m : gmap addr (Node Key T)) (t l r : tree Key T).

Lemma extends_refl m : extends m m.
Proof. by intros a _. Qed.

Lemma extends_trans m1 m2 m3 : extends m1 m2 → extends m2 m3 → extends m1 m3.
Proof.
  intros H1 H2 a Ha. rewrite H2; [by apply H1|]. rewrite H1; done.
Qed.

Lemma extends_insert m m' a nd : extends m m' → m !! a = None → extends m (<[a := nd]> m').
Proof.
  intros H Hn b Hb. rewrite lookup_insert_ne; [by apply H|].
  intros ->. rewrite Hn in Hb. by destruct Hb.
Qed.

Lemma rep_extends m m' par t : rep m par t → extends m m' → rep m' par t.
Proof.
  intros Hr He. eapply rep_frame; [exact Hr|]. intros a Ha. apply He.
  by eapply rep_dom.
Qed.

Lemma rep_insert_notin m par t a nd :
  rep m par t → a ∉ nodes t → rep (<[a := nd]> m) par t.
Proof.
  intros Hr Ha. eapply rep_frame; [exact Hr|]. intros b Hb.
  rewrite lookup_insert_ne; [done|]. by intros ->.
Qed.

Lemma clone_sim t : ∀ fuel m par0 par rt c,
  rep m par0 t → (depth t < fuel)%nat →
  ∃ m' t',
    clone fuel (ptr t) par (mkState m rt c) = Ok (ptr t') (mkState m' rt c)
    ∧ rep m' par t' ∧ same_shape t t' ∧ uniq t'
    ∧ (∀ a, a ∈ nodes t' → m !! a = None)
    ∧ extends m m'.
Proof.
  induction t as [|x l IHl kv hc r IHr]; intros [|fuel] m par0 par rt c; simpl; try lia.
  - intros _ _. exists m, Leaf. split_and!; try done.
    + apply NoDup_nil_2.
    + set_solver.
  - intros (Hx & Rl & Rr) Hf.
    set (y := fresh (dom m)).
    assert (m !! y = None) as Hy by (apply not_elem_of_dom, is_fresh).
    assert (x ≠ y) as Hxy by (intros ->; rewrite Hy in Hx; done).
    rewrite Hx. cbn. fold y. rewrite lookup_insert_ne by done. rewrite Hx. cbn.
    rewrite lookup_insert_eq. cbn. rewrite lookup_insert_ne by done.
    rewrite lookup_insert_ne by done. rewrite Hx. cbn.
    set (m1 := <[y := _]> (<[y := _]> m)).
    assert (extends m m1) as E1.
    { subst m1. apply extends_insert; [|done]. apply extends_insert; [|done].
      apply extends_refl. }
    assert (m1 !! y = Some (mkNode kv None None par hc)) as Hy1.
    { subst m1. by rewrite lookup_insert_eq. }
    destruct (IHl fuel m1 (Some x) (Some y) rt c) as (m2 & l' & Hrun2 & Rl2 & Sl & Ul & Fl & E2);
      [by eapply rep_extends|lia|].
    rewrite Hrun2. cbn.
    assert (m2 !! y = Some (mkNode kv None None par hc)) as Hy2.
    { rewrite E2; [done|]. by rewrite Hy1. }
    rewrite Hy2. cbn. rewrite lookup_insert_ne by done.
    assert (extends m m2) as E02 by (by eapply extends_trans).
    rewrite (E02 x) by eauto. rewrite Hx. cbn.
    set (m3 := <[y := _]> m2).
    assert (extends m m3) as E03 by (by apply extends_insert).
    assert (y ∉ nodes l') as Hyl.
    { intros Hin. apply Fl in Hin. by rewrite Hy1 in Hin. }
    destruct (IHr fuel m3 (Some x) (Some y) rt c) as (m4 & r' & Hrun4 & Rr4 & Sr & Ur & Fr & E4);
      [by eapply rep_extends|lia|].
    rewrite Hrun4. cbn.
    assert (m3 !! y = Some (mkNode kv (ptr l') None par hc)) as Hy3.
    { subst m3. by rewrite lookup_insert_eq. }
    assert (m4 !! y = Some (mkNode kv (ptr l') None par hc)) as Hy4.
    { rewrite E4; [done|]. by rewrite Hy3. }
    rewrite Hy4. cbn.
    assert (y ∉ nodes r') as Hyr.
    { intros Hin. apply Fr in Hin. by rewrite Hy3 in Hin. }
    assert (rep m3 (Some y) l') as Rl3 by (by apply rep_insert_notin).
    eexists _, (Nd y l' kv hc r'). split; [reflexivity|].
    split; [|split; [|split; [|split]]].
    + cbn [rep]. split_and!.
      * by rewrite lookup_insert_eq.
      * apply rep_insert_notin; [|done]. by eapply rep_extends.
      * by apply rep_insert_notin.
    + done.
    + apply uniq_Nd. split_and!; try done.
      intros z Hzl Hzr. apply Fr in Hzr.
      destruct (rep_dom _ _ _ _ Rl3 Hzl) as (nd & Hnd). by rewrite Hnd in Hzr.
    + intros z [Hz|[->|Hz]%elem_of_cons]%elem_of_app; [|done|].
      * apply Fl in Hz. destruct (m !! z) eqn:Ez; [|done].
        rewrite E1 in Hz by eauto. by rewrite Ez in Hz.
      * apply Fr in Hz. destruct (m !! z) eqn:Ez; [|done].
        rewrite E03 in Hz by eauto. by rewrite Ez in Hz.
    + apply extends_insert; [|done]. by eapply extends_trans.
Qed.

Lemma same_shape_elems t t' : same_shape t t' → elems t' = elems t.
Proof.
  revert t'. induction t as [|a l IHl kv hc r IHr]; intros [|a' l' kv' hc' r']; simpl; try done.
  intros (-> & -> & Hl & Hr). by rewrite (IHl _ Hl), (IHr _ Hr).
Qed.

Lemma same_shape_ht t t' : same_shape t t' → ht t' = ht t.
Proof.
  revert t'. induction t as [|a l IHl kv hc r IHr]; intros [|a' l' kv' hc' r']; simpl; try done.
  intros (-> & -> & Hl & Hr). by rewrite (IHl _ Hl), (IHr _ Hr).
Qed.

Lemma same_shape_hok t t' : same_shape t t' → hok t → hok t'.
Proof.
  revert t'. induction t as [|a l IHl kv hc r IHr]; intros [|a' l' kv' hc' r']; simpl; try done.
  intros (-> & -> & Hl & Hr) (Hc & Hhl & Hhr).
  rewrite (same_shape_ht _ _ Hl), (same_shape_ht _ _ Hr). eauto.
Qed.

Lemma same_shape_balanced t t' : same_shape t t' → balanced t → balanced t'.
Proof.
  revert t'. induction t as [|a l IHl kv hc r IHr]; intros [|a' l' kv' hc' r']; simpl; try done.
  intros (-> & -> & Hl & Hr) (Hc & Hhl & Hhr).
  rewrite (same_shape_ht _ _ Hl), (same_shape_ht _ _ Hr). eauto.
Qed.

End Clone.

(** ** The predecessor walk *)

Section Predecessor.

Context {Key T : Type}.
Implicit Types (m : gmap addr (Node Key T)) (t l r : tree Key T).

Lemma nodup_split (L p1 q1 p2 q2 : list addr) x :
  NoDup L → L = p1 ++ x :: q1 → L = p2 ++ x :: q2 → p1 = p2 ∧ q1 = q2.
Proof.
  intros Hnd ->. revert p2 Hnd. induction p1 as [|c p1 IH]; intros [|d p2] Hnd E; simpl in *.
  - by injection E.
  - injection E as <- E. exfalso. apply NoDup_cons in Hnd as (Hn & _).
    apply Hn. rewrite E. set_solver.
  - injection E as -> E. exfalso. apply NoDup_cons in Hnd as (Hn & _).
    apply Hn. set_solver.
  - injection E as <- E. apply NoDup_cons in Hnd as (_ & Hnd).
    destruct (IH p2 Hnd E) as (-> & ->). done.
Qed.

Lemma lspine_lt_depth a l kv hc r : (lspine (Nd a l kv hc r) < depth (Nd a l kv hc r))%nat.
Proof.
  revert a kv hc r. induction l as [|b ll IH kv' hc' lr _]; intros a kv hc r.
  - simpl. lia.
  - specialize (IH b kv' hc' lr).
    change (S (lspine (Nd b ll kv' hc' lr))
            < S (Nat.max (depth (Nd b ll kv' hc' lr)) (depth r)))%nat.
    lia.
Qed.

Lemma t_min_nodes t x q : nodes t = x :: q → ∃ kv, t_min t = Some (x, kv).
Proof.
  destruct t as [|a l kv hc r]; [done|]. intros Hn.
  destruct (t_min_Nd a l kv hc r) as ([x' kv'] & Hm).
  destruct (t_min_cells _ _ Hm) as (rest & Hc).
  rewrite nodes_cells, Hc in Hn. simpl in Hn. injection Hn as -> _. eauto.
Qed.

Lemma t_max_nodes t p y : nodes t = p ++ [y] → ∃ kv, t_max t = Some (y, kv).
Proof.
  destruct t as [|a l kv hc r]; [by destruct p|]. intros Hn.
  destruct (t_max_Nd a l kv hc r) as ([y' kv'] & Hm).
  destruct (t_max_cells _ _ Hm) as (rest & Hc).
  rewrite nodes_cells, Hc, fmap_app in Hn. simpl in Hn.
  apply app_inj_tail in Hn as (_ & ->). eauto.
Qed.

(** From the leftmost node of a subtree the climb reaches the root of the
    subtree and goes on from there. *)
Lemma predecessor_climb_leftmost a l kv hc r : ∀ m par x xkv rt c,
  rep m par (Nd a l kv hc r) → t_min (Nd a l kv hc r) = Some (x, xkv) →
  ∃ px,
    get_left (Some x) (mkState m rt c) = Ok None (mkState m rt c)
    ∧ get_parent (Some x) (mkState m rt c) = Ok px (mkState m rt c)
    ∧ ∀ f, predecessor_climb (lspine (Nd a l kv hc r) + f) (Some x) px (mkState m rt c)
           = predecessor_climb f (Some a) par (mkState m rt c).
Proof.
  revert a kv hc r. induction l as [|b ll IH kv' hc' lr _]; intros a kv hc r m par x xkv rt c.
  - simpl. intros (Ha & _) [= <- <-]. exists par. cbn. rewrite Ha. done.
  - intros (Ha & Rl & _) Hm.
    change (t_min (Nd b ll kv' hc' lr) = Some (x, xkv)) in Hm.
    destruct (IH b kv' hc' lr m (Some a) x xkv rt c Rl Hm) as (px & H1 & H2 & H3).
    exists px. split; [done|]. split; [done|]. intros f.
    replace (lspine (Nd a (Nd b ll kv' hc' lr) kv hc r) + f)%nat
      with (lspine (Nd b ll kv' hc' lr) + S f)%nat
      by (change (lspine (Nd a (Nd b ll kv' hc' lr) kv hc r))
            with (S (lspine (Nd b ll kv' hc' lr))); lia).
    rewrite H3. cbn. rewrite Ha. cbn.
    rewrite decide_True by done. cbn. rewrite Ha. done.
Qed.

Lemma predecessor_sim t : ∀ m par fuel x y pre post rt c,
  rep m par t → uniq t → nodes t = pre ++ y :: x :: post → (depth t ≤ fuel)%nat →
  predecessor fuel (Some x) (mkState m rt c) = Ok (Some y) (mkState m rt c).
Proof.
  induction t as [|a l IHl kv hc r IHr]; intros m par fuel x y pre post rt c.
  { intros _ _ Hn. by destruct pre. }
  intros Hrep Hu Hn Hf. pose proof Hrep as (Ha & Rl & Rr).
  pose proof Hu as (Ul & Ur & Hal & Har & Hlr)%uniq_Nd.
  assert (x ∈ nodes (Nd a l kv hc r)) as Hx by (rewrite Hn; set_solver).
  cbn [nodes] in Hn, Hx.
  assert (nodes l ++ a :: nodes r = (pre ++ [y]) ++ x :: post) as Hn'.
  { rewrite Hn. by rewrite <- app_assoc. }
  apply elem_of_app in Hx as [Hx|[->|Hx]%elem_of_cons].
  - apply list_elem_of_split in Hx as (p & q & Hl).
    assert (nodes l ++ a :: nodes r = p ++ x :: (q ++ a :: nodes r)) as E.
    { rewrite Hl. by rewrite <- app_assoc. }
    destruct (nodup_split _ _ _ _ _ _ Hu E Hn') as (-> & _).
    rewrite <- app_assoc in Hl. simpl in Hl.
    eapply IHl; [exact Rl|exact Ul|exact Hl|simpl in Hf; lia].
  - destruct (nodup_split _ _ _ _ _ _ Hu eq_refl Hn') as (Hl & _).
    destruct (t_max_nodes _ _ _ Hl) as (ykv & Hm).
    destruct l as [|b ll kv' hc' lr]; [done|].
    cbn. rewrite Ha. cbn.
    destruct fuel as [|fuel]; [simpl in Hf; lia|].
    rewrite (maxNode_loop_sim (S fuel) b ll kv' hc' lr m (Some a) rt c Rl)
      by (simpl in *; lia).
    by rewrite Hm.
  - apply list_elem_of_split in Hx as (p & q & Hr).
    assert (nodes l ++ a :: nodes r = (nodes l ++ a :: p) ++ x :: q) as E.
    { rewrite Hr. by rewrite <- app_assoc. }
    destruct (nodup_split _ _ _ _ _ _ Hu E Hn') as (Hp & _).
    destruct (decide (p = [])) as [->|Hne].
    + assert (y = a) as ->.
      { change (nodes l ++ [a] = pre ++ [y]) in Hp. by apply app_inj_tail in Hp as (_ & ->). }
      destruct (t_min_nodes _ _ _ Hr) as (xkv & Hm).
      destruct r as [|b rl kv' hc' rr]; [done|].
      destruct (predecessor_climb_leftmost b rl kv' hc' rr m (Some a) x xkv rt c Rr Hm)
        as (px & H1 & H2 & H3).
      unfold predecessor. cbn [bind]. rewrite H1. cbn [bind]. rewrite H2.
      pose proof (lspine_lt_depth b rl kv' hc' rr) as Hls.
      change (S (Nat.max (depth l) (depth (Nd b rl kv' hc' rr))) ≤ fuel)%nat in Hf.
      replace fuel with (lspine (Nd b rl kv' hc' rr) + S (fuel - lspine (Nd b rl kv' hc' rr) - 1))%nat
        by lia.
      rewrite H3. cbn. rewrite Ha. cbn.
      rewrite decide_False; [done|].
      destruct l as [|al ? ? ? ?]; [done|]. simpl. intros [= <-].
      apply (Hlr b); set_solver.
    + destruct (exists_last Hne) as (p' & y' & ->).
      rewrite app_comm_cons, app_assoc in Hp. apply app_inj_tail in Hp as (_ & ->).
      rewrite <- app_assoc in Hr. simpl in Hr.
      eapply IHr; [exact Rr|exact Ur|exact Hr|simpl in Hf; lia].
Qed.

End Predecessor.

(** ** Writes that change nothing: inserting a key that is present *)

Section InsertFound.

Context {Key T : Type} `{!Compare Key}.
Implicit Types (m : gmap addr (Node Key T)) (t l r : tree Key T).

Lemma rebalance_run_id m par rt c a l kv hc r :
  rep m par (Nd a l kv hc r) → hok (Nd a l kv hc r) → balanced (Nd a l kv hc r) →
  rebalance (Some a) (mkState m rt c) = Ok (Some a) (mkState m rt c).
Proof.
  intros Hrep Hh Hb. unfold rebalance.
  destruct l as [|x A kx hx B], r as [|y C ky hy D];
    cbn [rep ptr] in Hrep; destruct_and?; hok_facts; simpl in *.
  all: repeat first
    [ rewrite insert_id by (repeat heap_step; do 2 f_equal; rewrite ?max2_max; lia)
    | decide_if
    | progress (cbn; repeat heap_step) ].
  all: done.
Qed.

Lemma insertNode_tail_run_id m par rt c a l kv hc r :
  rep m par (Nd a l kv hc r) → hok (Nd a l kv hc r) → balanced (Nd a l kv hc r) →
  insertNode_tail (Some a) par (mkState m rt c) = Ok (Some a) (mkState m rt c).
Proof.
  intros Hrep Hh Hb. unfold insertNode_tail. cbn [bind].
  rewrite (rebalance_run_id m par rt c a l kv hc r Hrep Hh Hb).
  destruct l as [|x A kx hx B], r as [|y C ky hy D];
    cbn [rep ptr] in Hrep; destruct_and?;
    repeat first [ rewrite insert_id by done | progress (cbn; repeat heap_step) ]; done.
Qed.

Lemma insertNode_found_id val t : ∀ fuel m par rt c a,
  rep m par t → hok t → balanced t → (depth t < fuel)%nat →
  t_find (fst val) t = Some a →
  insertNode fuel (ptr t) par val (mkState m rt c)
  = Ok (ptr t, false, Some a) (mkState m rt c).
Proof.
  induction t as [|b l IHl kv hc r IHr]; intros [|fuel] m par rt c a; simpl; try lia; [done|].
  intros Hrep Hh Hb Hf.
  pose proof (insertNode_tail_run_id m par rt c b l kv hc r Hrep Hh Hb) as Htail.
  destruct Hrep as (Hb' & Rl & Rr). destruct Hh as (Hc & Hl & Hr).
  destruct Hb as (Hd & Bl & Br).
  rewrite Hb'. cbn.
  destruct (comp (fst val) (fst kv)); [|destruct (comp (fst kv) (fst val))].
  - intros Hfind. cbn. rewrite Hb'. cbn.
    rewrite (IHl fuel m (Some b) rt c a Rl Hl Bl) by (done || lia). cbn.
    rewrite Hb'. cbn. rewrite insert_id by done.
    rewrite Htail. done.
  - intros Hfind. cbn. rewrite Hb'. cbn.
    rewrite (IHr fuel m (Some b) rt c a Rr Hr Br) by (done || lia). cbn.
    rewrite Hb'. cbn. rewrite insert_id by done.
    rewrite Htail. done.
  - by intros [= <-].
Qed.

End InsertFound.

(** ** Order after erasing *)

Section EraseOrdered.

Context {Key T : Type} `{!Compare Key} `{!CompOrder Key}.
Implicit Types (m : gmap addr (Node Key T)) (t l r : tree Key T).

Lemma t_erase_notin_cells ta tk e t :
  ta ∉ nodes t → cells (t_erase ta tk e t).1.1 = cells t.
Proof.
  induction t as [|a l IHl kv hc r IHr]; simpl; [done|].
  rewrite notin_app, notin_cons. intros (Hl & Hne & Hr).
  rewrite decide_False by done.
  destruct (comp tk (fst kv)).
  - specialize (IHl Hl). destruct (t_erase ta tk e l) as [[l' e2] f2].
    simpl in *. rewrite cells_t_rebalance. simpl. by rewrite IHl.
  - specialize (IHr Hr). destruct (t_erase ta tk e r) as [[r' e2] f2].
    simpl in *. rewrite cells_t_rebalance. simpl. by rewrite IHr.
Qed.

Lemma sorted_remove (R : relation (addr * (Key * T))) p c q :
  StronglySorted R (p ++ c :: q) → StronglySorted R (p ++ q).
Proof.
  rewrite !StronglySorted_app, StronglySorted_cons. intros (H1 & H2 & H3 & H4).
  split_and!; try done. intros x y Hx Hy. apply H1; [done|set_solver].
Qed.

Lemma sorted_replace p c c' q :
  ckey c = ckey c' →
  StronglySorted (λ c d : addr * (Key * T), lt (ckey c) (ckey d)) (p ++ c :: q) →
  StronglySorted (λ c d : addr * (Key * T), lt (ckey c) (ckey d)) (p ++ c' :: q).
Proof.
  intros E. rewrite !StronglySorted_app, !StronglySorted_cons, !Forall_forall.
  intros (H1 & H2 & H3 & H4). split_and!; try done.
  - intros x y Hx [->|Hy]%elem_of_cons.
    + rewrite <- E. apply H1; set_solver.
    + apply H1; set_solver.
  - intros x Hx. rewrite <- E. by apply H3.
Qed.

Lemma t_erase_ordered_at t ta l kv hc r e :
  ordered t → uniq t → subtree_at ta t = Some (Nd ta l kv hc r) →
  ordered (t_erase ta (fst kv) e t).1.1
  ∧ (t_erase ta (fst kv) e t).1.2 = true
  ∧ ∃ pre post, elems t = pre ++ kv :: post
                ∧ elems (t_erase ta (fst kv) e t).1.1 = pre ++ post.
Proof.
  intros Ho Hu Hs.
  destruct (t_erase_at t ta l kv hc r e Ho Hu Hs) as (t' & pre & post & Hc & Hcase).
  apply ordered_cells in Ho. rewrite Hc in Ho.
  destruct (is_leaf l || is_leaf r).
  - destruct Hcase as (-> & Hc'). simpl. split_and!; [|done|].
    + apply ordered_cells. rewrite Hc'.
      replace (pre ++ cells l ++ (ta, kv) :: cells r ++ post)
        with ((pre ++ cells l) ++ (ta, kv) :: (cells r ++ post)) in Ho
        by (by rewrite <- app_assoc).
      replace (pre ++ cells l ++ cells r ++ post)
        with ((pre ++ cells l) ++ (cells r ++ post)) by (by rewrite <- app_assoc).
      eapply sorted_remove. exact Ho.
    + exists (snd <$> (pre ++ cells l)), (snd <$> (cells r ++ post)).
      rewrite !elems_cells, Hc, Hc', !fmap_app. simpl. rewrite !fmap_app.
      by rewrite <- !app_assoc.
  - destruct Hcase as (sa & skv & rest & Hm & Hr & -> & Hc'). simpl.
    rewrite Hr in Ho, Hc. cbn [app] in Ho, Hc. split_and!; [|done|].
    + apply ordered_cells. rewrite Hc'.
      replace (pre ++ cells l ++ (ta, kv) :: (sa, skv) :: rest ++ post)
        with ((pre ++ cells l) ++ (ta, kv) :: ((sa, skv) :: rest ++ post)) in Ho
        by (by rewrite <- app_assoc).
      replace (pre ++ cells l ++ (ta, skv) :: rest ++ post)
        with ((pre ++ cells l) ++ (ta, skv) :: (rest ++ post)) by (by rewrite <- app_assoc).
      apply sorted_remove in Ho.
      eapply sorted_replace; [|exact Ho]. done.
    + exists (snd <$> (pre ++ cells l)), (snd <$> ((sa, skv) :: rest ++ post)).
      rewrite !elems_cells, Hc, Hc', !fmap_app. simpl. rewrite !fmap_app.
      by rewrite <- !app_assoc.
Qed.

Lemma rep_subtree m par t x s : rep m par t → subtree_at x t = Some s → ∃ par', rep m par' s.
Proof.
  revert par. induction t as [|a l IHl kv hc r IHr]; intros par; simpl; [done|].
  intros Hrep. pose proof Hrep as (Ha & Rl & Rr).
  destruct (decide (a = x)) as [->|]; [intros [= <-]; eauto|].
  destruct (subtree_at x l) as [s'|] eqn:E.
  - intros [= <-]. eauto.
  - eauto.
Qed.

End EraseOrdered.

(** ** The public operations on a map that satisfies its invariants *)

Arguments insertNode : simpl never.
Arguments eraseByNode : simpl never.
Arguments findNode_loop : simpl never.
Arguments minNode_loop : simpl never.
Arguments maxNode_loop : simpl never.
Arguments predecessor_climb : simpl never.
Arguments successor_climb : simpl never.
Arguments destroy : simpl never.
Arguments clone : simpl never.

Section Public.

Context {Key T : Type} `{!Compare Key} `{!Default T} `{!CompOrder Key}.
Implicit Types (s : state Key T) (t l r : tree Key T) (m : gmap addr (Node Key T)).

Lemma tree_of_fuel s t : tree_of s t → (depth t < S (size (mem s)))%nat.
Proof. intros [_ Hrep Hu _ _ _]. by eapply depth_lt_fuel. Qed.

Lemma findNode_run k s t :
  tree_of s t → with_fuel (λ f, findNode f k) s = Ok (t_find k t) s.
Proof.
  intros Ht. pose proof (tree_of_fuel _ _ Ht) as Hf.
  destruct Ht as [Hroot Hrep _ _ _ _]. destruct s as [m rt c]. simpl in *. subst rt.
  unfold with_fuel, findNode, bind, get_root. cbn [mem root].
  exact (findNode_loop_sim k (S (size m)) t m None (ptr t) c Hrep Hf).
Qed.

Lemma find_run this k s t :
  tree_of s t → find this k s = Ok (mkIter (t_find k t) (Some this)) s.
Proof. intros Ht. unfold find, bind. by rewrite (findNode_run k s t Ht). Qed.

Lemma minNode_run s t :
  tree_of s t → with_fuel (λ f, minNode f (root s)) s = Ok (fst <$> t_min t) s.
Proof.
  intros Ht. pose proof (tree_of_fuel _ _ Ht) as Hf.
  destruct Ht as [Hroot Hrep _ _ _ _]. destruct s as [m rt c]. simpl in *. subst rt.
  unfold with_fuel. cbn [mem]. destruct t as [|a l kv hc r]; [done|].
  cbn [ptr minNode]. eapply minNode_loop_sim; [done|lia].
Qed.

Lemma maxNode_run s t :
  tree_of s t → with_fuel (λ f, maxNode f (root s)) s = Ok (fst <$> t_max t) s.
Proof.
  intros Ht. pose proof (tree_of_fuel _ _ Ht) as Hf.
  destruct Ht as [Hroot Hrep _ _ _ _]. destruct s as [m rt c]. simpl in *. subst rt.
  unfold with_fuel. cbn [mem]. destruct t as [|a l kv hc r]; [done|].
  cbn [ptr maxNode]. eapply maxNode_loop_sim; [done|lia].
Qed.

(** What [insert] and [operator[]] share: lines 498-500 and 441-443. *)
Lemma insert_prefix_run {A} val s t (k : option addr → bool → M Key T A) :
  tree_of s t →
  ∃ m' t' b p,
    t_insert (fresh (dom (mem s))) val t = (t', b, p)
    ∧ bind get_root (λ q0,
        bind (with_fuel (λ f, insertNode f q0 None val)) (λ out,
          let '(q', inserted, ins) := out in
          bind (set_root q') (λ _,
            bind get_root (λ q1,
              bind (when_ptr q1 (set_parent q1 None)) (λ _, k ins inserted))))) s
      = k p b (mkState m' (ptr t') (if b then wrap (n s + 1) else n s))
    ∧ rep m' None t'
    ∧ frame (fresh (dom (mem s)) :: nodes t) (mem s) m'.
Proof.
  intros Ht. pose proof (tree_of_fuel _ _ Ht) as Hf.
  destruct Ht as [Hroot Hrep Hu Hh _ _]. destruct s as [m rt c]. simpl in *. subst rt.
  destruct (t_insert (fresh (dom m)) val t) as [[t' b] p] eqn:E.
  destruct (insertNode_sim val t (S (size m)) m None (ptr t) c t' b p Hrep Hu Hh Hf E)
    as (m1 & Hrun & R1 & F1).
  pose proof (fresh_not_in_nodes _ _ _ Hrep) as Hna.
  assert (uniq t') as Hu' by (exact (t_insert_uniq _ _ _ _ _ _ Hu Hna E)).
  destruct (set_parent_sim m1 None None t' (ptr t') (if b then wrap (c + 1) else c) R1 Hu')
    as (m2 & Hrun2 & R2 & F2 & _).
  exists m2, t', b, p. split; [done|]. split; [|split; [done|]].
  - cbn. unfold with_fuel. cbn [mem]. rewrite Hrun. cbn. cbn in Hrun2.
    by rewrite Hrun2.
  - eapply frame_trans; [exact F1|]. eapply frame_weaken; [exact F2|].
    intros z Hz. destruct (t_insert_nodes_incl _ _ _ _ _ _ E z Hz); set_solver.
Qed.

Lemma t_insert_tree_of s t val t' b p m' c' :
  tree_of s t → t_insert (fresh (dom (mem s))) val t = (t', b, p) →
  rep m' None t' → tree_of (mkState m' (ptr t') c') t'.
Proof.
  intros [Hroot Hrep Hu Hh Hb Ho] E R'.
  pose proof (fresh_not_in_nodes _ _ _ Hrep) as Hna.
  pose proof (t_insert_avl (fresh (dom (mem s))) val t Hh Hb) as (H1 & H2 & _).
  pose proof (t_insert_ordered (fresh (dom (mem s))) val t Ho) as H3.
  rewrite E in H1, H2, H3. simpl in *.
  split; try done. exact (t_insert_uniq _ _ _ _ _ _ Hu Hna E).
Qed.

Lemma insert_run this val s t :
  tree_of s t →
  ∃ m' t' b p,
    t_insert (fresh (dom (mem s))) val t = (t', b, p)
    ∧ insert this val s
      = Ok (mkIter p (Some this), b)
           (mkState m' (ptr t') (if b then wrap (n s + 1) else n s))
    ∧ tree_of (mkState m' (ptr t') (if b then wrap (n s + 1) else n s)) t'
    ∧ frame (fresh (dom (mem s)) :: nodes t) (mem s) m'.
Proof.
  intros Ht.
  destruct (insert_prefix_run val s t
              (λ ins inserted, ret (mkIter ins (Some this), inserted)) Ht)
    as (m' & t' & b & p & E & Hrun & R' & F).
  exists m', t', b, p. split; [done|]. split; [exact Hrun|]. split; [|done].
  by eapply t_insert_tree_of.
Qed.

(** [erase] at a position whose node is live. *)
Lemma erase_run this s t ta tnd :
  tree_of s t → mem s !! ta = Some tnd →
  ∃ m' t' e f,
    t_erase ta (fst (value tnd)) false t = (t', e, f)
    ∧ erase this (mkIter (Some ta) (Some this)) s
      = (if e then Ok tt else Throw invalid_iterator)
          (mkState m' (ptr t') (match f with Some _ => wrap (n s - 1) | None => n s end))
    ∧ rep m' None t'
    ∧ frame (nodes t) (mem s) m'
    ∧ (∀ fa, f = Some fa → m' !! fa = None).
Proof.
  intros Ht Hta. pose proof (tree_of_fuel _ _ Ht) as Hf.
  destruct Ht as [Hroot Hrep Hu Hh _ _]. destruct s as [m rt c]. simpl in *. subst rt.
  destruct (t_erase ta (fst (value tnd)) false t) as [[t' e] f] eqn:E.
  destruct (eraseByNode_sim t (S (size m)) m None (ptr t) c ta tnd false t' e f
              Hrep Hu Hh Hf Hta E) as (m1 & par1 & Hrun & R1 & F1 & G1).
  destruct (t_erase_uniq _ _ _ _ _ _ _ Hu E) as (Hu' & Hfa).
  destruct (set_parent_sim m1 par1 None t' (ptr t')
              (match f with Some _ => wrap (c - 1) | None => c end) R1 Hu')
    as (m2 & Hrun2 & R2 & F2 & _).
  exists m2, t', e, f. split; [done|]. split; [|split; [done|split]].
  - unfold erase. rewrite decide_False by (intros [?|?]; done).
    cbn. unfold with_fuel. cbn [mem]. rewrite Hrun. cbn. cbn in Hrun2.
    rewrite Hrun2. by destruct e.
  - eapply frame_trans; [exact F1|]. eapply frame_weaken; [exact F2|].
    intros z Hz. by eapply t_erase_nodes_incl.
  - intros fa Hf'. destruct (Hfa fa Hf') as (_ & Hn). rewrite F2 by done. by apply G1.
Qed.

Lemma t_erase_tree_of s t ta tnd t' e f m' c' :
  tree_of s t → mem s !! ta = Some tnd →
  t_erase ta (fst (value tnd)) false t = (t', e, f) →
  rep m' None t' →
  tree_of (mkState m' (ptr t') c') t'
  ∧ (ta ∈ nodes t →
     e = true ∧ ∃ pre post, elems t = pre ++ value tnd :: post ∧ elems t' = pre ++ post)
  ∧ (ta ∉ nodes t → e = false ∧ f = None ∧ cells t' = cells t).
Proof.
  intros [Hroot Hrep Hu Hh Hb Ho] Hta E R'.
  destruct (t_erase_uniq _ _ _ _ _ _ _ Hu E) as (Hu' & _).
  pose proof (t_erase_avl ta (fst (value tnd)) false t Hh Hb) as (H1 & H2 & _).
  rewrite E in H1, H2. simpl in H1, H2.
  assert (ta ∈ nodes t →
          ordered t' ∧ e = true
          ∧ ∃ pre post, elems t = pre ++ value tnd :: post ∧ elems t' = pre ++ post) as Hin.
  { intros Hx. destruct (in_nodes_subtree _ _ Hx) as (sub & Hs).
    destruct (subtree_at_root _ _ _ Hs) as (l & kv & hc & r & ->).
    destruct (rep_subtree _ _ _ _ _ Hrep Hs) as (par' & (Hc & _)).
    assert (value tnd = kv) as <- by (rewrite Hta in Hc; by injection Hc as ->).
    pose proof (t_erase_ordered_at t ta l (value tnd) hc r false Ho Hu Hs) as H.
    by rewrite E in H. }
  assert (ta ∉ nodes t → ordered t' ∧ e = false ∧ f = None ∧ cells t' = cells t) as Hout.
  { intros Hx. pose proof (t_erase_notin ta (fst (value tnd)) false t Hx) as (He & Hf).
    pose proof (t_erase_notin_cells ta (fst (value tnd)) false t Hx) as Hc.
    rewrite E in He, Hf, Hc. simpl in *. split_and!; try done.
    apply ordered_cells. rewrite Hc. by apply ordered_cells. }
  split; [|split].
  - split; try done. destruct (decide (ta ∈ nodes t)) as [Hx|Hx].
    + by destruct (Hin Hx).
    + by destruct (Hout Hx).
  - intros Hx. by destruct (Hin Hx) as (_ & ? & ?).
  - intros Hx. by destruct (Hout Hx) as (_ & ? & ? & ?).
Qed.

End Public.

(** ** The public interface on well-formed states *)

Section Interface.

Context {Key T : Type} `{!Compare Key} `{!Default T} `{!CompOrder Key}.
Implicit Types (s : state Key T) (t l r : tree Key T) (m : gmap addr (Node Key T)).

Lemma has_key_cells k t :
  has_key k t ↔ ∃ c, c ∈ cells t ∧ equiv_key k (ckey c).
Proof.
  unfold has_key. rewrite elems_cells. split.
  - intros (kv & (c & -> & Hc)%list_elem_of_fmap & He). by exists c.
  - intros (c & Hc & He). exists c.2. split; [|done].
    apply list_elem_of_fmap. by exists c.
Qed.

Lemma t_find_absent k t : ordered t → (t_find k t = None ↔ ¬ has_key k t).
Proof.
  intros Ho. rewrite has_key_cells. split.
  - intros Hf (c & Hc & He). by apply (t_find_None k t Ho Hf c Hc).
  - intros Hn. destruct (t_find k t) as [a|] eqn:E; [|done].
    destruct (t_find_Some _ _ _ E) as (kv & Hc & He).
    exfalso. apply Hn. by exists (a, kv).
Qed.

Lemma t_find_present k t :
  ordered t → has_key k t →
  ∃ a kv, t_find k t = Some a ∧ (a, kv) ∈ cells t ∧ equiv_key k (fst kv).
Proof.
  intros Ho Hk. destruct (t_find k t) as [a|] eqn:E.
  - destruct (t_find_Some _ _ _ E) as (kv & Hc & He). eauto.
  - by apply t_find_absent in E.
Qed.

(** A duplicate [insert] writes nothing. *)
Lemma insert_found_run this val s t a :
  tree_of s t → t_find (fst val) t = Some a →
  insert this val s = Ok (mkIter (Some a) (Some this), false) s.
Proof.
  intros Ht Hfind. pose proof (tree_of_fuel _ _ Ht) as Hf.
  destruct Ht as [Hroot Hrep Hu Hh Hb Ho]. destruct s as [m rt c]. simpl in *. subst rt.
  unfold insert. cbn. unfold with_fuel. cbn [mem].
  rewrite (insertNode_found_id val t (S (size m)) m None (ptr t) c a Hrep Hh Hb Hf Hfind).
  cbn. destruct t as [|b l kv hc r]; [done|].
  destruct Hrep as (Hb' & _). cbn. rewrite Hb'. cbn.
  by rewrite insert_id.
Qed.

Lemma at_run k s t :
  tree_of s t →
  at_ k s = match t_find k t with
            | Some a => Ok (Some a) s
            | None => Throw index_out_of_bound s
            end.
Proof.
  intros Ht. unfold at_, bind. rewrite (findNode_run k s t Ht).
  by destruct (t_find k t).
Qed.

Lemma index_const_run k s t :
  tree_of s t →
  index_const k s = match t_find k t with
                    | Some a => Ok (Some a) s
                    | None => Throw index_out_of_bound s
                    end.
Proof.
  intros Ht. unfold index_const, bind. rewrite (findNode_run k s t Ht).
  by destruct (t_find k t).
Qed.

Lemma index_found_run k s t a :
  tree_of s t → t_find k t = Some a → index k s = Ok (Some a) s.
Proof.
  intros Ht Hf. unfold index, bind at 1. rewrite (findNode_run k s t Ht), Hf. done.
Qed.

Lemma index_absent_run k s t :
  tree_of s t → t_find k t = None →
  ∃ m' t',
    t_insert (fresh (dom (mem s))) (k, T_default) t = (t', true, Some (fresh (dom (mem s))))
    ∧ index k s = Ok (Some (fresh (dom (mem s)))) (mkState m' (ptr t') (wrap (n s + 1)))
    ∧ tree_of (mkState m' (ptr t') (wrap (n s + 1))) t'
    ∧ frame (fresh (dom (mem s)) :: nodes t) (mem s) m'.
Proof.
  intros Ht Hf.
  destruct (insert_prefix_run (k, T_default) s t
              (λ ins _, bind (load ins) (λ _, ret ins)) Ht)
    as (m' & t' & b & p & E & Hrun & R' & F).
  pose proof (t_insert_find (fresh (dom (mem s))) (k, T_default) t) as Hi.
  simpl in Hi. rewrite Hf in Hi. destruct Hi as (t'' & Hi).
  rewrite Hi in E. injection E as <- <- <-.
  exists m', t''. split; [done|]. split; [|split; [|done]].
  - unfold index, bind at 1. rewrite (findNode_run k s t Ht), Hf.
    cbv zeta. etrans; [exact Hrun|].
    destruct (t_insert_cells _ _ _ _ _ (to_ord _ _ Ht) Hi) as (pre & post & _ & Hc & _).
    assert ((fresh (dom (mem s)), (k, T_default)) ∈ cells t'') as Hin
      by (rewrite Hc; set_solver).
    destruct (rep_cell _ _ _ _ _ R' Hin) as (nd & Hnd & _).
    cbn. by rewrite Hnd.
  - by eapply t_insert_tree_of.
Qed.

Lemma begin_run this s t :
  tree_of s t → begin_ this s = Ok (mkIter (fst <$> t_min t) (Some this)) s.
Proof.
  intros Ht. unfold begin_. unfold bind at 1. cbn [get_root].
  unfold bind. by rewrite (minNode_run s t Ht).
Qed.

(** [clear] frees every node of the tree and nothing else. *)
Lemma clear_run s t :
  tree_of s t →
  ∃ m', clear s = Ok tt (mkState m' None 0)
        ∧ frame (nodes t) (mem s) m' ∧ ∀ a, a ∈ nodes t → m' !! a = None.
Proof.
  intros Ht. pose proof (tree_of_fuel _ _ Ht) as Hf.
  destruct Ht as [Hroot Hrep Hu _ _ _]. destruct s as [m rt c]. simpl in *. subst rt.
  destruct (destroy_sim t (S (size m)) m None (ptr t) c Hrep Hu Hf) as (m' & Hrun & F & G).
  exists m'. split; [|done].
  unfold clear. cbn. unfold with_fuel. cbn [mem]. rewrite Hrun. done.
Qed.

Lemma tree_of_Leaf m c : tree_of (mkState m None c) (Leaf : tree Key T).
Proof.
  split; simpl; try done.
  - apply NoDup_nil_2.
  - constructor.
Qed.

(** Lines 386-390 (and 401-405): [clone], then the two parent links of the
    root's children are written once more. *)
Lemma copy_from_run t : ∀ m par0 rt c c2,
  rep m par0 t → uniq t →
  ∃ m' t',
    copy_from (ptr t) c2 (mkState m rt c) = Ok tt (mkState m' (ptr t') c2)
    ∧ rep m' None t' ∧ same_shape t t' ∧ uniq t'
    ∧ (∀ a, a ∈ nodes t' → m !! a = None)
    ∧ extends m m'.
Proof.
  intros m par0 rt c c2 Hrep Hu.
  pose proof (depth_lt_fuel _ _ _ Hrep Hu) as Hf.
  destruct (clone_sim t (S (size m)) m par0 None rt c Hrep Hf)
    as (m1 & t1 & Hrun & R1 & Hs & U1 & Hfresh & Hext).
  unfold copy_from. unfold bind at 1. unfold with_fuel. cbn [mem]. rewrite Hrun.
  destruct t1 as [|a l kv hc r].
  { exists m1, Leaf. split; [done|]. split_and!; done. }
  pose proof R1 as (Ha & Rl & Rr).
  pose proof U1 as (Ul & Ur & Hal & Har & Hlr)%uniq_Nd.
  cbn. rewrite Ha. cbn.
  destruct (set_parent_sim m1 (Some a) (Some a) l (Some a) c2 Rl Ul)
    as (m2 & Hrun2 & Rl2 & F2 & D2).
  rewrite Hrun2. cbn.
  assert (m2 !! a = Some (mkNode kv (ptr l) (ptr r) None hc)) as Ha2.
  { rewrite (F2 a); done. }
  assert (rep m2 (Some a) r) as Rr2.
  { eapply rep_frame_disj; [exact Rr|exact F2|done]. }
  rewrite Ha2. cbn.
  destruct (set_parent_sim m2 (Some a) (Some a) r (Some a) c2 Rr2 Ur)
    as (m3 & Hrun3 & Rr3 & F3 & D3).
  rewrite Hrun3.
  exists m3, (Nd a l kv hc r). split; [done|]. split_and!; try done.
  - split; [|split; [|done]].
    + rewrite (F3 a); done.
    + eapply rep_frame_disj; [exact Rl2|exact F3|]. by apply disj_sym.
  - intros b Hb. specialize (Hext b Hb).
    assert (b ∉ nodes (Nd a l kv hc r)) as Hnb.
    { intros Hin. apply Hfresh in Hin. destruct Hb as [? Hb]. congruence. }
    simpl in Hnb. rewrite (F3 b), (F2 b); [done| |]; set_solver.
Qed.

Lemma same_shape_tree_of t t' m c :
  same_shape t t' → hok t → balanced t → ordered t → uniq t' → rep m None t' →
  tree_of (mkState m (ptr t') c) t'.
Proof.
  intros Hs Hh Hb Ho Hu Hr. split; simpl; try done.
  - by eapply same_shape_hok.
  - by eapply same_shape_balanced.
  - unfold ordered, keys in *. by rewrite (same_shape_elems _ _ Hs).
Qed.

(** The copy constructor. *)
Lemma map_copy_run s t :
  tree_of s t →
  ∃ m' t',
    map_copy s = Ok tt (mkState m' (ptr t') (n s))
    ∧ tree_of (mkState m' (ptr t') (n s)) t'
    ∧ same_shape t t'
    ∧ (∀ a, a ∈ nodes t' → mem s !! a = None)
    ∧ extends (mem s) m'.
Proof.
  intros [Hroot Hrep Hu Hh Hb Ho]. unfold map_copy, map_new. rewrite Hroot.
  destruct (copy_from_run t (mem s) None None 0 (n s) Hrep Hu)
    as (m' & t' & Hrun & R' & Hs & U' & Hfresh & Hext).
  exists m', t'. split; [done|]. split; [|done].
  by eapply same_shape_tree_of.
Qed.

(** The copy assignment, for another object whose tree [t2] lives in the
    same store, apart from the tree of [*this]. *)
Lemma map_assign_run this other s t t2 c2 :
  this ≠ other →
  tree_of s t → tree_of (mkState (mem s) (ptr t2) c2) t2 → disj (nodes t) (nodes t2) →
  ∃ m' t',
    map_assign this other (ptr t2) c2 s = Ok tt (mkState m' (ptr t') c2)
    ∧ tree_of (mkState m' (ptr t') c2) t'
    ∧ same_shape t2 t'
    ∧ rep m' None t2.
Proof.
  intros Hne Ht [_ Hrep2 Hu2 Hh2 Hb2 Ho2] Hd. simpl in *.
  destruct (clear_run s t Ht) as (m1 & Hrun1 & F1 & G1).
  assert (rep m1 None t2) as R1 by (eapply rep_frame_disj; [exact Hrep2|exact F1|exact Hd]).
  destruct (copy_from_run t2 m1 None None 0 c2 R1 Hu2)
    as (m' & t' & Hrun & R' & Hs & U' & Hfresh & Hext).
  exists m', t'. split; [|split; [|split; [done|]]].
  - unfold map_assign. rewrite decide_False by done.
    unfold bind. rewrite Hrun1. exact Hrun.
  - by eapply same_shape_tree_of.
  - by eapply rep_extends.
Qed.

Lemma map_assign_self this q c s : map_assign this this q c s = Ok tt s.
Proof. unfold map_assign. by rewrite decide_True. Qed.

(** [erase] refuses a position of another container and the past-the-end
    position before it touches anything. *)
Lemma erase_bad_pos this pos s :
  owner pos ≠ Some this ∨ cur pos = None → erase this pos s = Throw invalid_iterator s.
Proof. intros H. unfold erase. by rewrite decide_True. Qed.

(** A position whose node is not live: on the empty tree nothing is read; on
    any other tree the comparison reads the freed node. *)
Lemma erase_dangling this s t ta :
  tree_of s t → mem s !! ta = None →
  erase this (mkIter (Some ta) (Some this)) s
  = match t with Leaf => Throw invalid_iterator s | Nd _ _ _ _ _ => Stuck end.
Proof.
  intros [Hroot Hrep _ _ _ _] Hta. destruct s as [m rt c]. simpl in *. subst rt.
  unfold erase. rewrite decide_False by (simpl; intros [?|?]; done).
  cbn. unfold with_fuel. cbn [mem]. destruct t as [|a l kv hc r]; [done|].
  destruct Hrep as (Ha & _).
  cbn [ptr]. unfold eraseByNode. rewrite decide_False by (intros [= ->]; congruence).
  cbn. by rewrite Hta.
Qed.

(** [operator--(int)] is [operator--()] that also hands back the old
    position. *)
Lemma iter_post_dec_pre it s :
  iter_post_dec it s
  = match iter_pre_dec it s with
    | Ok it' s' => Ok (it, it') s'
    | Throw e s' => Throw e s'
    | Stuck => Stuck
    end.
Proof.
  destruct it as [[a|] [o|]]; unfold iter_post_dec, iter_pre_dec; cbn [owner cur];
    try done; unfold bind, get_root.
  - destruct (with_fuel _ s) as [q s'| |]; try done.
    destruct (decide _); try done. unfold throw. by destruct (with_fuel _ s').
  - destruct (root s); [|done]. by destruct (with_fuel _ s).
Qed.

Lemma iter_pre_dec_end this s t rest a kv :
  tree_of s t → cells t = rest ++ [(a, kv)] →
  iter_pre_dec (mkIter None (Some this)) s = Ok (mkIter (Some a) (Some this)) s.
Proof.
  intros Ht Hc. pose proof (maxNode_run s t Ht) as Hrun.
  assert (nodes t = (fst <$> rest) ++ [a]) as Hn.
  { by rewrite nodes_cells, Hc, fmap_app. }
  destruct (t_max_nodes _ _ _ Hn) as (kv' & Hmax). rewrite Hmax in Hrun.
  unfold iter_pre_dec. cbn [owner cur]. unfold bind at 1. cbn [get_root].
  rewrite (to_root _ _ Ht) in *. destruct t as [|b l bkv hc r]; [by destruct rest|].
  cbn [ptr] in *. unfold bind. by rewrite Hrun.
Qed.

Lemma iter_pre_dec_min this s t a kv rest :
  tree_of s t → cells t = (a, kv) :: rest →
  iter_pre_dec (mkIter (Some a) (Some this)) s = Throw invalid_iterator s.
Proof.
  intros Ht Hc. pose proof (minNode_run s t Ht) as Hrun.
  assert (nodes t = a :: (fst <$> rest)) as Hn by (by rewrite nodes_cells, Hc).
  destruct (t_min_nodes _ _ _ Hn) as (kv' & Hmin). rewrite Hmin in Hrun.
  unfold iter_pre_dec. cbn [owner cur]. unfold bind at 1. cbn [get_root].
  unfold bind at 1. rewrite Hrun. cbn [fmap option_fmap option_map fst].
  by rewrite decide_True.
Qed.

Lemma iter_pre_dec_mid this s t pre y ykv x xkv post :
  tree_of s t → cells t = pre ++ (y, ykv) :: (x, xkv) :: post →
  iter_pre_dec (mkIter (Some x) (Some this)) s = Ok (mkIter (Some y) (Some this)) s.
Proof.
  intros Ht Hc. pose proof (minNode_run s t Ht) as Hrun.
  pose proof (tree_of_fuel _ _ Ht) as Hf.
  pose proof Ht as [Hroot Hrep Hu _ _ _].
  assert (nodes t = (fst <$> pre) ++ y :: x :: (fst <$> post)) as Hn.
  { by rewrite nodes_cells, Hc, fmap_app. }
  assert (fst <$> t_min t ≠ Some x) as Hmin.
  { destruct t as [|b l bkv hc r]; [done|].
    destruct (t_min_Nd b l bkv hc r) as ([z zkv] & Hm). rewrite Hm. simpl.
    intros [= ->]. destruct (t_min_cells _ _ Hm) as (rest & Hc').
    unfold uniq in Hu. rewrite Hn in Hu. rewrite Hc in Hc'.
    destruct pre as [|p pre]; simpl in *.
    - injection Hc' as -> _ _. apply NoDup_cons in Hu as (Hu & _). set_solver.
    - injection Hc' as -> _. apply NoDup_cons in Hu as (Hu & _). set_solver. }
  unfold iter_pre_dec. cbn [owner cur]. unfold bind at 1. cbn [get_root].
  unfold bind at 1. rewrite Hrun.
  rewrite decide_False by (intros E; by rewrite <- E in Hmin).
  unfold bind, with_fuel. destruct s as [m rt c]. cbn [mem] in *.
  rewrite (predecessor_sim t m None (S (size m)) x y (fst <$> pre) (fst <$> post) rt c
             Hrep Hu Hn) by lia.
  done.
Qed.

(** ** What the order says about a listing *)

Lemma cells_last_max t rest c :
  ordered t → cells t = rest ++ [c] → Forall (λ d, lt (ckey d) (ckey c)) rest.
Proof.
  intros Ho%ordered_cells Hc. rewrite Hc in Ho.
  apply StronglySorted_app in Ho as (Ho & _ & _).
  apply Forall_forall. intros d Hd. apply Ho; [done|set_solver].
Qed.

Lemma cells_head_min t c rest :
  ordered t → cells t = c :: rest → Forall (λ d, lt (ckey c) (ckey d)) rest.
Proof.
  intros Ho%ordered_cells Hc. rewrite Hc in Ho.
  by apply StronglySorted_cons in Ho as (Ho & _).
Qed.

Lemma sorted_lookup_lt (ks : list Key) i j x y :
  StronglySorted lt ks → ks !! i = Some x → ks !! j = Some y → (i < j)%nat → lt x y.
Proof.
  intros Hs. revert i j. induction Hs as [|k ks Hs IH Hk]; intros i j; [done|].
  destruct i as [|i], j as [|j]; simpl; try lia.
  - intros [= ->] Hy _. rewrite Forall_forall in Hk. apply Hk.
    by eapply list_elem_of_lookup_2.
  - intros Hx Hy Hij. apply (IH i j); [done..|lia].
Qed.

(** In an ascending listing no two places hold equivalent keys. *)
Lemma sorted_no_equiv (ks : list Key) i j x y :
  StronglySorted lt ks → ks !! i = Some x → ks !! j = Some y → equiv_key x y → i = j.
Proof.
  intros Hs Hx Hy [E1 E2].
  destruct (Nat.lt_trichotomy i j) as [Hij|[->|Hij]]; [|done|].
  - pose proof (sorted_lookup_lt _ _ _ _ _ Hs Hx Hy Hij) as Hlt.
    unfold lt in Hlt. congruence.
  - pose proof (sorted_lookup_lt _ _ _ _ _ Hs Hy Hx Hij) as Hlt.
    unfold lt in Hlt. congruence.
Qed.

(** Under a strict weak order: once an element is taken out of an ascending
    listing, nothing that is left is equivalent to a key equivalent to
    it. *)
Lemma removed_key_absent `{!CompWeakOrder Key} k (kv : Key * T) pre post :
  StronglySorted lt (fst <$> (pre ++ kv :: post)) → equiv_key k (fst kv) →
  ∀ kv', kv' ∈ pre ++ post → ¬ equiv_key k (fst kv').
Proof.
  rewrite fmap_app, fmap_cons. intros Hs [E1 E2] kv' Hin [E3 E4].
  apply StronglySorted_app in Hs as (Hpre & _ & Hs).
  apply StronglySorted_cons in Hs as (Hpost & _). rewrite Forall_forall in Hpost.
  apply elem_of_app in Hin as [Hin|Hin].
  - assert (lt (fst kv') (fst kv)) as Hlt.
    { apply Hpre; [|set_solver]. apply list_elem_of_fmap. eauto. }
    destruct (comp_cotrans _ _ k Hlt); congruence.
  - assert (lt (fst kv) (fst kv')) as Hlt.
    { apply Hpost. apply list_elem_of_fmap. eauto. }
    destruct (comp_cotrans _ _ k Hlt); congruence.
Qed.

(** A store holds at most one tree below a given root pointer. *)
Lemma rep_inj m t : ∀ par par' t', rep m par t → rep m par' t' → ptr t = ptr t' → t = t'.
Proof.
  induction t as [|a l IHl kv hc r IHr]; intros par par' [|a' l' kv' hc' r']; simpl;
    try done.
  intros (Ha & Rl & Rr) (Ha' & Rl' & Rr') [= <-].
  rewrite Ha in Ha'. injection Ha' as <- Hl Hr _ <-.
  by rewrite (IHl _ _ _ Rl Rl' Hl), (IHr _ _ _ Rr Rr' Hr).
Qed.

Lemma tree_of_inj s t t' : tree_of s t → tree_of s t' → t' = t.
Proof.
  intros [Hroot Hrep _ _ _ _] [Hroot' Hrep' _ _ _ _].
  eapply rep_inj; [exact Hrep'|exact Hrep|congruence].
Qed.

Lemma tree_of_empty s t : tree_of s t → counted s t → (n s =? 0) = is_leaf t.
Proof.
  intros _ (Hn & _). destruct t as [|a l kv hc r]; simpl in *.
  - rewrite Hn. done.
  - rewrite Hn, length_app. simpl. apply Z.eqb_neq. lia.
Qed.

End Interface.

(** * The claims *)

Section Claims.

Context {Key T : Type} `{!Compare Key} `{!Default T} `{!CompOrder Key}.
Implicit Types (s : state Key T) (t l r : tree Key T) (m : gmap addr (Node Key T)).

Lemma subtree_at_uniq x t sub : uniq t → subtree_at x t = Some sub → uniq sub.
Proof.
  unfold uniq. intros Hu (pre & post & Hc)%subtree_at_cells.
  rewrite !nodes_cells in *. rewrite Hc, !fmap_app in Hu.
  apply NoDup_app in Hu as (_ & _ & Hu). by apply NoDup_app in Hu as (Hu & _).
Qed.

Lemma wrap_small z : 0 ≤ z < size_max → wrap z = z.
Proof. intros H. unfold wrap. by apply Z.mod_small. Qed.

(** ** C1 *)

(** C1.  Erasing a position whose node has two children: the in-order
    successor is the leftmost node of the right subtree ([minNode] of the
    right child finds it, and it is the next cell of the listing); the
    target node stays allocated at its address and now holds the
    successor's key and value; the successor's node is the one that is
    freed, no other node is freed or allocated; the count goes down by
    exactly one. *)
Theorem erase_two_children_frees_successor (this : mapid) s t ta nd la ra :
  tree_of s t → counted s t → ta ∈ nodes t →
  mem s !! ta = Some nd → left nd = Some la → right nd = Some ra →
  ∃ sa snd s' nd' t',
    with_fuel (λ f, minNode f (Some ra)) s = Ok (Some sa) s
    ∧ mem s !! sa = Some snd
    ∧ erase this (mkIter (Some ta) (Some this)) s = Ok tt s'
    ∧ mem s' !! ta = Some nd' ∧ value nd' = value snd
    ∧ mem s' !! sa = None
    ∧ (∀ b, b ≠ sa → is_Some (mem s' !! b) ↔ is_Some (mem s !! b))
    ∧ n s' = n s - 1
    ∧ tree_of s' t' ∧ counted s' t'
    ∧ ∃ pre post,
        cells t = pre ++ (ta, value nd) :: (sa, value snd) :: post
        ∧ cells t' = pre ++ (ta, value snd) :: post.
Proof.
  intros Ht (Hn & Hmax) Hin Hnd Hla Hra.
  pose proof Ht as [Hroot Hrep Hu Hh Hb Ho].
  destruct (in_nodes_subtree _ _ Hin) as (sub & Hs).
  destruct (subtree_at_root _ _ _ Hs) as (l & kv & hc & r & ->).
  destruct (rep_subtree _ _ _ _ _ Hrep Hs) as (par' & Rsub).
  pose proof Rsub as (Hc & Rl & Rr).
  rewrite Hnd in Hc. injection Hc as ->. simpl in Hla, Hra.
  destruct l as [|la' ll lkv lhc lr]; [done|]. destruct r as [|ra' rl rkv rhc rr]; [done|].
  simpl in Hla, Hra. injection Hla as ->. injection Hra as ->.
  destruct (t_erase_at t ta _ _ _ _ false Ho Hu Hs) as (t' & pre & post & Hcells & Hcase).
  cbn [is_leaf orb] in Hcase.
  destruct Hcase as (sa & skv & rest & Hmin & Hrcells & Herase & Hcells').
  assert ((sa, skv) ∈ cells (Nd ra rl rkv rhc rr)) as Hsin by (rewrite Hrcells; set_solver).
  destruct (rep_cell _ _ _ _ _ Rr Hsin) as (snd & Hsnd & Hsv).
  destruct (erase_run this s t ta _ Ht Hnd) as (m' & t'' & e & f & E & Hrun & R' & F & G).
  simpl in E. rewrite Herase in E. injection E as <- <- <-.
  destruct (t_erase_tree_of s t ta _ t' true (Some sa) m' (wrap (n s - 1)) Ht Hnd Herase R')
    as (Ht' & _ & _).
  pose proof (t_erase_nodes _ _ _ _ _ _ _ Herase) as Hperm. simpl in Hperm.
  assert (uniq (Nd ra rl rkv rhc rr)) as Ur.
  { pose proof (subtree_at_uniq _ _ _ Hu Hs) as (_ & Ur & _)%uniq_Nd. done. }
  assert (1 ≤ n s) as Hpos.
  { rewrite Hn. destruct (nodes t); [by apply elem_of_nil in Hin|simpl; lia]. }
  assert (wrap (n s - 1) = n s - 1) as Hw by (apply wrap_small; lia).
  assert ((ta, skv) ∈ cells t') as Hta' by (rewrite Hcells'; set_solver).
  destruct (rep_cell _ _ _ _ _ R' Hta') as (nd' & Hnd' & Hv').
  exists sa, snd, (mkState m' (ptr t') (wrap (n s - 1))), nd', t'.
  split_and!.
  - pose proof (depth_lt_fuel _ _ _ Rr Ur) as Hd. clear -Rr Hd Hmin.
    destruct s as [m rt c]. unfold with_fuel. cbn [minNode mem] in *.
    rewrite (minNode_loop_sim _ ra rl rkv rhc rr m (Some ta) rt c Rr) by lia.
    by rewrite Hmin.
  - done.
  - exact Hrun.
  - done.
  - simpl. congruence.
  - by apply G.
  - intros b Hb'. simpl. destruct (decide (b ∈ nodes t)) as [Hbt|Hbt].
    + split; intros _; [exact (rep_dom _ _ _ _ Hrep Hbt)|].
      apply (rep_dom _ _ _ _ R'). rewrite Hperm in Hbt. set_solver.
    + by rewrite F.
  - done.
  - done.
  - split; simpl; [|lia]. rewrite Hw, Hn.
    apply Permutation_length in Hperm. simpl in Hperm. lia.
  - exists (pre ++ cells (Nd la ll lkv lhc lr)), (rest ++ post). rewrite Hsv.
    rewrite Hcells, Hcells', Hrcells. by rewrite <- !app_assoc.
Qed.

(** ** C2 *)

(** C2.  On a well-formed map each of insert, erase, operator[], the copy
    constructor, the copy assignment and clear completes, and leaves a tree
    in which, at every node, the heights of the two subtrees differ by at
    most one ([balanced]) and the cached height is one more than the larger
    of the children's true heights ([hok]).  (An erase that throws leaves
    such a tree too.) *)
Theorem avl_shape_after_public_operations (this : mapid) s t :
  tree_of s t →
  (∀ val, ∃ res s' t',
      insert this val s = Ok res s' ∧ tree_of s' t' ∧ hok t' ∧ balanced t')
  ∧ (∀ pos, (∀ a, cur pos = Some a → is_Some (mem s !! a)) →
      ∃ s' t',
        (erase this pos s = Ok tt s' ∨ erase this pos s = Throw invalid_iterator s')
        ∧ tree_of s' t' ∧ hok t' ∧ balanced t')
  ∧ (∀ k, ∃ res s' t',
      index k s = Ok res s' ∧ tree_of s' t' ∧ hok t' ∧ balanced t')
  ∧ (∃ s' t',
      map_copy s = Ok tt s' ∧ tree_of s' t' ∧ hok t' ∧ balanced t'
      ∧ elems t' = elems t ∧ rep (mem s') None t)
  ∧ (∀ other t2 c2,
      this ≠ other →
      tree_of (mkState (mem s) (ptr t2) c2) t2 → disj (nodes t) (nodes t2) →
      ∃ s' t',
        map_assign this other (ptr t2) c2 s = Ok tt s'
        ∧ tree_of s' t' ∧ hok t' ∧ balanced t'
        ∧ elems t' = elems t2 ∧ rep (mem s') None t2)
  ∧ map_assign this this (root s) (n s) s = Ok tt s
  ∧ (∃ s', clear s = Ok tt s' ∧ tree_of s' Leaf).
Proof.
  intros Ht. split_and!.
  - intros val.
    destruct (insert_run this val s t Ht) as (m' & t' & b & p & _ & Hrun & Ht' & _).
    eexists _, _, t'. split; [exact Hrun|].
    split; [done|]. split; [exact (to_hok _ _ Ht')|exact (to_bal _ _ Ht')].
  - intros [[ta|] o] Hlive; simpl in Hlive.
    + destruct (decide (o = Some this)) as [->|Ho].
      * destruct (Hlive ta eq_refl) as (tnd & Hnd).
        destruct (erase_run this s t ta tnd Ht Hnd) as (m' & t' & e & f & E & Hrun & R' & _).
        destruct (t_erase_tree_of s t ta tnd t' e f m'
                    (match f with Some _ => wrap (n s - 1) | None => n s end) Ht Hnd E R')
          as (Ht' & _).
        eexists _, t'. split; [|split; [exact Ht'|]].
        -- destruct e; [left|right]; exact Hrun.
        -- split; [exact (to_hok _ _ Ht')|exact (to_bal _ _ Ht')].
      * exists s, t. split; [right; apply erase_bad_pos; by left|].
        split; [done|]. split; [exact (to_hok _ _ Ht)|exact (to_bal _ _ Ht)].
    + exists s, t. split; [right; apply erase_bad_pos; by right|].
      split; [done|]. split; [exact (to_hok _ _ Ht)|exact (to_bal _ _ Ht)].
  - intros k. destruct (t_find k t) as [a|] eqn:E.
    + exists (Some a), s, t. split; [by eapply index_found_run|].
      split; [done|]. split; [exact (to_hok _ _ Ht)|exact (to_bal _ _ Ht)].
    + destruct (index_absent_run k s t Ht E) as (m' & t' & _ & Hrun & Ht' & _).
      eexists _, _, t'. split; [exact Hrun|].
      split; [done|]. split; [exact (to_hok _ _ Ht')|exact (to_bal _ _ Ht')].
  - destruct (map_copy_run s t Ht) as (m' & t' & Hrun & Ht' & Hs & _ & Hext).
    eexists _, t'. split; [exact Hrun|]. split; [done|].
    split; [exact (to_hok _ _ Ht')|]. split; [exact (to_bal _ _ Ht')|].
    split; [by apply same_shape_elems|].
    simpl. eapply rep_extends; [exact (to_rep _ _ Ht)|done].
  - intros other t2 c2 Hne Ht2 Hd.
    destruct (map_assign_run this other s t t2 c2 Hne Ht Ht2 Hd)
      as (m' & t' & Hrun & Ht' & Hs & R2).
    eexists _, t'. split; [exact Hrun|]. split; [done|].
    split; [exact (to_hok _ _ Ht')|]. split; [exact (to_bal _ _ Ht')|].
    split; [by apply same_shape_elems|done].
  - apply map_assign_self.
  - destruct (clear_run s t Ht) as (m' & Hrun & _).
    eexists. split; [exact Hrun|]. apply tree_of_Leaf.
Qed.

(** ** C3 *)

(** C3.  After any sequence of insert and erase calls that starts from an
    empty map, the store holds a well-formed tree below [root], and only
    one; its in-order keys ascend strictly under [comp], and no two places
    of the in-order listing hold equivalent keys. *)
Theorem reachable_keys_strictly_ascending (this : mapid) s :
  reachable this s →
  ∃ t, tree_of s t
       ∧ (∀ t', tree_of s t' → t' = t)
       ∧ StronglySorted lt (keys t)
       ∧ ∀ i j ki kj,
           keys t !! i = Some ki → keys t !! j = Some kj → equiv_key ki kj → i = j.
Proof.
  intros Hr.
  assert (∃ t, tree_of s t) as (t & Ht).
  { induction Hr as [m|s val res s' _ (t & Ht) Hrun|s pos s' _ (t & Ht) Hrun
                     |s pos e s' _ (t & Ht) Hrun].
    - exists Leaf. apply tree_of_Leaf.
    - destruct (insert_run this val s t Ht) as (m' & t' & b & p & _ & Hrun' & Ht' & _).
      rewrite Hrun' in Hrun. injection Hrun as _ <-. eauto.
    - destruct pos as [[ta|] o].
      + destruct (decide (o = Some this)) as [->|Ho].
        * destruct (mem s !! ta) as [tnd|] eqn:Hnd.
          -- destruct (erase_run this s t ta tnd Ht Hnd)
               as (m' & t' & e & f & E & Hrun' & R' & _).
             destruct (t_erase_tree_of s t ta tnd t' e f m'
                         (match f with Some _ => wrap (n s - 1) | None => n s end)
                         Ht Hnd E R') as (Ht' & _).
             rewrite Hrun' in Hrun. destruct e; [|done]. injection Hrun as <-. eauto.
          -- rewrite (erase_dangling this s t ta Ht Hnd) in Hrun. by destruct t.
        * rewrite erase_bad_pos in Hrun by (by left). done.
      + rewrite erase_bad_pos in Hrun by (by right). done.
    - destruct pos as [[ta|] o].
      + destruct (decide (o = Some this)) as [->|Ho].
        * destruct (mem s !! ta) as [tnd|] eqn:Hnd.
          -- destruct (erase_run this s t ta tnd Ht Hnd)
               as (m' & t' & e' & f & E & Hrun' & R' & _).
             destruct (t_erase_tree_of s t ta tnd t' e' f m'
                         (match f with Some _ => wrap (n s - 1) | None => n s end)
                         Ht Hnd E R') as (Ht' & _).
             rewrite Hrun' in Hrun. destruct e'; [done|]. injection Hrun as _ <-. eauto.
          -- rewrite (erase_dangling this s t ta Ht Hnd) in Hrun.
             destruct t; [|done]. injection Hrun as _ <-. eauto.
        * rewrite erase_bad_pos in Hrun by (by left). injection Hrun as _ <-. eauto.
      + rewrite erase_bad_pos in Hrun by (by right). injection Hrun as _ <-. eauto. }
  exists t. split; [done|]. split; [intros t' Ht'; by eapply tree_of_inj|].
  pose proof (to_ord _ _ Ht) as Ho. split; [exact Ho|].
  intros i j ki kj. by apply sorted_no_equiv.
Qed.

(** ** C4 *)

(** C4.  Inserting a pair whose key is equivalent to a stored one returns
    the position of the stored element together with [false], and the final
    state is the initial one: same count, same nodes with the same links,
    keys and values; the stored value is not overwritten. *)
Theorem insert_duplicate_changes_nothing (this : mapid) val s t :
  tree_of s t → has_key (fst val) t →
  ∃ a nd,
    insert this val s = Ok (mkIter (Some a) (Some this), false) s
    ∧ a ∈ nodes t ∧ mem s !! a = Some nd ∧ equiv_key (fst val) (fst (value nd)).
Proof.
  intros Ht Hk.
  destruct (t_find_present _ _ (to_ord _ _ Ht) Hk) as (a & kv & Hf & Hc & He).
  destruct (rep_cell _ _ _ _ _ (to_rep _ _ Ht) Hc) as (nd & Hnd & Hv).
  exists a, nd. split; [by eapply insert_found_run|].
  split; [by eapply in_cells_nodes|]. split; [done|]. by rewrite Hv.
Qed.

(** ** C5 *)

(** C5, as amended.  After [insert] of a pair, [find] on its key returns the
    position [insert] returned.  The element there holds the inserted pair
    when [insert] reported [true], that is when no equivalent key was
    stored; when it reported [false] the map is unchanged and the element
    is the stored one, with its old value.  Erasing that position succeeds,
    and [find] on the key then returns past-the-end. *)
Theorem insert_find_erase_find `{!CompWeakOrder Key} (this : mapid) val s t :
  tree_of s t →
  ∃ p b s1 nd s2,
    insert this val s = Ok (mkIter (Some p) (Some this), b) s1
    ∧ find this (fst val) s1 = Ok (mkIter (Some p) (Some this)) s1
    ∧ mem s1 !! p = Some nd
    ∧ (b = true ↔ ¬ has_key (fst val) t)
    ∧ (b = true → value nd = val)
    ∧ (b = false → s1 = s ∧ equiv_key (fst val) (fst (value nd)))
    ∧ erase this (mkIter (Some p) (Some this)) s1 = Ok tt s2
    ∧ find this (fst val) s2 = Ok (mkIter None (Some this)) s2.
Proof.
  intros Ht.
  assert (∀ s1 t1 p nd,
            tree_of s1 t1 → (p, value nd) ∈ cells t1 → mem s1 !! p = Some nd →
            equiv_key (fst val) (fst (value nd)) →
            ∃ s2, erase this (mkIter (Some p) (Some this)) s1 = Ok tt s2
                  ∧ find this (fst val) s2 = Ok (mkIter None (Some this)) s2) as Herase.
  { intros s1 t1 p nd Ht1 Hc Hnd He.
    destruct (erase_run this s1 t1 p nd Ht1 Hnd) as (m' & t' & e & f & E & Hrun & R' & _).
    destruct (t_erase_tree_of s1 t1 p nd t' e f m'
                (match f with Some _ => wrap (n s1 - 1) | None => n s1 end)
                Ht1 Hnd E R') as (Ht' & Hin & _).
    destruct (Hin (in_cells_nodes _ _ _ Hc)) as (-> & pre & post & E1 & E2).
    eexists. split; [exact Hrun|].
    rewrite (find_run this (fst val) _ t' Ht').
    assert (t_find (fst val) t' = None) as ->; [|done].
    apply (t_find_absent _ _ (to_ord _ _ Ht')).
    intros (kv' & Hkv' & He'). rewrite E2 in Hkv'.
    pose proof (to_ord _ _ Ht1) as Ho. unfold ordered, keys in Ho. rewrite E1 in Ho.
    exact (removed_key_absent _ _ _ _ Ho He kv' Hkv' He'). }
  destruct (t_find (fst val) t) as [a|] eqn:Hf.
  - destruct (t_find_Some _ _ _ Hf) as (kv & Hc & He).
    destruct (rep_cell _ _ _ _ _ (to_rep _ _ Ht) Hc) as (nd & Hnd & <-).
    destruct (Herase s t a nd Ht Hc Hnd He) as (s2 & Hrun2 & Hfind2).
    exists a, false, s, nd, s2. split_and!; try done.
    + by eapply insert_found_run.
    + by rewrite (find_run this (fst val) s t Ht), Hf.
    + split; [done|]. intros Hn. apply (t_find_absent _ _ (to_ord _ _ Ht)) in Hn. congruence.
  - destruct (insert_run this val s t Ht) as (m' & t' & b & p & E & Hrun & Ht' & _).
    pose proof (t_insert_find (fresh (dom (mem s))) val t) as Hi. rewrite Hf in Hi.
    destruct Hi as (t'' & Hi). rewrite Hi in E. injection E as <- <- <-.
    destruct (t_insert_cells _ _ _ _ _ (to_ord _ _ Ht) Hi) as (pre & post & _ & Hc & _).
    assert ((fresh (dom (mem s)), val) ∈ cells t'') as Hin by (rewrite Hc; set_solver).
    destruct (rep_cell _ _ _ _ _ (to_rep _ _ Ht') Hin) as (nd & Hnd & Hv).
    simpl in Hnd.
    destruct (Herase _ t'' (fresh (dom (mem s))) nd Ht') as (s2 & Hrun2 & Hfind2).
    { by rewrite Hv. }
    { done. }
    { rewrite Hv. apply equiv_key_refl. }
    exists (fresh (dom (mem s))), true, (mkState m' (ptr t'') (wrap (n s + 1))), nd, s2.
    split_and!; try done.
    + rewrite (find_run this (fst val) _ t'' Ht').
      by rewrite (t_find_cell t'' _ val (to_ord _ _ Ht') (to_uniq _ _ Ht') Hin).
    + split; [|done]. intros _. by apply (t_find_absent _ _ (to_ord _ _ Ht)).
Qed.

(** ** C6 *)

(** C6.  [at] throws [index_out_of_bound] exactly when no stored key is
    equivalent to the key asked for; when it throws, the state is the one
    it was called in, so the tree and its invariants are untouched.  When a
    key is equivalent it returns the node of that element. *)
Theorem at_throws_iff_key_absent k s t :
  tree_of s t →
  ((∃ e s', at_ k s = Throw e s') ↔ ¬ has_key k t)
  ∧ (∀ e s', at_ k s = Throw e s' → e = index_out_of_bound ∧ s' = s ∧ tree_of s' t)
  ∧ (has_key k t →
     ∃ a nd, at_ k s = Ok (Some a) s ∧ mem s !! a = Some nd
             ∧ equiv_key k (fst (value nd))).
Proof.
  intros Ht. pose proof (at_run k s t Ht) as Hrun.
  pose proof (t_find_absent k t (to_ord _ _ Ht)) as Habs.
  split_and!.
  - split.
    + intros (e & s' & He). apply Habs. rewrite He in Hrun.
      by destruct (t_find k t).
    + intros Hn%Habs. rewrite Hn in Hrun. eauto.
  - intros e s' He. rewrite He in Hrun. destruct (t_find k t); [done|].
    by injection Hrun as -> ->.
  - intros Hk.
    destruct (t_find_present _ _ (to_ord _ _ Ht) Hk) as (a & kv & Hf & Hc & He).
    destruct (rep_cell _ _ _ _ _ (to_rep _ _ Ht) Hc) as (nd & Hnd & <-).
    rewrite Hf in Hrun. eauto.
Qed.

(** ** C7 *)

(** C7.  [operator[]] on a key with no equivalent stored key allocates one
    node holding the key with the default value and returns that node, which
    is the node of the tree that carries the new element: it is the one
    cell that the in-order listing gains, all other cells being as before;
    the count grows by one.  On a key with an equivalent stored key it
    returns the node of the tree that holds that element and the state is
    unchanged.  The const overload leaves the state unchanged in both cases
    and throws [index_out_of_bound] in the first. *)
Theorem index_inserts_default_when_absent k s t :
  tree_of s t → counted s t → n s + 1 < size_max →
  (¬ has_key k t →
     (∃ a nd s' t' pre post,
        index k s = Ok (Some a) s'
        ∧ mem s !! a = None ∧ mem s' !! a = Some nd ∧ value nd = (k, T_default)
        ∧ tree_of s' t' ∧ counted s' t' ∧ n s' = n s + 1
        ∧ elems t = pre ++ post ∧ elems t' = pre ++ (k, T_default) :: post
        ∧ a ∈ nodes t'
        ∧ ∃ cpre cpost,
            pre = snd <$> cpre ∧ post = snd <$> cpost
            ∧ cells t = cpre ++ cpost
            ∧ cells t' = cpre ++ (a, (k, T_default)) :: cpost)
     ∧ index_const k s = Throw index_out_of_bound s)
  ∧ (has_key k t →
     ∃ a nd, index k s = Ok (Some a) s ∧ index_const k s = Ok (Some a) s
             ∧ mem s !! a = Some nd ∧ equiv_key k (fst (value nd))
             ∧ a ∈ nodes t ∧ (a, value nd) ∈ cells t).
Proof.
  intros Ht (Hn & _) Hmax. pose proof (index_const_run k s t Ht) as Hconst.
  split.
  - intros Hf%(t_find_absent k t (to_ord _ _ Ht)). rewrite Hf in Hconst.
    split; [|done].
    destruct (index_absent_run k s t Ht Hf) as (m' & t' & E & Hrun & Ht' & F).
    destruct (t_insert_cells _ _ _ _ _ (to_ord _ _ Ht) E) as (pre & post & Hc & Hc' & _).
    assert ((fresh (dom (mem s)), (k, T_default)) ∈ cells t') as Hin
      by (rewrite Hc'; set_solver).
    destruct (rep_cell _ _ _ _ _ (to_rep _ _ Ht') Hin) as (nd & Hnd & Hv).
    assert (wrap (n s + 1) = n s + 1) as Hw by (apply wrap_small; lia).
    exists (fresh (dom (mem s))), nd, (mkState m' (ptr t') (wrap (n s + 1))), t',
      (snd <$> pre), (snd <$> post).
    split_and!; try done.
    + apply not_elem_of_dom. apply is_fresh.
    + split; simpl; [|lia]. rewrite Hw, Hn, !nodes_cells, Hc, Hc'.
      rewrite !length_fmap, !length_app. simpl. lia.
    + by rewrite elems_cells, Hc, fmap_app.
    + by rewrite elems_cells, Hc', fmap_app.
    + by eapply in_cells_nodes.
    + by exists pre, post.
  - intros Hk.
    destruct (t_find_present _ _ (to_ord _ _ Ht) Hk) as (a & kv & Hf & Hc & He).
    destruct (rep_cell _ _ _ _ _ (to_rep _ _ Ht) Hc) as (nd & Hnd & <-).
    rewrite Hf in Hconst. exists a, nd. split; [by eapply index_found_run|].
    split_and!; try done. by eapply in_cells_nodes.
Qed.

(** ** C8 *)

(** C8.  Decrementing, in both forms: from past-the-end of a tree that is
    not empty the iterator moves to the last node of the in-order listing,
    whose key is above all others; from the first node of the listing it
    throws [invalid_iterator]; from any other node it moves to the node just
    before it in the listing.  The postfix form also returns the old
    position. *)
Theorem decrement_steps_to_predecessor (this : mapid) s t :
  tree_of s t →
  (∀ rest a kv, cells t = rest ++ [(a, kv)] →
     iter_pre_dec (mkIter None (Some this)) s = Ok (mkIter (Some a) (Some this)) s
     ∧ iter_post_dec (mkIter None (Some this)) s
       = Ok (mkIter None (Some this), mkIter (Some a) (Some this)) s
     ∧ Forall (λ c, lt (ckey c) (fst kv)) rest)
  ∧ (∀ a kv rest, cells t = (a, kv) :: rest →
     iter_pre_dec (mkIter (Some a) (Some this)) s = Throw invalid_iterator s
     ∧ iter_post_dec (mkIter (Some a) (Some this)) s = Throw invalid_iterator s)
  ∧ (∀ pre y ykv x xkv post, cells t = pre ++ (y, ykv) :: (x, xkv) :: post →
     iter_pre_dec (mkIter (Some x) (Some this)) s = Ok (mkIter (Some y) (Some this)) s
     ∧ iter_post_dec (mkIter (Some x) (Some this)) s
       = Ok (mkIter (Some x) (Some this), mkIter (Some y) (Some this)) s
     ∧ lt (fst ykv) (fst xkv)).
Proof.
  intros Ht. split_and!.
  - intros rest a kv Hc.
    pose proof (iter_pre_dec_end this s t rest a kv Ht Hc) as Hrun.
    split; [done|]. split; [by rewrite iter_post_dec_pre, Hrun|].
    exact (cells_last_max t rest (a, kv) (to_ord _ _ Ht) Hc).
  - intros a kv rest Hc.
    pose proof (iter_pre_dec_min this s t a kv rest Ht Hc) as Hrun.
    split; [done|]. by rewrite iter_post_dec_pre, Hrun.
  - intros pre y ykv x xkv post Hc.
    pose proof (iter_pre_dec_mid this s t pre y ykv x xkv post Ht Hc) as Hrun.
    split; [done|]. split; [by rewrite iter_post_dec_pre, Hrun|].
    pose proof (to_ord _ _ Ht) as Ho%ordered_cells. rewrite Hc in Ho.
    apply StronglySorted_app in Ho as (_ & _ & Ho).
    apply StronglySorted_cons in Ho as (Ho & _).
    by apply Forall_cons in Ho as (Ho & _).
Qed.

(** ** C9 *)

(** C9, as amended.  At a position bound to a container and on a live node,
    [operator*] returns the pair stored in the node and [operator->] the
    address of that pair.  At past-the-end, or unbound, [operator*] throws
    [invalid_iterator], while [operator->] throws nothing and returns the
    null pointer.  Neither changes the state. *)
Theorem dereference_star_throws_arrow_returns_null (it : iterator) s :
  (∀ o a nd, it = mkIter (Some a) (Some o) → mem s !! a = Some nd →
     iter_deref it s = Ok (value nd) s ∧ iter_arrow it s = Ok (Some a) s)
  ∧ (cur it = None ∨ owner it = None →
     iter_deref it s = Throw invalid_iterator s ∧ iter_arrow it s = Ok None s).
Proof.
  split.
  - intros o a nd -> Hnd. cbn. by rewrite Hnd.
  - destruct it as [[a|] [o|]]; simpl; intros [?|?]; done.
Qed.

(** ** C10 *)

(** C10.  [begin()] and [cbegin()] return the same position, and it equals
    [end()] exactly when [empty()] holds.  On the empty map that position is
    past-the-end; otherwise it is the first node of the in-order listing,
    whose key is below all others, and differs from [end()]. *)
Theorem begin_is_end_iff_empty (this : mapid) s t :
  tree_of s t → counted s t →
  ∃ b em,
    begin_ this s = Ok b s ∧ cbegin this s = Ok b s
    ∧ end_ this s = Ok (mkIter None (Some this)) s
    ∧ cend this s = Ok (mkIter None (Some this)) s
    ∧ empty s = Ok em s
    ∧ (iter_eq b (mkIter None (Some this)) = true ↔ em = true)
    ∧ (em = true → t = Leaf ∧ b = mkIter None (Some this))
    ∧ (em = false →
       ∃ a kv rest, cells t = (a, kv) :: rest ∧ b = mkIter (Some a) (Some this)
                    ∧ Forall (λ c, lt (fst kv) (ckey c)) rest).
Proof.
  intros Ht Hcnt. pose proof (begin_run this s t Ht) as Hb.
  pose proof (tree_of_empty s t Ht Hcnt) as He.
  exists (mkIter (fst <$> t_min t) (Some this)), (n s =? 0).
  split; [done|]. split; [done|]. split; [done|]. split; [done|]. split; [done|].
  rewrite He. destruct t as [|a l kv hc r].
  - split_and!; [|done|by cbn].
    unfold iter_eq. cbn. by rewrite !bool_decide_eq_true_2 by done.
  - destruct (t_min_Nd a l kv hc r) as ([x xkv] & Hm).
    destruct (t_min_cells _ _ Hm) as (rest & Hc). rewrite Hm.
    cbn [is_leaf fmap option_fmap option_map fst]. split_and!.
    + unfold iter_eq. cbn [owner cur]. rewrite (bool_decide_eq_false_2 (Some x = None)) by done.
      by rewrite andb_false_r.
    + done.
    + intros _. exists x, xkv, rest. split; [done|]. split; [done|].
      exact (cells_head_min _ _ _ (to_ord _ _ Ht) Hc).
Qed.

End Claims.

(** * The claims at concrete maps *)

Lemma Z_order : CompOrder Z.
Proof.
  split.
  - intros x. apply Z.ltb_irrefl.
  - intros x y z H1%Z.ltb_lt H2%Z.ltb_lt. apply Z.ltb_lt. lia.
Qed.

#[export] Existing Instance Z_order.

Lemma Z_weak_order : CompWeakOrder Z.
Proof.
  intros x y z H%Z.ltb_lt. unfold comp, Z_compare.
  destruct (x <? z) eqn:E; [by left|].
  right. apply Z.ltb_lt. apply Z.ltb_ge in E. lia.
Qed.

#[export] Existing Instance Z_weak_order.

Lemma one_tree_of : tree_of one_state one_tree.
Proof.
  split.
  - reflexivity.
  - split; [reflexivity|]. split; exact I.
  - apply NoDup_singleton.
  - simpl. repeat split; reflexivity.
  - simpl. repeat split; lia.
  - repeat constructor.
Qed.

Lemma three_tree_of : tree_of three_state three_tree.
Proof.
  split.
  - reflexivity.
  - split; [reflexivity|]. split; (split; [reflexivity|split; exact I]).
  - apply (bool_decide_unpack _). by vm_compute.
  - simpl. repeat split; reflexivity.
  - simpl. repeat split; lia.
  - repeat (constructor; try reflexivity).
Qed.

Lemma three_counted : counted three_state three_tree.
Proof. split; reflexivity. Qed.

Lemma one_counted : counted one_state one_tree.
Proof. split; reflexivity. Qed.

Lemma three_reachable : reachable obj three_state.
Proof.
  assert (∃ s1 s2 r1 r2 r3,
            insert obj (2, 20) (map_new ∅) = Ok r1 s1
            ∧ insert obj (1, 10) s1 = Ok r2 s2
            ∧ insert obj (3, 30) s2 = Ok r3 three_state)
    as (s1 & s2 & r1 & r2 & r3 & H1 & H2 & H3).
  { eexists _, _, _, _, _. split; [vm_compute; reflexivity|].
    split; [vm_compute; reflexivity|]. vm_compute. reflexivity. }
  eapply reach_insert; [|exact H3]. eapply reach_insert; [|exact H2].
  eapply reach_insert; [|exact H1]. apply reach_new.
Qed.

(** C1 at the three-element map: erasing the root, which has two
    children. *)
Lemma erase_two_children_witness :
  tree_of three_state three_tree ∧ counted three_state three_tree
  ∧ mem three_state !! 1%positive = Some three_root
  ∧ ∃ sa snd s' nd' t',
      with_fuel (λ f, minNode f (Some 3%positive)) three_state = Ok (Some sa) three_state
      ∧ mem three_state !! sa = Some snd
      ∧ erase obj (mkIter (Some 1%positive) (Some obj)) three_state = Ok tt s'
      ∧ mem s' !! 1%positive = Some nd' ∧ value nd' = value snd
      ∧ mem s' !! sa = None
      ∧ (∀ b, b ≠ sa → is_Some (mem s' !! b) ↔ is_Some (mem three_state !! b))
      ∧ n s' = n three_state - 1
      ∧ tree_of s' t' ∧ counted s' t'
      ∧ ∃ pre post,
          cells three_tree = pre ++ (1%positive, value three_root) :: (sa, value snd) :: post
          ∧ cells t' = pre ++ (1%positive, value snd) :: post.
Proof.
  split; [exact three_tree_of|]. split; [exact three_counted|]. split; [reflexivity|].
  apply (erase_two_children_frees_successor obj three_state three_tree 1%positive
           three_root 2%positive 3%positive).
  - exact three_tree_of.
  - exact three_counted.
  - simpl. set_solver.
  - reflexivity.
  - reflexivity.
  - reflexivity.
Defined.

(** C2 at the three-element map. *)
Lemma avl_shape_witness :
  tree_of three_state three_tree
  ∧ (∀ val, ∃ res s' t',
        insert obj val three_state = Ok res s' ∧ tree_of s' t' ∧ hok t' ∧ balanced t')
  ∧ (∀ pos, (∀ a, cur pos = Some a → is_Some (mem three_state !! a)) →
        ∃ s' t',
          (erase obj pos three_state = Ok tt s'
           ∨ erase obj pos three_state = Throw invalid_iterator s')
          ∧ tree_of s' t' ∧ hok t' ∧ balanced t')
  ∧ (∀ k, ∃ res s' t',
        index k three_state = Ok res s' ∧ tree_of s' t' ∧ hok t' ∧ balanced t')
  ∧ (∃ s' t',
        map_copy three_state = Ok tt s' ∧ tree_of s' t' ∧ hok t' ∧ balanced t'
        ∧ elems t' = elems three_tree ∧ rep (mem s') None three_tree)
  ∧ (∃ s', clear three_state = Ok tt s' ∧ tree_of s' Leaf).
Proof.
  split; [exact three_tree_of|].
  destruct (avl_shape_after_public_operations obj three_state three_tree three_tree_of)
    as (H1 & H2 & H3 & H4 & _ & _ & H7).
  exact (conj H1 (conj H2 (conj H3 (conj H4 H7)))).
Defined.

(** C3 at the three-element map, reached by three insertions. *)
Lemma reachable_sorted_witness :
  reachable obj three_state
  ∧ ∃ t, tree_of three_state t
         ∧ (∀ t', tree_of three_state t' → t' = t)
         ∧ StronglySorted lt (keys t)
         ∧ ∀ i j ki kj,
             keys t !! i = Some ki → keys t !! j = Some kj → equiv_key ki kj → i = j.
Proof.
  split; [exact three_reachable|].
  exact (reachable_keys_strictly_ascending obj three_state three_reachable).
Defined.

(** C4 at the three-element map: [insert (3, 99)]. *)
Lemma insert_duplicate_witness :
  has_key 3 three_tree
  ∧ ∃ a nd,
      insert obj (3, 99) three_state = Ok (mkIter (Some a) (Some obj), false) three_state
      ∧ a ∈ nodes three_tree ∧ mem three_state !! a = Some nd
      ∧ equiv_key 3 (fst (value nd)).
Proof.
  assert (has_key 3 three_tree) as Hk.
  { exists (3, 30). split; [simpl; set_solver|]. split; reflexivity. }
  split; [exact Hk|].
  exact (insert_duplicate_changes_nothing obj (3, 99) three_state three_tree
           three_tree_of Hk).
Defined.

(** C5: on [{1 ↦ 10}], after [insert (1, 20)] the position [find 1] returns
    holds [(1, 10)], not the pair that was inserted. *)
Lemma insert_then_find_keeps_stored_value :
  tree_of one_state one_tree
  ∧ insert obj (1, 20) one_state
    = Ok (mkIter (Some 1%positive) (Some obj), false) one_state
  ∧ find obj 1 one_state = Ok (mkIter (Some 1%positive) (Some obj)) one_state
  ∧ iter_deref (mkIter (Some 1%positive) (Some obj)) one_state = Ok (1, 10) one_state
  ∧ (1, 10) ≠ (1, 20).
Proof.
  split; [exact one_tree_of|]. split; [vm_compute; reflexivity|].
  split; [vm_compute; reflexivity|]. split; [vm_compute; reflexivity|]. discriminate.
Qed.

(** C5 as amended, at [{1 ↦ 10}] and the pair [(1, 20)]. *)
Lemma insert_find_erase_find_witness :
  tree_of one_state one_tree
  ∧ ∃ p b s1 nd s2,
      insert obj (1, 20) one_state = Ok (mkIter (Some p) (Some obj), b) s1
      ∧ find obj 1 s1 = Ok (mkIter (Some p) (Some obj)) s1
      ∧ mem s1 !! p = Some nd
      ∧ (b = true ↔ ¬ has_key 1 one_tree)
      ∧ (b = true → value nd = (1, 20))
      ∧ (b = false → s1 = one_state ∧ equiv_key 1 (fst (value nd)))
      ∧ erase obj (mkIter (Some p) (Some obj)) s1 = Ok tt s2
      ∧ find obj 1 s2 = Ok (mkIter None (Some obj)) s2.
Proof.
  split; [exact one_tree_of|].
  exact (insert_find_erase_find obj (1, 20) one_state one_tree one_tree_of).
Defined.

(** C6 at the three-element map and the key 5. *)
Lemma at_throws_witness :
  tree_of three_state three_tree
  ∧ ((∃ e s', at_ 5 three_state = Throw e s') ↔ ¬ has_key 5 three_tree)
  ∧ (∀ e s', at_ 5 three_state = Throw e s' →
       e = index_out_of_bound ∧ s' = three_state ∧ tree_of s' three_tree)
  ∧ (has_key 5 three_tree →
     ∃ a nd, at_ 5 three_state = Ok (Some a) three_state
             ∧ mem three_state !! a = Some nd ∧ equiv_key 5 (fst (value nd))).
Proof.
  split; [exact three_tree_of|].
  exact (at_throws_iff_key_absent 5 three_state three_tree three_tree_of).
Defined.

(** C7 at the three-element map and the key 5. *)
Lemma index_inserts_default_witness :
  tree_of three_state three_tree ∧ counted three_state three_tree
  ∧ n three_state + 1 < size_max
  ∧ (¬ has_key 5 three_tree →
       (∃ a nd s' t' pre post,
          index 5 three_state = Ok (Some a) s'
          ∧ mem three_state !! a = None ∧ mem s' !! a = Some nd
          ∧ value nd = (5, T_default)
          ∧ tree_of s' t' ∧ counted s' t' ∧ n s' = n three_state + 1
          ∧ elems three_tree = pre ++ post ∧ elems t' = pre ++ (5, T_default) :: post
          ∧ a ∈ nodes t'
          ∧ ∃ cpre cpost,
              pre = snd <$> cpre ∧ post = snd <$> cpost
              ∧ cells three_tree = cpre ++ cpost
              ∧ cells t' = cpre ++ (a, (5, T_default)) :: cpost)
       ∧ index_const 5 three_state = Throw index_out_of_bound three_state)
  ∧ (has_key 5 three_tree →
     ∃ a nd, index 5 three_state = Ok (Some a) three_state
             ∧ index_const 5 three_state = Ok (Some a) three_state
             ∧ mem three_state !! a = Some nd ∧ equiv_key 5 (fst (value nd))
             ∧ a ∈ nodes three_tree ∧ (a, value nd) ∈ cells three_tree).
Proof.
  assert (n three_state + 1 < size_max) as Hlt by reflexivity.
  split; [exact three_tree_of|]. split; [exact three_counted|]. split; [exact Hlt|].
  exact (index_inserts_default_when_absent 5 three_state three_tree
           three_tree_of three_counted Hlt).
Defined.

(** C8 at the three-element map. *)
Lemma decrement_witness :
  tree_of three_state three_tree
  ∧ iter_pre_dec (mkIter None (Some obj)) three_state
    = Ok (mkIter (Some 3%positive) (Some obj)) three_state
  ∧ iter_pre_dec (mkIter (Some 2%positive) (Some obj)) three_state
    = Throw invalid_iterator three_state
  ∧ iter_pre_dec (mkIter (Some 3%positive) (Some obj)) three_state
    = Ok (mkIter (Some 1%positive) (Some obj)) three_state
  ∧ iter_post_dec (mkIter (Some 3%positive) (Some obj)) three_state
    = Ok (mkIter (Some 3%positive) (Some obj), mkIter (Some 1%positive) (Some obj))
         three_state.
Proof.
  split; [exact three_tree_of|].
  destruct (decrement_steps_to_predecessor obj three_state three_tree three_tree_of)
    as (Hend & Hmin & Hmid).
  destruct (Hend [(2%positive, (1, 10)); (1%positive, (2, 20))] 3%positive (3, 30) eq_refl)
    as (H1 & _).
  destruct (Hmin 2%positive (1, 10) [(1%positive, (2, 20)); (3%positive, (3, 30))] eq_refl)
    as (H2 & _).
  destruct (Hmid [(2%positive, (1, 10))] 1%positive (2, 20) 3%positive (3, 30) [] eq_refl)
    as (H3 & H4 & _).
  exact (conj H1 (conj H2 (conj H3 H4))).
Defined.

(** C9: on [{1 ↦ 10}], [operator->] at past-the-end, and on an unbound
    iterator, returns the null pointer; it does not throw. *)
Lemma arrow_at_end_returns_null :
  tree_of one_state one_tree
  ∧ iter_arrow (mkIter None (Some obj)) one_state = Ok None one_state
  ∧ iter_arrow (mkIter None None) one_state = Ok None one_state
  ∧ (∀ e s', iter_arrow (mkIter None (Some obj)) one_state ≠ Throw e s').
Proof.
  split; [exact one_tree_of|]. split; [reflexivity|]. split; [reflexivity|]. done.
Qed.

(** C9 as amended, at [{1 ↦ 10}]. *)
Lemma dereference_witness :
  mem one_state !! 1%positive = Some (mkNode (1, 10) None None None 1)
  ∧ iter_deref (mkIter (Some 1%positive) (Some obj)) one_state = Ok (1, 10) one_state
  ∧ iter_arrow (mkIter (Some 1%positive) (Some obj)) one_state
    = Ok (Some 1%positive) one_state
  ∧ iter_deref (mkIter None (Some obj)) one_state = Throw invalid_iterator one_state
  ∧ iter_arrow (mkIter None (Some obj)) one_state = Ok None one_state.
Proof.
  split; [reflexivity|].
  destruct (dereference_star_throws_arrow_returns_null
              (mkIter (Some 1%positive) (Some obj)) one_state) as (H1 & _).
  destruct (H1 obj 1%positive (mkNode (1, 10) None None None 1) eq_refl eq_refl)
    as (H2 & H3).
  destruct (dereference_star_throws_arrow_returns_null
              (mkIter None (Some obj)) one_state) as (_ & H4).
  destruct (H4 (or_introl eq_refl)) as (H5 & H6).
  exact (conj H2 (conj H3 (conj H5 H6))).
Defined.

(** C10 at the three-element map. *)
Lemma begin_end_witness :
  tree_of three_state three_tree ∧ counted three_state three_tree
  ∧ ∃ b em,
      begin_ obj three_state = Ok b three_state ∧ cbegin obj three_state = Ok b three_state
      ∧ end_ obj three_state = Ok (mkIter None (Some obj)) three_state
      ∧ cend obj three_state = Ok (mkIter None (Some obj)) three_state
      ∧ empty three_state = Ok em three_state
      ∧ (iter_eq b (mkIter None (Some obj)) = true ↔ em = true)
      ∧ (em = true → three_tree = Leaf ∧ b = mkIter None (Some obj))
      ∧ (em = false →
         ∃ a kv rest, cells three_tree = (a, kv) :: rest ∧ b = mkIter (Some a) (Some obj)
                      ∧ Forall (λ c, lt (fst kv) (ckey c)) rest).
Proof.
  split; [exact three_tree_of|]. split; [exact three_counted|].
  exact (begin_is_end_iff_empty obj three_state three_tree three_tree_of three_counted).
Defined.

(** ** The successor walk *)

Section Successor.

Context {Key T : Type}.
Implicit Types (m : gmap addr (Node Key T)) (t l r : tree Key T).

Lemma successor_climb_S f (x p : option addr) :
  successor_climb (Key := Key) (T := T) (S f) x p
  = match p with
    | None => ret p
    | Some _ =>
        bind (get_right p) (λ pr,
          if decide (x = pr) then bind (get_parent p) (λ pp, successor_climb f p pp)
          else ret p)
    end.
Proof. reflexivity. Qed.

Lemma rspine_lt_depth a l kv hc r : (rspine (Nd a l kv hc r) < depth (Nd a l kv hc r))%nat.
Proof.
  revert a kv hc l. induction r as [|b rl _ kv' hc' rr IH]; intros a kv hc l.
  - simpl. lia.
  - specialize (IH b kv' hc' rl).
    change (S (rspine (Nd b rl kv' hc' rr))
            < S (Nat.max (depth l) (depth (Nd b rl kv' hc' rr))))%nat.
    lia.
Qed.

(** From the rightmost node of a subtree the climb reaches the root of the
    subtree and goes on from there. *)
Lemma successor_climb_rightmost a l kv hc r : ∀ m par x xkv rt c,
  rep m par (Nd a l kv hc r) → t_max (Nd a l kv hc r) = Some (x, xkv) →
  ∃ px,
    get_right (Some x) (mkState m rt c) = Ok None (mkState m rt c)
    ∧ get_parent (Some x) (mkState m rt c) = Ok px (mkState m rt c)
    ∧ ∀ f, successor_climb (rspine (Nd a l kv hc r) + f) (Some x) px (mkState m rt c)
           = successor_climb f (Some a) par (mkState m rt c).
Proof.
  revert a kv hc l. induction r as [|b rl _ kv' hc' rr IH]; intros a kv hc l m par x xkv rt c.
  - simpl. intros (Ha & _) [= <- <-]. exists par. cbn. rewrite Ha. done.
  - intros (Ha & _ & Rr) Hm.
    change (t_max (Nd b rl kv' hc' rr) = Some (x, xkv)) in Hm.
    destruct (IH b kv' hc' rl m (Some a) x xkv rt c Rr Hm) as (px & H1 & H2 & H3).
    exists px. split; [done|]. split; [done|]. intros f.
    replace (rspine (Nd a l kv hc (Nd b rl kv' hc' rr)) + f)%nat
      with (rspine (Nd b rl kv' hc' rr) + S f)%nat
      by (change (rspine (Nd a l kv hc (Nd b rl kv' hc' rr)))
            with (S (rspine (Nd b rl kv' hc' rr))); lia).
    rewrite H3, successor_climb_S. cbn. rewrite Ha. cbn.
    rewrite decide_True by done. cbn. rewrite Ha. done.
Qed.

Lemma successor_sim t : ∀ m par fuel x y pre post rt c,
  rep m par t → uniq t → nodes t = pre ++ x :: y :: post → (depth t ≤ fuel)%nat →
  successor fuel (Some x) (mkState m rt c) = Ok (Some y) (mkState m rt c).
Proof.
  induction t as [|a l IHl kv hc r IHr]; intros m par fuel x y pre post rt c.
  { intros _ _ Hn. by destruct pre. }
  intros Hrep Hu Hn Hf. pose proof Hrep as (Ha & Rl & Rr).
  pose proof Hu as (Ul & Ur & Hal & Har & Hlr)%uniq_Nd.
  assert (x ∈ nodes (Nd a l kv hc r)) as Hx by (rewrite Hn; set_solver).
  cbn [nodes] in Hn, Hx.
  apply elem_of_app in Hx as [Hx|[->|Hx]%elem_of_cons].
  - apply list_elem_of_split in Hx as (p & q & Hl).
    assert (nodes l ++ a :: nodes r = p ++ x :: (q ++ a :: nodes r)) as E.
    { rewrite Hl. by rewrite <- app_assoc. }
    destruct (nodup_split _ _ _ _ _ _ Hu E Hn) as (-> & Hq).
    destruct q as [|y' q].
    + simpl in Hq. injection Hq as <- _.
      destruct (t_max_nodes _ _ _ Hl) as (xkv & Hm).
      destruct l as [|b ll kv' hc' lr]; [by destruct pre|].
      destruct (successor_climb_rightmost b ll kv' hc' lr m (Some a) x xkv rt c Rl Hm)
        as (px & H1 & H2 & H3).
      unfold successor. cbn [bind]. rewrite H1. cbn [bind]. rewrite H2.
      pose proof (rspine_lt_depth b ll kv' hc' lr) as Hls.
      change (S (Nat.max (depth (Nd b ll kv' hc' lr)) (depth r)) ≤ fuel)%nat in Hf.
      replace fuel with (rspine (Nd b ll kv' hc' lr) + S (fuel - rspine (Nd b ll kv' hc' lr) - 1))%nat
        by lia.
      rewrite H3, successor_climb_S. cbn. rewrite Ha. cbn.
      rewrite decide_False; [done|].
      destruct r as [|ar ? ? ? ?]; [done|]. simpl. intros [= ->].
      apply (Hlr ar); set_solver.
    + simpl in Hq. injection Hq as <- _.
      eapply IHl; [exact Rl|exact Ul|exact Hl|simpl in Hf; lia].
  - destruct (nodup_split _ _ _ _ _ _ Hu eq_refl Hn) as (_ & Hr).
    destruct (t_min_nodes _ _ _ Hr) as (ykv & Hm).
    destruct r as [|b rl kv' hc' rr]; [done|].
    cbn. rewrite Ha. cbn.
    destruct fuel as [|fuel]; [simpl in Hf; lia|].
    rewrite (minNode_loop_sim (S fuel) b rl kv' hc' rr m (Some a) rt c Rr)
      by (simpl in *; lia).
    by rewrite Hm.
  - apply list_elem_of_split in Hx as (p & q & Hr).
    assert (nodes l ++ a :: nodes r = (nodes l ++ a :: p) ++ x :: q) as E.
    { rewrite Hr. by rewrite <- app_assoc. }
    destruct (nodup_split _ _ _ _ _ _ Hu E Hn) as (_ & ->).
    eapply IHr; [exact Rr|exact Ur|exact Hr|simpl in Hf; lia].
Qed.

(** From the last node of the whole tree the walk ends at the null parent
    of the root. *)
Lemma successor_last t : ∀ m fuel x pre rt c,
  rep m None t → nodes t = pre ++ [x] → (depth t ≤ fuel)%nat →
  successor fuel (Some x) (mkState m rt c) = Ok None (mkState m rt c).
Proof.
  intros m fuel x pre rt c Hrep Hn Hf.
  destruct (t_max_nodes _ _ _ Hn) as (xkv & Hm).
  destruct t as [|a l kv hc r]; [done|].
  destruct (successor_climb_rightmost a l kv hc r m None x xkv rt c Hrep Hm)
    as (px & H1 & H2 & H3).
  unfold successor. cbn [bind]. rewrite H1. cbn [bind]. rewrite H2.
  pose proof (rspine_lt_depth a l kv hc r) as Hls.
  replace fuel with (rspine (Nd a l kv hc r) + S (fuel - rspine (Nd a l kv hc r) - 1))%nat
    by lia.
  by rewrite H3, successor_climb_S.
Qed.

End Successor.

(** ** More of the public interface *)

Section InterfaceMore.

Context {Key T : Type} `{!Compare Key} `{!Default T} `{!CompOrder Key}.
Implicit Types (s : state Key T) (t l r : tree Key T) (m : gmap addr (Node Key T)).

(** [operator++(int)] is [operator++()] that also hands back the old
    position. *)
Lemma iter_post_inc_pre it s :
  iter_post_inc it s
  = match iter_pre_inc it s with
    | Ok it' s' => Ok (it, it') s'
    | Throw e s' => Throw e s'
    | Stuck => Stuck
    end.
Proof.
  destruct it as [[a|] [o|]]; unfold iter_post_inc, iter_pre_inc; cbn [owner cur];
    try done; unfold bind.
  by destruct (with_fuel _ s).
Qed.

Lemma iter_pre_inc_mid this s t pre x xkv y ykv post :
  tree_of s t → cells t = pre ++ (x, xkv) :: (y, ykv) :: post →
  iter_pre_inc (mkIter (Some x) (Some this)) s = Ok (mkIter (Some y) (Some this)) s.
Proof.
  intros Ht Hc. pose proof (tree_of_fuel _ _ Ht) as Hf.
  pose proof Ht as [Hroot Hrep Hu _ _ _].
  assert (nodes t = (fst <$> pre) ++ x :: y :: (fst <$> post)) as Hn.
  { by rewrite nodes_cells, Hc, fmap_app. }
  unfold iter_pre_inc. cbn [owner cur].
  unfold bind, with_fuel. destruct s as [m rt c]. cbn [mem] in *.
  rewrite (successor_sim t m None (S (size m)) x y (fst <$> pre) (fst <$> post) rt c
             Hrep Hu Hn) by lia.
  done.
Qed.

Lemma iter_pre_inc_last this s t pre x xkv :
  tree_of s t → cells t = pre ++ [(x, xkv)] →
  iter_pre_inc (mkIter (Some x) (Some this)) s = Ok (mkIter None (Some this)) s.
Proof.
  intros Ht Hc. pose proof (tree_of_fuel _ _ Ht) as Hf.
  pose proof Ht as [Hroot Hrep Hu _ _ _].
  assert (nodes t = (fst <$> pre) ++ [x]) as Hn.
  { by rewrite nodes_cells, Hc, fmap_app. }
  unfold iter_pre_inc. cbn [owner cur].
  unfold bind, with_fuel. destruct s as [m rt c]. cbn [mem] in *.
  rewrite (successor_last t m (S (size m)) x (fst <$> pre) rt c Hrep Hn) by lia.
  done.
Qed.

Lemma cells_split t a kv :
  (a, kv) ∈ cells t → ∃ pre post, cells t = pre ++ (a, kv) :: post.
Proof. intros H. by apply list_elem_of_split. Qed.

Lemma in_nodes_cell t a : a ∈ nodes t → ∃ kv, (a, kv) ∈ cells t.
Proof.
  rewrite nodes_cells. intros ([a' kv] & -> & H)%list_elem_of_fmap. by exists kv.
Qed.

Lemma sorted_keys_NoDup (L : list (Key * T)) :
  StronglySorted lt (fst <$> L) → NoDup L.
Proof.
  intros Hs. apply (NoDup_fmap_1 fst).
  induction Hs as [|k ks Hs IH Hk]; constructor; [|done].
  intros Hin. rewrite Forall_forall in Hk. specialize (Hk k Hin).
  unfold lt in Hk. by rewrite comp_irrefl in Hk.
Qed.

Lemma NoDup_split_unique {A} (L p1 q1 p2 q2 : list A) x :
  NoDup L → L = p1 ++ x :: q1 → L = p2 ++ x :: q2 → p1 = p2 ∧ q1 = q2.
Proof.
  intros Hnd ->. revert p2 Hnd. induction p1 as [|c p1 IH]; intros [|d p2] Hnd E; simpl in *.
  - by injection E.
  - injection E as <- E. exfalso. apply NoDup_cons in Hnd as (Hn & _).
    apply Hn. rewrite E. set_solver.
  - injection E as -> E. exfalso. apply NoDup_cons in Hnd as (Hn & _).
    apply Hn. set_solver.
  - injection E as <- E. apply NoDup_cons in Hnd as (_ & Hnd).
    destruct (IH p2 Hnd E) as (-> & ->). done.
Qed.

(** [erase] at an element of the map. *)
Lemma erase_in_run this s t ta :
  tree_of s t → ta ∈ nodes t →
  ∃ nd m' t' fa pre post,
    mem s !! ta = Some nd
    ∧ erase this (mkIter (Some ta) (Some this)) s
      = Ok tt (mkState m' (ptr t') (wrap (n s - 1)))
    ∧ tree_of (mkState m' (ptr t') (wrap (n s - 1))) t'
    ∧ frame (nodes t) (mem s) m'
    ∧ m' !! fa = None ∧ nodes t ≡ₚ fa :: nodes t'
    ∧ elems t = pre ++ value nd :: post ∧ elems t' = pre ++ post.
Proof.
  intros Ht Hin. pose proof Ht as [Hroot Hrep Hu Hh Hb Ho].
  destruct (rep_dom _ _ _ _ Hrep Hin) as (nd & Hnd).
  destruct (in_nodes_subtree _ _ Hin) as (sub & Hs).
  destruct (subtree_at_root _ _ _ Hs) as (l & kv & hc & r & ->).
  destruct (rep_subtree _ _ _ _ _ Hrep Hs) as (par' & (Hc & _)).
  assert (value nd = kv) as <- by (rewrite Hnd in Hc; by injection Hc as ->).
  destruct (erase_run this s t ta nd Ht Hnd) as (m' & t' & e & f & E & Hrun & R' & F & G).
  destruct (t_erase_tree_of s t ta nd t' e f m' (wrap (n s - 1)) Ht Hnd E R')
    as (Ht' & Hel & _).
  destruct (Hel Hin) as (-> & pre & post & E1 & E2).
  assert (∃ fa, f = Some fa) as (fa & ->).
  { destruct (t_erase_at t ta l (value nd) hc r false Ho Hu Hs) as (t2 & p2 & q2 & _ & Hcase).
    destruct (is_leaf l || is_leaf r).
    - destruct Hcase as (E' & _). rewrite E' in E. injection E as _ <-. eauto.
    - destruct Hcase as (sa & skv & rest & _ & _ & E' & _). rewrite E' in E.
      injection E as _ <-. eauto. }
  pose proof (t_erase_nodes _ _ _ _ _ _ _ E) as Hperm. simpl in Hperm.
  exists nd, m', t', fa, pre, post. split_and!; try done. by apply G.
Qed.

Lemma wrap_wrap_add z k : wrap (wrap z + k) = wrap (z + k).
Proof. unfold wrap. apply Zplus_mod_idemp_l. Qed.

(** An AVL tree of height [h] has at least [2 ^ (h / 2) - 1] nodes. *)
Lemma balanced_size t :
  balanced t → 2 ^ (ht t / 2) ≤ Z.of_nat (length (nodes t)) + 1.
Proof.
  induction t as [|a l IHl kv hc r IHr]; simpl; [intros _; by vm_compute|].
  intros (Hd & Bl & Br). specialize (IHl Bl). specialize (IHr Br).
  pose proof (ht_nonneg l) as Hl0. pose proof (ht_nonneg r) as Hr0.
  rewrite length_app. simpl.
  set (hl := ht l) in *. set (hr := ht r) in *.
  assert ((1 + Z.max hl hr) / 2 = hl / 2
          ∨ (1 + Z.max hl hr) / 2 = hr / 2
          ∨ ((1 + Z.max hl hr) / 2 = hl / 2 + 1 ∧ hl / 2 ≤ hr / 2)
          ∨ ((1 + Z.max hl hr) / 2 = hr / 2 + 1 ∧ hr / 2 ≤ hl / 2)) as Hcase.
  { Z.to_euclidean_division_equations. lia. }
  assert (0 ≤ hl / 2) as Hl2 by (apply Z.div_pos; lia).
  assert (0 ≤ hr / 2) as Hr2 by (apply Z.div_pos; lia).
  destruct Hcase as [->|[->|[[-> Hle]|[-> Hle]]]]; try lia.
  - rewrite Z.add_1_r, Z.pow_succ_r by done.
    pose proof (Z.pow_le_mono_r 2 (hl / 2) (hr / 2)). lia.
  - rewrite Z.add_1_r, Z.pow_succ_r by done.
    pose proof (Z.pow_le_mono_r 2 (hr / 2) (hl / 2)). lia.
Qed.

Lemma ht_depth t : ht t = Z.of_nat (depth t).
Proof. induction t as [|a l IHl kv hc r IHr]; simpl; lia. Qed.

End InterfaceMore.

(** * Further properties of the container *)

Section Further.

Context {Key T : Type} `{!Compare Key} `{!Default T} `{!CompOrder Key}.
Implicit Types (s : state Key T) (t l r : tree Key T) (m : gmap addr (Node Key T)).

(** X1.  Incrementing, in both forms: from a node that is not the last of
    the in-order listing the iterator moves to the next node, whose key is
    larger; from the last node it becomes past-the-end; at past-the-end it
    throws [invalid_iterator].  The state is never changed, and the postfix
    form also returns the old position. *)
Theorem increment_steps_to_successor (this : mapid) s t :
  tree_of s t →
  (∀ pre x xkv y ykv post, cells t = pre ++ (x, xkv) :: (y, ykv) :: post →
     iter_pre_inc (mkIter (Some x) (Some this)) s = Ok (mkIter (Some y) (Some this)) s
     ∧ iter_post_inc (mkIter (Some x) (Some this)) s
       = Ok (mkIter (Some x) (Some this), mkIter (Some y) (Some this)) s
     ∧ lt (fst xkv) (fst ykv))
  ∧ (∀ pre x xkv, cells t = pre ++ [(x, xkv)] →
     iter_pre_inc (mkIter (Some x) (Some this)) s = Ok (mkIter None (Some this)) s
     ∧ iter_post_inc (mkIter (Some x) (Some this)) s
       = Ok (mkIter (Some x) (Some this), mkIter None (Some this)) s)
  ∧ iter_pre_inc (mkIter None (Some this)) s = Throw invalid_iterator s
  ∧ iter_post_inc (mkIter None (Some this)) s = Throw invalid_iterator s.
Proof.
  intros Ht. split_and!; try done.
  - intros pre x xkv y ykv post Hc.
    pose proof (iter_pre_inc_mid this s t pre x xkv y ykv post Ht Hc) as Hrun.
    split; [done|]. split; [by rewrite iter_post_inc_pre, Hrun|].
    pose proof (to_ord _ _ Ht) as Ho%ordered_cells. rewrite Hc in Ho.
    apply StronglySorted_app in Ho as (_ & _ & Ho).
    apply StronglySorted_cons in Ho as (Ho & _).
    by apply Forall_cons in Ho as (Ho & _).
  - intros pre x xkv Hc.
    pose proof (iter_pre_inc_last this s t pre x xkv Ht Hc) as Hrun.
    split; [done|]. by rewrite iter_post_inc_pre, Hrun.
Qed.

(** X2.  Stepping forth and back: at every element [++] succeeds and [--]
    of the result is the element again; and wherever [--] succeeds on a
    position of the map (an element or past-the-end), [++] of the result is
    the position it started from. *)
Theorem increment_decrement_round_trip (this : mapid) s t :
  tree_of s t →
  (∀ a, a ∈ nodes t →
     ∃ it', iter_pre_inc (mkIter (Some a) (Some this)) s = Ok it' s
            ∧ iter_pre_dec it' s = Ok (mkIter (Some a) (Some this)) s)
  ∧ (∀ c it' s', (∀ a, c = Some a → a ∈ nodes t) →
     iter_pre_dec (mkIter c (Some this)) s = Ok it' s' →
     s' = s ∧ iter_pre_inc it' s = Ok (mkIter c (Some this)) s).
Proof.
  intros Ht. split.
  - intros a (kv & Hin)%in_nodes_cell.
    destruct (cells_split _ _ _ Hin) as (pre & post & Hc).
    destruct post as [|[y ykv] post].
    + exists (mkIter None (Some this)).
      split; [by eapply iter_pre_inc_last|by eapply iter_pre_dec_end].
    + exists (mkIter (Some y) (Some this)).
      split; [by eapply iter_pre_inc_mid|by eapply iter_pre_dec_mid].
  - intros [a|] it' s' Hval Hdec.
    + destruct (in_nodes_cell _ _ (Hval a eq_refl)) as (kv & Hin).
      destruct (cells_split _ _ _ Hin) as (pre & post & Hc).
      destruct (decide (pre = [])) as [->|Hne].
      * rewrite (iter_pre_dec_min this s t a kv post Ht Hc) in Hdec. done.
      * destruct (exists_last Hne) as (pre' & [y ykv] & ->).
        rewrite <- app_assoc in Hc. simpl in Hc.
        rewrite (iter_pre_dec_mid this s t pre' y ykv a kv post Ht Hc) in Hdec.
        injection Hdec as <- <-. split; [done|]. by eapply iter_pre_inc_mid.
    + destruct (decide (cells t = [])) as [Hnil|Hne].
      * assert (root s = None) as Hr.
        { rewrite (to_root _ _ Ht). destruct t as [|? l ? ? ?]; [done|].
          simpl in Hnil. by destruct (cells l). }
        unfold iter_pre_dec in Hdec. cbn [owner cur] in Hdec.
        unfold bind, get_root in Hdec. by rewrite Hr in Hdec.
      * destruct (exists_last Hne) as (pre & [x xkv] & Hc).
        rewrite (iter_pre_dec_end this s t pre x xkv Ht Hc) in Hdec.
        injection Hdec as <- <-. split; [done|]. by eapply iter_pre_inc_last.
Qed.

(** X3.  [insert] of a pair whose key has no equivalent in the map returns
    [true] with the position of a newly allocated node that holds the pair
    ([operator*] there yields it); the count grows by one; every element
    that was stored keeps its node and its content, and the listing stays
    in order with the new pair between the smaller and the larger keys. *)
Theorem insert_new_key_adds_one_element (this : mapid) val s t :
  tree_of s t → counted s t → n s + 1 < size_max → ¬ has_key (fst val) t →
  ∃ a s' t' pre post,
    insert this val s = Ok (mkIter (Some a) (Some this), true) s'
    ∧ mem s !! a = None
    ∧ iter_deref (mkIter (Some a) (Some this)) s' = Ok val s'
    ∧ tree_of s' t' ∧ counted s' t' ∧ n s' = n s + 1
    ∧ cells t = pre ++ post ∧ cells t' = pre ++ (a, val) :: post
    ∧ Forall (λ c, lt (ckey c) (fst val)) pre
    ∧ Forall (λ c, lt (fst val) (ckey c)) post.
Proof.
  intros Ht (Hn & _) Hmax Hf%(t_find_absent _ t (to_ord _ _ Ht)).
  destruct (insert_run this val s t Ht) as (m' & t' & b & p & E & Hrun & Ht' & _).
  pose proof (t_insert_find (fresh (dom (mem s))) val t) as Hi. rewrite Hf in Hi.
  destruct Hi as (t'' & Hi). rewrite Hi in E. injection E as <- <- <-.
  destruct (t_insert_cells _ _ _ _ _ (to_ord _ _ Ht) Hi) as (pre & post & Hc & Hc' & H1 & H2).
  assert ((fresh (dom (mem s)), val) ∈ cells t'') as Hin by (rewrite Hc'; set_solver).
  destruct (rep_cell _ _ _ _ _ (to_rep _ _ Ht') Hin) as (nd & Hnd & Hv). simpl in Hnd.
  assert (wrap (n s + 1) = n s + 1) as Hw by (apply wrap_small; lia).
  exists (fresh (dom (mem s))), (mkState m' (ptr t'') (wrap (n s + 1))), t'', pre, post.
  split_and!; try done.
  - apply not_elem_of_dom. apply is_fresh.
  - cbn. rewrite Hnd. cbn. by rewrite Hv.
  - split; simpl; [|lia]. rewrite Hw, Hn, !nodes_cells, Hc, Hc'.
    rewrite !length_fmap, !length_app. simpl. lia.
Qed.

(** X4.  [find] and [count] search without writing.  If no key of the map
    is equivalent to the one sought, [find] returns a position equal to
    [end()] and [count] returns 0; otherwise [find] returns the position of
    an element with an equivalent key, which differs from [end()], and
    [count] returns 1. *)
Theorem find_and_count_locate_equivalent_key (this : mapid) k s t :
  tree_of s t →
  ∃ it c,
    find this k s = Ok it s ∧ count k s = Ok c s
    ∧ owner it = Some this
    ∧ (¬ has_key k t →
       iter_eq it (mkIter None (Some this)) = true ∧ c = 0)
    ∧ (has_key k t →
       iter_ne it (mkIter None (Some this)) = true ∧ c = 1
       ∧ ∃ a nd, cur it = Some a ∧ a ∈ nodes t ∧ mem s !! a = Some nd
                 ∧ equiv_key k (fst (value nd))).
Proof.
  intros Ht. pose proof (find_run this k s t Ht) as Hfind.
  assert (count k s = Ok (match t_find k t with Some _ => 1 | None => 0 end) s) as Hcount.
  { unfold count, bind. by rewrite (findNode_run k s t Ht). }
  eexists _, _. split; [exact Hfind|]. split; [exact Hcount|]. split; [done|]. split.
  - intros Hf%(t_find_absent _ t (to_ord _ _ Ht)). rewrite Hf. split; [|done].
    unfold iter_eq. cbn. by rewrite !bool_decide_eq_true_2.
  - intros Hk.
    destruct (t_find_present _ _ (to_ord _ _ Ht) Hk) as (a & kv & Hf & Hc & He).
    destruct (rep_cell _ _ _ _ _ (to_rep _ _ Ht) Hc) as (nd & Hnd & <-).
    rewrite Hf. split_and!; try done.
    + unfold iter_ne, iter_eq. cbn.
      rewrite (bool_decide_eq_false_2 (Some a = None)) by done.
      by rewrite andb_false_r.
    + exists a, nd. split_and!; try done. by eapply in_cells_nodes.
Qed.

(** X5.  [erase] at the position of an element of the map succeeds: that
    element, and no other, leaves the in-order listing; exactly one node is
    freed, a node of the tree that was live before the call, and the nodes
    of the new tree are the other nodes of the old one; no node is
    allocated; the count goes down by one; the tree keeps its invariants. *)
Theorem erase_removes_exactly_that_element (this : mapid) s t ta :
  tree_of s t → counted s t → ta ∈ nodes t →
  ∃ nd s' t' fa pre post,
    mem s !! ta = Some nd
    ∧ erase this (mkIter (Some ta) (Some this)) s = Ok tt s'
    ∧ tree_of s' t' ∧ counted s' t' ∧ n s' = n s - 1
    ∧ elems t = pre ++ value nd :: post ∧ elems t' = pre ++ post
    ∧ fa ∈ nodes t ∧ is_Some (mem s !! fa)
    ∧ nodes t ≡ₚ fa :: nodes t'
    ∧ mem s' !! fa = None
    ∧ (∀ b, b ≠ fa → is_Some (mem s' !! b) ↔ is_Some (mem s !! b)).
Proof.
  intros Ht (Hn & Hmax) Hin.
  destruct (erase_in_run this s t ta Ht Hin)
    as (nd & m' & t' & fa & pre & post & Hnd & Hrun & Ht' & F & Hfa & Hperm & E1 & E2).
  assert (1 ≤ n s) as Hpos.
  { rewrite Hn. destruct (nodes t); [by apply elem_of_nil in Hin|simpl; lia]. }
  assert (wrap (n s - 1) = n s - 1) as Hw by (apply wrap_small; lia).
  assert (fa ∈ nodes t) as Hfin by (rewrite Hperm; set_solver).
  exists nd, (mkState m' (ptr t') (wrap (n s - 1))), t', fa, pre, post.
  split_and!; try done.
  - split; simpl; [|lia]. rewrite Hw, Hn.
    apply Permutation_length in Hperm. simpl in Hperm. lia.
  - exact (rep_dom _ _ _ _ (to_rep _ _ Ht) Hfin).
  - intros b Hb. simpl. destruct (decide (b ∈ nodes t)) as [Hbt|Hbt].
    + split; intros _; [exact (rep_dom _ _ _ _ (to_rep _ _ Ht) Hbt)|].
      apply (rep_dom _ _ _ _ (to_rep _ _ Ht')). rewrite Hperm in Hbt. set_solver.
    + by rewrite F.
Qed.

(** X6.  [erase] throws [invalid_iterator] for a position of another
    container, for past-the-end, and for a live node that is not in this
    map's tree.  In the first two cases nothing was touched; in the third
    the nodes, their contents and the count are as before. *)
Theorem erase_rejects_foreign_position (this : mapid) s t pos :
  tree_of s t →
  (owner pos ≠ Some this ∨ cur pos = None →
     erase this pos s = Throw invalid_iterator s)
  ∧ (∀ a, pos = mkIter (Some a) (Some this) → a ∉ nodes t → is_Some (mem s !! a) →
     ∃ s' t', erase this pos s = Throw invalid_iterator s'
              ∧ tree_of s' t' ∧ cells t' = cells t ∧ n s' = n s).
Proof.
  intros Ht. split; [apply erase_bad_pos|].
  intros a -> Hnin (nd & Hnd).
  destruct (erase_run this s t a nd Ht Hnd) as (m' & t' & e & f & E & Hrun & R' & _).
  destruct (t_erase_tree_of s t a nd t' e f m'
              (match f with Some _ => wrap (n s - 1) | None => n s end) Ht Hnd E R')
    as (Ht' & _ & Hout).
  destruct (Hout Hnin) as (-> & -> & Hc).
  eexists _, t'. split; [exact Hrun|]. done.
Qed.

(** X7.  Erasing a position whose node has at most one child frees that
    very node; all other elements stay in their nodes, in the same order. *)
Theorem erase_leaf_or_single_child_frees_named_node (this : mapid) s t ta nd :
  tree_of s t → counted s t → ta ∈ nodes t →
  mem s !! ta = Some nd → left nd = None ∨ right nd = None →
  ∃ s' t' pre post,
    erase this (mkIter (Some ta) (Some this)) s = Ok tt s'
    ∧ mem s' !! ta = None
    ∧ (∀ b, b ≠ ta → is_Some (mem s' !! b) ↔ is_Some (mem s !! b))
    ∧ n s' = n s - 1
    ∧ tree_of s' t'
    ∧ cells t = pre ++ (ta, value nd) :: post ∧ cells t' = pre ++ post.
Proof.
  intros Ht (Hn & Hmax) Hin Hnd Hchild.
  pose proof Ht as [Hroot Hrep Hu Hh Hb Ho].
  destruct (in_nodes_subtree _ _ Hin) as (sub & Hs).
  destruct (subtree_at_root _ _ _ Hs) as (l & kv & hc & r & ->).
  destruct (rep_subtree _ _ _ _ _ Hrep Hs) as (par' & (Hc & _)).
  rewrite Hnd in Hc. injection Hc as ->. simpl in Hchild.
  destruct (t_erase_at t ta _ _ _ _ false Ho Hu Hs) as (t' & pre & post & Hcells & Hcase).
  assert (is_leaf l || is_leaf r = true) as Hleaf.
  { destruct l, r; simpl in *; try done. by destruct Hchild. }
  rewrite Hleaf in Hcase. destruct Hcase as (Herase & Hcells').
  destruct (erase_run this s t ta _ Ht Hnd) as (m' & t'' & e & f & E & Hrun & R' & F & G).
  simpl in E. rewrite Herase in E. injection E as <- <- <-.
  destruct (t_erase_tree_of s t ta _ t' true (Some ta) m' (wrap (n s - 1)) Ht Hnd Herase R')
    as (Ht' & _ & _).
  pose proof (t_erase_nodes _ _ _ _ _ _ _ Herase) as Hperm. simpl in Hperm.
  assert (1 ≤ n s) as Hpos.
  { rewrite Hn. destruct (nodes t); [by apply elem_of_nil in Hin|simpl; lia]. }
  assert (wrap (n s - 1) = n s - 1) as Hw by (apply wrap_small; lia).
  exists (mkState m' (ptr t') (wrap (n s - 1))), t', (pre ++ cells l), (cells r ++ post).
  split_and!; try done.
  - by apply G.
  - intros b Hb'. simpl. destruct (decide (b ∈ nodes t)) as [Hbt|Hbt].
    + split; intros _; [exact (rep_dom _ _ _ _ Hrep Hbt)|].
      apply (rep_dom _ _ _ _ R'). rewrite Hperm in Hbt. set_solver.
    + by rewrite F.
  - rewrite Hcells. by rewrite <- !app_assoc.
  - rewrite Hcells'. by rewrite <- !app_assoc.
Qed.

End Further.

Section Lifecycle.

Context {Key T : Type} `{!Compare Key} `{!Default T} `{!CompOrder Key}.
Implicit Types (s : state Key T) (t l r : tree Key T) (m : gmap addr (Node Key T)).

(** X8.  After any sequence of insert and erase calls that starts from an
    empty map, [size()] is the number of nodes of the tree, taken modulo
    [2^64] as [size_t] arithmetic does. *)
Theorem reachable_size_counts_nodes (this : mapid) s :
  reachable this s →
  ∃ t, tree_of s t ∧ size_ s = Ok (wrap (Z.of_nat (length (nodes t)))) s.
Proof.
  intros Hr.
  assert (∃ t, tree_of s t ∧ n s = wrap (Z.of_nat (length (nodes t)))) as (t & Ht & Hn).
  { induction Hr as [m|s val res s' _ (t & Ht & Hn) Hrun|s pos s' _ (t & Ht & Hn) Hrun
                     |s pos e s' _ (t & Ht & Hn) Hrun].
    - exists Leaf. split; [apply tree_of_Leaf|done].
    - destruct (insert_run this val s t Ht) as (m' & t' & b & p & E & Hrun' & Ht' & _).
      rewrite Hrun' in Hrun. injection Hrun as _ <-. exists t'. split; [done|].
      simpl. destruct b.
      + destruct (t_insert_cells _ _ _ _ _ (to_ord _ _ Ht) E) as (pre & post & Hc & Hc' & _).
        rewrite Hn, wrap_wrap_add. f_equal.
        rewrite !nodes_cells, Hc, Hc', !length_fmap, !length_app. simpl. lia.
      + rewrite Hn, !nodes_cells. by rewrite (t_insert_cells_found _ _ _ _ _ E).
    - destruct pos as [[ta|] o].
      + destruct (decide (o = Some this)) as [->|Ho].
        * destruct (decide (ta ∈ nodes t)) as [Hin|Hnin].
          -- destruct (erase_in_run this s t ta Ht Hin)
               as (nd & m' & t' & fa & pre & post & _ & Hrun' & Ht' & _ & _ & Hperm & _).
             rewrite Hrun' in Hrun. injection Hrun as <-. exists t'. split; [done|].
             simpl. rewrite Hn. apply Permutation_length in Hperm. simpl in Hperm.
             replace (wrap (Z.of_nat (length (nodes t))) - 1)
               with (wrap (Z.of_nat (length (nodes t))) + (-1)) by lia.
             rewrite wrap_wrap_add. f_equal. lia.
          -- destruct (mem s !! ta) as [tnd|] eqn:Hnd.
             ++ destruct (erase_run this s t ta tnd Ht Hnd)
                  as (m' & t' & e & f & E & Hrun' & R' & _).
                destruct (t_erase_tree_of s t ta tnd t' e f m'
                            (match f with Some _ => wrap (n s - 1) | None => n s end)
                            Ht Hnd E R') as (_ & _ & Hout).
                destruct (Hout Hnin) as (-> & _). by rewrite Hrun' in Hrun.
             ++ rewrite (erase_dangling this s t ta Ht Hnd) in Hrun. by destruct t.
        * rewrite erase_bad_pos in Hrun by (by left). done.
      + rewrite erase_bad_pos in Hrun by (by right). done.
    - destruct pos as [[ta|] o].
      + destruct (decide (o = Some this)) as [->|Ho].
        * destruct (decide (ta ∈ nodes t)) as [Hin|Hnin].
          -- destruct (erase_in_run this s t ta Ht Hin)
               as (nd & m' & t' & fa & pre & post & _ & Hrun' & _).
             by rewrite Hrun' in Hrun.
          -- destruct (mem s !! ta) as [tnd|] eqn:Hnd.
             ++ destruct (erase_run this s t ta tnd Ht Hnd)
                  as (m' & t' & e' & f & E & Hrun' & R' & _).
                destruct (t_erase_tree_of s t ta tnd t' e' f m'
                            (match f with Some _ => wrap (n s - 1) | None => n s end)
                            Ht Hnd E R') as (Ht' & _ & Hout).
                destruct (Hout Hnin) as (-> & -> & Hc).
                rewrite Hrun' in Hrun. injection Hrun as _ <-. exists t'. split; [done|].
                simpl. by rewrite Hn, !nodes_cells, Hc.
             ++ rewrite (erase_dangling this s t ta Ht Hnd) in Hrun.
                destruct t; [|done]. injection Hrun as _ <-. eauto.
        * rewrite erase_bad_pos in Hrun by (by left). injection Hrun as _ <-. eauto.
      + rewrite erase_bad_pos in Hrun by (by right). injection Hrun as _ <-. eauto. }
  exists t. split; [done|]. unfold size_, get_n. by rewrite Hn.
Qed.

(** X9.  [clear], and the destructor, which is [clear]: every node of the
    tree is freed, no other node of the store is touched, and the object is
    an empty map again: [size()] is 0, [empty()] holds, [begin()] is
    [end()], and [find] returns [end()] for every key. *)
Theorem clear_frees_every_node (this : mapid) s t :
  tree_of s t →
  ∃ s',
    clear s = Ok tt s' ∧ map_destroy s = Ok tt s'
    ∧ (∀ a, a ∈ nodes t → mem s' !! a = None)
    ∧ (∀ a, a ∉ nodes t → mem s' !! a = mem s !! a)
    ∧ tree_of s' Leaf
    ∧ size_ s' = Ok 0 s' ∧ empty s' = Ok true s'
    ∧ begin_ this s' = Ok (mkIter None (Some this)) s'
    ∧ ∀ k, find this k s' = Ok (mkIter None (Some this)) s'.
Proof.
  intros Ht. destruct (clear_run s t Ht) as (m' & Hrun & F & G).
  pose proof (tree_of_Leaf m' 0) as Ht'.
  exists (mkState m' None 0). split_and!; done.
Qed.

(** X10.  The copy constructor makes a deep copy: the new map has the same
    elements in the same order and the same count, in nodes none of which
    was live before, and the source is left as it was.  The two maps are
    independent afterwards: inserting into the copy, erasing from it or
    clearing it leaves the tree of the source in place. *)
Theorem copy_is_deep_and_independent (this : mapid) s t :
  tree_of s t →
  ∃ s' t',
    map_copy s = Ok tt s'
    ∧ tree_of s' t' ∧ elems t' = elems t ∧ n s' = n s
    ∧ (∀ a, a ∈ nodes t' → mem s !! a = None)
    ∧ (∀ a, is_Some (mem s !! a) → mem s' !! a = mem s !! a)
    ∧ rep (mem s') None t
    ∧ (∀ val, ∃ res s'', insert this val s' = Ok res s'' ∧ rep (mem s'') None t)
    ∧ (∀ a, a ∈ nodes t' →
         ∃ s'', erase this (mkIter (Some a) (Some this)) s' = Ok tt s''
                ∧ rep (mem s'') None t)
    ∧ (∃ s'', clear s' = Ok tt s'' ∧ rep (mem s'') None t).
Proof.
  intros Ht.
  destruct (map_copy_run s t Ht) as (m' & t' & Hrun & Ht' & Hs & Hfresh & Hext).
  assert (rep m' None t) as Hrep by (eapply rep_extends; [exact (to_rep _ _ Ht)|done]).
  assert (disj (nodes t') (nodes t)) as Hd.
  { intros a Ha Hb. apply Hfresh in Ha.
    destruct (rep_dom _ _ _ _ (to_rep _ _ Ht) Hb) as (? & ?). congruence. }
  exists (mkState m' (ptr t') (n s)), t'. split_and!; try done.
  - by apply same_shape_elems.
  - intros val.
    destruct (insert_run this val _ t' Ht') as (m2 & t2 & b & p & _ & Hrun2 & _ & F).
    eexists _, _. split; [exact Hrun2|]. simpl in *.
    eapply rep_frame_disj; [exact Hrep|exact F|].
    intros a [->|Ha]%elem_of_cons; [|by apply Hd].
    intros Hb. destruct (rep_dom _ _ _ _ Hrep Hb) as (nd & Hnd).
    pose proof (is_fresh (dom m')) as Hfr. apply not_elem_of_dom in Hfr. congruence.
  - intros a Ha.
    destruct (erase_in_run this _ t' a Ht' Ha)
      as (nd & m2 & t2 & fa & pre & post & _ & Hrun2 & _ & F & _).
    eexists. split; [exact Hrun2|]. simpl in *.
    eapply rep_frame_disj; [exact Hrep|exact F|exact Hd].
  - destruct (clear_run _ t' Ht') as (m2 & Hrun2 & F & _).
    eexists. split; [exact Hrun2|]. simpl in *.
    eapply rep_frame_disj; [exact Hrep|exact F|exact Hd].
Qed.


(** X12.  Inserting a pair with a new key and erasing the returned position
    brings back the elements and the count the map had (the shape of the
    tree may differ). *)
Theorem insert_then_erase_restores_contents (this : mapid) val s t :
  tree_of s t → counted s t → ¬ has_key (fst val) t →
  ∃ p s1 s2 t2,
    insert this val s = Ok (mkIter (Some p) (Some this), true) s1
    ∧ erase this (mkIter (Some p) (Some this)) s1 = Ok tt s2
    ∧ tree_of s2 t2 ∧ elems t2 = elems t ∧ n s2 = n s.
Proof.
  intros Ht (Hn & Hmax) Hf%(t_find_absent _ t (to_ord _ _ Ht)).
  destruct (insert_run this val s t Ht) as (m' & t' & b & p & E & Hrun & Ht' & _).
  pose proof (t_insert_find (fresh (dom (mem s))) val t) as Hi. rewrite Hf in Hi.
  destruct Hi as (t'' & Hi). rewrite Hi in E. injection E as <- <- <-.
  destruct (t_insert_cells _ _ _ _ _ (to_ord _ _ Ht) Hi) as (pre & post & Hc & Hc' & _).
  assert ((fresh (dom (mem s)), val) ∈ cells t'') as Hin by (rewrite Hc'; set_solver).
  destruct (erase_in_run this _ t'' _ Ht' (in_cells_nodes _ _ _ Hin))
    as (nd & m2 & t2 & fa & pre2 & post2 & Hnd & Hrun2 & Ht2 & _ & _ & _ & E1 & E2).
  destruct (rep_cell _ _ _ _ _ (to_rep _ _ Ht') Hin) as (nd' & Hnd' & Hv).
  rewrite Hnd in Hnd'. injection Hnd' as <-. rewrite Hv in E1.
  assert (elems t'' = (snd <$> pre) ++ val :: (snd <$> post)) as E1'.
  { by rewrite elems_cells, Hc', fmap_app. }
  pose proof (to_ord _ _ Ht') as Ho'. unfold ordered, keys in Ho'.
  destruct (NoDup_split_unique _ _ _ _ _ _ (sorted_keys_NoDup _ Ho') E1 E1') as (-> & ->).
  eexists _, _, _, t2. split; [exact Hrun|]. split; [exact Hrun2|].
  split; [done|]. split.
  - by rewrite E2, elems_cells, Hc, fmap_app.
  - simpl. replace (wrap (n s + 1) - 1) with (wrap (n s + 1) + (-1)) by lia.
    rewrite wrap_wrap_add. replace (n s + 1 + -1) with (n s) by lia.
    apply wrap_small. lia.
Qed.

End Lifecycle.

Section Balance.

Context {Key T : Type} `{!Compare Key} `{!Default T} `{!CompOrder Key}.
Implicit Types (s : state Key T) (t l r : tree Key T) (m : gmap addr (Node Key T)).

(** X13.  The height of the tree is logarithmic in the number of elements:
    a map whose tree has height [h] holds at least [2 ^ (h / 2) - 1]
    elements; and the loop of [findNode] ends within [h + 1] tests of
    [cur]. *)
Theorem avl_height_is_logarithmic k s t :
  tree_of s t →
  2 ^ (ht t / 2) ≤ Z.of_nat (length (nodes t)) + 1
  ∧ findNode (S (Z.to_nat (ht t))) k s = Ok (t_find k t) s.
Proof.
  intros Ht. split; [apply balanced_size, (to_bal _ _ Ht)|].
  destruct Ht as [Hroot Hrep _ _ _ _]. destruct s as [m rt c]. simpl in *. subst rt.
  unfold findNode, bind, get_root. cbn [root].
  apply (findNode_loop_sim k _ t m None (ptr t) c Hrep). rewrite ht_depth. lia.
Qed.

(** X14.  The two rotations, run on a subtree whose root has the child they
    turn around, where the cached heights of the three subtrees that hang
    below the two nodes are [int]s at least two below [INT_MAX] (so that
    the heights computed fit in an [int]): the child becomes the root of the
    subtree, the in-order listing of nodes and contents is the same, the
    heights of the two nodes involved are recomputed from their children
    and are [int]s, and no node outside the subtree is written. *)
Theorem rotations_keep_in_order_listing m par rt c y x A kx hx B ky hy C :
  int_min ≤ hgt A ≤ int_max - 2 →
  int_min ≤ hgt B ≤ int_max - 2 →
  int_min ≤ hgt C ≤ int_max - 2 →
  (let t := Nd y (Nd x A kx hx B) ky hy C in
   rep m par t → uniq t →
   ∃ m' par' h1 h2,
     rotateRight (Some y) (mkState m rt c) = Ok (Some x) (mkState m' rt c)
     ∧ rep m' par' (Nd x A kx h1 (Nd y B ky h2 C))
     ∧ h2 = 1 + max2 (hgt B) (hgt C) ∧ h1 = 1 + max2 (hgt A) h2
     ∧ in_int h1 ∧ in_int h2
     ∧ cells (Nd x A kx h1 (Nd y B ky h2 C)) = cells t
     ∧ frame (nodes t) m m')
  ∧ (let t := Nd x A kx hx (Nd y B ky hy C) in
     rep m par t → uniq t →
     ∃ m' par' h1 h2,
       rotateLeft (Some x) (mkState m rt c) = Ok (Some y) (mkState m' rt c)
       ∧ rep m' par' (Nd y (Nd x A kx h2 B) ky h1 C)
       ∧ h2 = 1 + max2 (hgt A) (hgt B) ∧ h1 = 1 + max2 h2 (hgt C)
       ∧ in_int h1 ∧ in_int h2
       ∧ cells (Nd y (Nd x A kx h2 B) ky h1 C) = cells t
       ∧ frame (nodes t) m m').
Proof.
  intros HA HB HC.
  assert (∀ p q, int_min ≤ p ≤ int_max - 2 → int_min ≤ q ≤ int_max - 2 →
                 int_min ≤ 1 + max2 p q ≤ int_max - 1) as Hstep.
  { intros p q Hp Hq. rewrite max2_max. unfold int_min, int_max in *. lia. }
  assert (∀ p q, int_min ≤ p ≤ int_max - 1 → int_min ≤ q ≤ int_max - 1 →
                 in_int (1 + max2 p q)) as Hlast.
  { intros p q Hp Hq. rewrite max2_max. unfold in_int, int_min, int_max in *. lia. }
  assert (∀ p, int_min ≤ p ≤ int_max - 2 → int_min ≤ p ≤ int_max - 1) as Hweak by lia.
  assert (∀ p, int_min ≤ p ≤ int_max - 1 → in_int p) as Hin.
  { intros p Hp. unfold in_int. lia. }
  split; intros t Hrep Hu; subst t.
  - destruct (rotateRight_sim m par rt c y x A kx hx B ky hy C Hrep Hu)
      as (m' & par' & Hrun & R' & F).
    exists m', par', (1 + max2 (hgt A) (1 + max2 (hgt B) (hgt C))),
      (1 + max2 (hgt B) (hgt C)).
    split; [done|]. split; [exact R'|]. split; [done|]. split; [done|].
    split; [apply Hlast; [by apply Hweak|by apply Hstep]|].
    split; [apply Hin; by apply Hstep|].
    split; [|done]. simpl. by rewrite <- !app_assoc.
  - destruct (rotateLeft_sim m par rt c y x A kx hx B ky hy C Hrep Hu)
      as (m' & par' & Hrun & R' & F).
    exists m', par', (1 + max2 (1 + max2 (hgt A) (hgt B)) (hgt C)),
      (1 + max2 (hgt A) (hgt B)).
    split; [done|]. split; [exact R'|]. split; [done|]. split; [done|].
    split; [apply Hlast; [by apply Hstep|by apply Hweak]|].
    split; [apply Hin; by apply Hstep|].
    split; [|done]. simpl. by rewrite <- !app_assoc.
Qed.

(** X15.  [rebalance] on a node whose two subtrees are AVL trees with
    correct cached heights that differ by at most two returns the root of an
    AVL tree with correct cached heights and the same in-order listing; its
    height is that of the higher subtree or one more; no node outside the
    subtree is written. *)
Theorem rebalance_restores_balance m par rt c a l kv hc r :
  let t := Nd a l kv hc r in
  rep m par t → uniq t → hok l → hok r → balanced l → balanced r →
  -2 ≤ ht l - ht r ≤ 2 →
  ∃ m' par' t',
    rebalance (Some a) (mkState m rt c) = Ok (ptr t') (mkState m' rt c)
    ∧ rep m' par' t' ∧ hok t' ∧ balanced t'
    ∧ cells t' = cells t
    ∧ Z.max (ht l) (ht r) ≤ ht t' ≤ 1 + Z.max (ht l) (ht r)
    ∧ frame (nodes t) m m'.
Proof.
  intros t Hrep Hu Hl Hr Bl Br Hd. subst t.
  destruct (rebalance_sim m par rt c a l kv hc r Hrep Hu Hl Hr) as (m' & par' & Hrun & R' & F).
  pose proof (balanced_t_rebalance a l kv hc r Hl Hr Bl Br Hd) as (Hb & Hh & _).
  exists m', par', (t_rebalance (Nd a l kv hc r)).
  split; [done|]. split; [done|]. split; [by apply hok_t_rebalance|].
  split; [done|]. split; [apply cells_t_rebalance|]. split; done.
Qed.

End Balance.

Section Assignment.

Context {Key T : Type} `{!Compare Key} `{!Default T} `{!CompOrder Key}.
Implicit Types (s : state Key T) (t l r : tree Key T) (m : gmap addr (Node Key T)).

(** X16.  The copy assignment from another object, whose tree lives in the
    same store apart from the tree of [*this]: afterwards [*this] holds the
    elements of the other map in the same order and has its count; its
    nodes are apart from the other map's, which are unchanged, as is every
    live node that did not belong to the old tree of [*this]; and a later
    insert into [*this] leaves the other map's tree in place. *)
Theorem assignment_replaces_contents (this other : mapid) s t t2 c2 :
  this ≠ other →
  tree_of s t → tree_of (mkState (mem s) (ptr t2) c2) t2 → disj (nodes t) (nodes t2) →
  ∃ s' t',
    map_assign this other (ptr t2) c2 s = Ok tt s'
    ∧ tree_of s' t' ∧ elems t' = elems t2 ∧ n s' = c2
    ∧ rep (mem s') None t2 ∧ disj (nodes t') (nodes t2)
    ∧ (∀ a, a ∉ nodes t → is_Some (mem s !! a) → mem s' !! a = mem s !! a)
    ∧ (∀ val, ∃ res s'', insert this val s' = Ok res s'' ∧ rep (mem s'') None t2).
Proof.
  intros Hne Ht [_ Hrep2 Hu2 Hh2 Hb2 Ho2] Hd. simpl in *.
  destruct (clear_run s t Ht) as (m1 & Hrun1 & F1 & G1).
  assert (rep m1 None t2) as R1 by (eapply rep_frame_disj; [exact Hrep2|exact F1|exact Hd]).
  destruct (copy_from_run t2 m1 None None 0 c2 R1 Hu2)
    as (m' & t' & Hrun & R' & Hs & U' & Hfresh & Hext).
  assert (tree_of (mkState m' (ptr t') c2) t') as Ht' by (by eapply same_shape_tree_of).
  assert (rep m' None t2) as Hrep' by (by eapply rep_extends).
  assert (disj (nodes t') (nodes t2)) as Hd'.
  { intros a Ha Hb. apply Hfresh in Ha.
    destruct (rep_dom _ _ _ _ R1 Hb) as (? & ?). congruence. }
  exists (mkState m' (ptr t') c2), t'. split_and!; try done.
  - unfold map_assign. rewrite decide_False by done.
    unfold bind. rewrite Hrun1. exact Hrun.
  - by apply same_shape_elems.
  - intros a Ha Hlive. simpl. rewrite <- (F1 a Ha) in Hlive.
    rewrite (Hext a Hlive). by apply F1.
  - intros val.
    destruct (insert_run this val _ t' Ht') as (m2 & t3 & b & p & _ & Hrun2 & _ & F).
    eexists _, _. split; [exact Hrun2|]. simpl in *.
    eapply rep_frame_disj; [exact Hrep'|exact F|].
    intros a [->|Ha]%elem_of_cons; [|by apply Hd'].
    intros Hb. destruct (rep_dom _ _ _ _ Hrep' Hb) as (nd & Hnd).
    pose proof (is_fresh (dom m')) as Hfr. apply not_elem_of_dom in Hfr. congruence.
Qed.

End Assignment.

(** * The further properties at concrete maps *)

Lemma stray_tree_of : tree_of stray_state three_tree.
Proof.
  split.
  - reflexivity.
  - split; [reflexivity|]. split; (split; [reflexivity|split; exact I]).
  - exact (to_uniq _ _ three_tree_of).
  - exact (to_hok _ _ three_tree_of).
  - exact (to_bal _ _ three_tree_of).
  - exact (to_ord _ _ three_tree_of).
Qed.

Lemma three_no_key_5 : ¬ has_key 5 three_tree.
Proof. apply (t_find_absent 5 three_tree (to_ord _ _ three_tree_of)). reflexivity. Qed.

Lemma three_in_1 : 1%positive ∈ nodes three_tree.
Proof. simpl. set_solver. Qed.

Lemma three_in_2 : 2%positive ∈ nodes three_tree.
Proof. simpl. set_solver. Qed.

(** X1 at the three-element map. *)
Lemma increment_witness :
  tree_of three_state three_tree
  ∧ iter_pre_inc (mkIter (Some 2%positive) (Some obj)) three_state
    = Ok (mkIter (Some 1%positive) (Some obj)) three_state
  ∧ iter_post_inc (mkIter (Some 1%positive) (Some obj)) three_state
    = Ok (mkIter (Some 1%positive) (Some obj), mkIter (Some 3%positive) (Some obj))
         three_state
  ∧ iter_pre_inc (mkIter (Some 3%positive) (Some obj)) three_state
    = Ok (mkIter None (Some obj)) three_state
  ∧ iter_pre_inc (mkIter None (Some obj)) three_state
    = Throw invalid_iterator three_state.
Proof.
  split; [exact three_tree_of|].
  destruct (increment_steps_to_successor obj three_state three_tree three_tree_of)
    as (Hmid & Hlast & Hend & _).
  destruct (Hmid [] 2%positive (1, 10) 1%positive (2, 20) [(3%positive, (3, 30))] eq_refl)
    as (H1 & _).
  destruct (Hmid [(2%positive, (1, 10))] 1%positive (2, 20) 3%positive (3, 30) [] eq_refl)
    as (_ & H2 & _).
  destruct (Hlast [(2%positive, (1, 10)); (1%positive, (2, 20))] 3%positive (3, 30) eq_refl)
    as (H3 & _).
  exact (conj H1 (conj H2 (conj H3 Hend))).
Defined.

(** X2 at the three-element map. *)
Lemma round_trip_witness :
  tree_of three_state three_tree
  ∧ (∃ it', iter_pre_inc (mkIter (Some 1%positive) (Some obj)) three_state
            = Ok it' three_state
            ∧ iter_pre_dec it' three_state
              = Ok (mkIter (Some 1%positive) (Some obj)) three_state)
  ∧ (iter_pre_dec (mkIter None (Some obj)) three_state
     = Ok (mkIter (Some 3%positive) (Some obj)) three_state →
     three_state = three_state
     ∧ iter_pre_inc (mkIter (Some 3%positive) (Some obj)) three_state
       = Ok (mkIter None (Some obj)) three_state).
Proof.
  split; [exact three_tree_of|].
  destruct (increment_decrement_round_trip obj three_state three_tree three_tree_of)
    as (H1 & H2).
  split; [exact (H1 1%positive three_in_1)|].
  apply (H2 None). intros a Ha. discriminate Ha.
Defined.

(** X3 at the three-element map and the pair [(5, 50)]. *)
Lemma insert_new_key_witness :
  tree_of three_state three_tree ∧ counted three_state three_tree
  ∧ n three_state + 1 < size_max ∧ ¬ has_key 5 three_tree
  ∧ ∃ a s' t' pre post,
      insert obj (5, 50) three_state = Ok (mkIter (Some a) (Some obj), true) s'
      ∧ mem three_state !! a = None
      ∧ iter_deref (mkIter (Some a) (Some obj)) s' = Ok (5, 50) s'
      ∧ tree_of s' t' ∧ counted s' t' ∧ n s' = n three_state + 1
      ∧ cells three_tree = pre ++ post ∧ cells t' = pre ++ (a, (5, 50)) :: post
      ∧ Forall (λ c, lt (ckey c) 5) pre
      ∧ Forall (λ c, lt 5 (ckey c)) post.
Proof.
  assert (n three_state + 1 < size_max) as Hlt by reflexivity.
  split; [exact three_tree_of|]. split; [exact three_counted|]. split; [exact Hlt|].
  split; [exact three_no_key_5|].
  exact (insert_new_key_adds_one_element obj (5, 50) three_state three_tree
           three_tree_of three_counted Hlt three_no_key_5).
Defined.

(** X4 at the three-element map and the key 2. *)
Lemma find_and_count_witness :
  tree_of three_state three_tree
  ∧ ∃ it c,
      find obj 2 three_state = Ok it three_state ∧ count 2 three_state = Ok c three_state
      ∧ owner it = Some obj
      ∧ (¬ has_key 2 three_tree →
         iter_eq it (mkIter None (Some obj)) = true ∧ c = 0)
      ∧ (has_key 2 three_tree →
         iter_ne it (mkIter None (Some obj)) = true ∧ c = 1
         ∧ ∃ a nd, cur it = Some a ∧ a ∈ nodes three_tree
                   ∧ mem three_state !! a = Some nd ∧ equiv_key 2 (fst (value nd))).
Proof.
  split; [exact three_tree_of|].
  exact (find_and_count_locate_equivalent_key obj 2 three_state three_tree three_tree_of).
Defined.

(** X5 at the three-element map: erasing the root. *)
Lemma erase_element_witness :
  tree_of three_state three_tree ∧ counted three_state three_tree
  ∧ 1%positive ∈ nodes three_tree
  ∧ ∃ nd s' t' fa pre post,
      mem three_state !! 1%positive = Some nd
      ∧ erase obj (mkIter (Some 1%positive) (Some obj)) three_state = Ok tt s'
      ∧ tree_of s' t' ∧ counted s' t' ∧ n s' = n three_state - 1
      ∧ elems three_tree = pre ++ value nd :: post ∧ elems t' = pre ++ post
      ∧ fa ∈ nodes three_tree ∧ is_Some (mem three_state !! fa)
      ∧ nodes three_tree ≡ₚ fa :: nodes t'
      ∧ mem s' !! fa = None
      ∧ (∀ b, b ≠ fa → is_Some (mem s' !! b) ↔ is_Some (mem three_state !! b)).
Proof.
  split; [exact three_tree_of|]. split; [exact three_counted|]. split; [exact three_in_1|].
  exact (erase_removes_exactly_that_element obj three_state three_tree 1%positive
           three_tree_of three_counted three_in_1).
Defined.

(** X6 at the store with a stray node: the past-the-end position, and the
    position of the stray node. *)
Lemma erase_rejects_witness :
  tree_of stray_state three_tree
  ∧ erase obj (mkIter None (Some obj)) stray_state = Throw invalid_iterator stray_state
  ∧ (4%positive ∉ nodes three_tree) ∧ is_Some (mem stray_state !! 4%positive)
  ∧ ∃ s' t', erase obj (mkIter (Some 4%positive) (Some obj)) stray_state
             = Throw invalid_iterator s'
             ∧ tree_of s' t' ∧ cells t' = cells three_tree ∧ n s' = n stray_state.
Proof.
  assert (4%positive ∉ nodes three_tree) as Hnin by (simpl; set_solver).
  assert (is_Some (mem stray_state !! 4%positive)) as Hlive by (eexists; reflexivity).
  split; [exact stray_tree_of|].
  destruct (erase_rejects_foreign_position obj stray_state three_tree
              (mkIter None (Some obj)) stray_tree_of) as (H1 & _).
  destruct (erase_rejects_foreign_position obj stray_state three_tree
              (mkIter (Some 4%positive) (Some obj)) stray_tree_of) as (_ & H2).
  split; [exact (H1 (or_intror eq_refl))|]. split; [exact Hnin|]. split; [exact Hlive|].
  exact (H2 4%positive eq_refl Hnin Hlive).
Defined.

(** X7 at the three-element map: erasing the leaf that holds key 1. *)
Lemma erase_leaf_witness :
  tree_of three_state three_tree ∧ counted three_state three_tree
  ∧ mem three_state !! 2%positive = Some (mkNode (1, 10) None None (Some 1%positive) 1)
  ∧ ∃ s' t' pre post,
      erase obj (mkIter (Some 2%positive) (Some obj)) three_state = Ok tt s'
      ∧ mem s' !! 2%positive = None
      ∧ (∀ b, b ≠ 2%positive → is_Some (mem s' !! b) ↔ is_Some (mem three_state !! b))
      ∧ n s' = n three_state - 1
      ∧ tree_of s' t'
      ∧ cells three_tree
        = pre ++ (2%positive, value (mkNode (1, 10) None None (Some 1%positive) 1)) :: post
      ∧ cells t' = pre ++ post.
Proof.
  split; [exact three_tree_of|]. split; [exact three_counted|]. split; [reflexivity|].
  exact (erase_leaf_or_single_child_frees_named_node obj three_state three_tree 2%positive
           (mkNode (1, 10) None None (Some 1%positive) 1)
           three_tree_of three_counted three_in_2 eq_refl (or_introl eq_refl)).
Defined.

(** X8 at the three-element map, reached by three insertions. *)
Lemma reachable_size_witness :
  reachable obj three_state
  ∧ ∃ t, tree_of three_state t
         ∧ size_ three_state = Ok (wrap (Z.of_nat (length (nodes t)))) three_state.
Proof.
  split; [exact three_reachable|].
  exact (reachable_size_counts_nodes obj three_state three_reachable).
Defined.

(** X9 at the store with a stray node. *)
Lemma clear_witness :
  tree_of stray_state three_tree
  ∧ ∃ s',
      clear stray_state = Ok tt s' ∧ map_destroy stray_state = Ok tt s'
      ∧ (∀ a, a ∈ nodes three_tree → mem s' !! a = None)
      ∧ (∀ a, a ∉ nodes three_tree → mem s' !! a = mem stray_state !! a)
      ∧ tree_of s' Leaf
      ∧ size_ s' = Ok 0 s' ∧ empty s' = Ok true s'
      ∧ begin_ obj s' = Ok (mkIter None (Some obj)) s'
      ∧ ∀ k, find obj k s' = Ok (mkIter None (Some obj)) s'.
Proof.
  split; [exact stray_tree_of|].
  exact (clear_frees_every_node obj stray_state three_tree stray_tree_of).
Defined.

(** X10 at the three-element map. *)
Lemma copy_witness :
  tree_of three_state three_tree
  ∧ ∃ s' t',
      map_copy three_state = Ok tt s'
      ∧ tree_of s' t' ∧ elems t' = elems three_tree ∧ n s' = n three_state
      ∧ (∀ a, a ∈ nodes t' → mem three_state !! a = None)
      ∧ (∀ a, is_Some (mem three_state !! a) → mem s' !! a = mem three_state !! a)
      ∧ rep (mem s') None three_tree
      ∧ (∀ val, ∃ res s'', insert obj val s' = Ok res s'' ∧ rep (mem s'') None three_tree)
      ∧ (∀ a, a ∈ nodes t' →
           ∃ s'', erase obj (mkIter (Some a) (Some obj)) s' = Ok tt s''
                  ∧ rep (mem s'') None three_tree)
      ∧ (∃ s'', clear s' = Ok tt s'' ∧ rep (mem s'') None three_tree).
Proof.
  split; [exact three_tree_of|].
  exact (copy_is_deep_and_independent obj three_state three_tree three_tree_of).
Defined.


(** X12 at the three-element map and the pair [(5, 50)]. *)
Lemma insert_then_erase_witness :
  tree_of three_state three_tree ∧ counted three_state three_tree
  ∧ ¬ has_key 5 three_tree
  ∧ ∃ p s1 s2 t2,
      insert obj (5, 50) three_state = Ok (mkIter (Some p) (Some obj), true) s1
      ∧ erase obj (mkIter (Some p) (Some obj)) s1 = Ok tt s2
      ∧ tree_of s2 t2 ∧ elems t2 = elems three_tree ∧ n s2 = n three_state.
Proof.
  split; [exact three_tree_of|]. split; [exact three_counted|].
  split; [exact three_no_key_5|].
  exact (insert_then_erase_restores_contents obj (5, 50) three_state three_tree
           three_tree_of three_counted three_no_key_5).
Defined.

(** X13 at the three-element map and the key 3. *)
Lemma avl_height_witness :
  tree_of three_state three_tree
  ∧ 2 ^ (ht three_tree / 2) ≤ Z.of_nat (length (nodes three_tree)) + 1
  ∧ findNode (S (Z.to_nat (ht three_tree))) 3 three_state
    = Ok (t_find 3 three_tree) three_state.
Proof.
  split; [exact three_tree_of|].
  exact (avl_height_is_logarithmic 3 three_state three_tree three_tree_of).
Defined.

(** X14 at the tree of the three-element map: a right rotation about the
    root and its left child, and a left rotation about the root and its
    right child. *)
Lemma rotations_witness :
  rep three_mem None three_tree ∧ uniq three_tree
  ∧ (∃ m' par' h1 h2,
       rotateRight (Some 1%positive) three_state
       = Ok (Some 2%positive) (mkState m' (Some 1%positive) 3)
       ∧ rep m' par' (Nd 2%positive Leaf (1, 10) h1
                         (Nd 1%positive Leaf (2, 20) h2 (Nd 3%positive Leaf (3, 30) 1 Leaf)))
       ∧ h2 = 1 + max2 0 1 ∧ h1 = 1 + max2 0 h2
       ∧ in_int h1 ∧ in_int h2
       ∧ cells (Nd 2%positive Leaf (1, 10) h1
                  (Nd 1%positive Leaf (2, 20) h2 (Nd 3%positive Leaf (3, 30) 1 Leaf)))
         = cells three_tree
       ∧ frame (nodes three_tree) three_mem m')
  ∧ (∃ m' par' h1 h2,
       rotateLeft (Some 1%positive) three_state
       = Ok (Some 3%positive) (mkState m' (Some 1%positive) 3)
       ∧ rep m' par' (Nd 3%positive
                         (Nd 1%positive (Nd 2%positive Leaf (1, 10) 1 Leaf) (2, 20) h2 Leaf)
                         (3, 30) h1 Leaf)
       ∧ h2 = 1 + max2 1 0 ∧ h1 = 1 + max2 h2 0
       ∧ in_int h1 ∧ in_int h2
       ∧ cells (Nd 3%positive
                  (Nd 1%positive (Nd 2%positive Leaf (1, 10) 1 Leaf) (2, 20) h2 Leaf)
                  (3, 30) h1 Leaf)
         = cells three_tree
       ∧ frame (nodes three_tree) three_mem m').
Proof.
  pose proof (to_rep _ _ three_tree_of) as Hrep.
  pose proof (to_uniq _ _ three_tree_of) as Hu.
  assert (int_min ≤ 0 ≤ int_max - 2) as H0 by (by vm_compute).
  assert (int_min ≤ 1 ≤ int_max - 2) as H1 by (by vm_compute).
  split; [exact Hrep|]. split; [exact Hu|]. split.
  - exact (proj1 (rotations_keep_in_order_listing three_mem None (Some 1%positive) 3
                    1%positive 2%positive Leaf (1, 10) 1 Leaf (2, 20) 2
                    (Nd 3%positive Leaf (3, 30) 1 Leaf) H0 H0 H1) Hrep Hu).
  - exact (proj2 (rotations_keep_in_order_listing three_mem None (Some 1%positive) 3
                    3%positive 1%positive (Nd 2%positive Leaf (1, 10) 1 Leaf) (2, 20) 2
                    Leaf (3, 30) 1 Leaf H1 H0 H0) Hrep Hu).
Defined.

(** X15 at the root of the three-element map. *)
Lemma rebalance_witness :
  rep three_mem None three_tree ∧ uniq three_tree
  ∧ ∃ m' par' t',
      rebalance (Some 1%positive) three_state = Ok (ptr t') (mkState m' (Some 1%positive) 3)
      ∧ rep m' par' t' ∧ hok t' ∧ balanced t'
      ∧ cells t' = cells three_tree
      ∧ Z.max 1 1 ≤ ht t' ≤ 1 + Z.max 1 1
      ∧ frame (nodes three_tree) three_mem m'.
Proof.
  pose proof (to_rep _ _ three_tree_of) as Hrep.
  pose proof (to_uniq _ _ three_tree_of) as Hu.
  split; [exact Hrep|]. split; [exact Hu|].
  apply (rebalance_restores_balance three_mem None (Some 1%positive) 3
           1%positive (Nd 2%positive Leaf (1, 10) 1 Leaf) (2, 20) 2
           (Nd 3%positive Leaf (3, 30) 1 Leaf) Hrep Hu).
  - simpl. repeat split; reflexivity.
  - simpl. repeat split; reflexivity.
  - simpl. repeat split; lia.
  - simpl. repeat split; lia.
  - simpl. lia.
Defined.

Lemma pair_tree_of : tree_of pair_state lone_tree.
Proof.
  split; simpl; try done.
  - apply NoDup_singleton.
  - repeat constructor.
Qed.

Lemma pair_other_tree_of : tree_of (mkState (mem pair_state) (ptr three_tree) 3) three_tree.
Proof.
  split.
  - reflexivity.
  - split; [reflexivity|]. split; (split; [reflexivity|split; exact I]).
  - exact (to_uniq _ _ three_tree_of).
  - exact (to_hok _ _ three_tree_of).
  - exact (to_bal _ _ three_tree_of).
  - exact (to_ord _ _ three_tree_of).
Qed.

(** X16: the object at address 1 of the store, holding [{9 ↦ 90}], is
    assigned the three-element map of the object at address 2. *)
Lemma assignment_witness :
  tree_of pair_state lone_tree
  ∧ tree_of (mkState (mem pair_state) (ptr three_tree) 3) three_tree
  ∧ disj (nodes lone_tree) (nodes three_tree)
  ∧ ∃ s' t',
      map_assign obj 2%positive (ptr three_tree) 3 pair_state = Ok tt s'
      ∧ tree_of s' t' ∧ elems t' = elems three_tree ∧ n s' = 3
      ∧ rep (mem s') None three_tree ∧ disj (nodes t') (nodes three_tree)
      ∧ (∀ a, a ∉ nodes lone_tree → is_Some (mem pair_state !! a) →
           mem s' !! a = mem pair_state !! a)
      ∧ (∀ val, ∃ res s'', insert obj val s' = Ok res s'' ∧ rep (mem s'') None three_tree).
Proof.
  assert (disj (nodes lone_tree) (nodes three_tree)) as Hd.
  { intros a Ha. simpl in *. set_solver. }
  assert (obj ≠ 2%positive) as Hne by discriminate.
  split; [exact pair_tree_of|]. split; [exact pair_other_tree_of|]. split; [exact Hd|].
  exact (assignment_replaces_contents obj 2%positive pair_state lone_tree three_tree 3
           Hne pair_tree_of pair_other_tree_of Hd).
Defined.
